(** * IronBee Predicate: the functional evaluation framework

    A shallow embedding of [predicate/functional.cpp]: the [Call] node
    wrapper ([pre_transform], [transform], [validate_args],
    [eval_calculate]) and the combinator hierarchy
    [Base] / [Simple] / [Primary] / [Each] / [Map] / [Filter] / [Selector].

    Mutable C++ objects are modelled by explicit state passing.  Code that
    can throw runs in a small state-and-exception monad in which the state
    survives a throw, as the in-place mutations of the C++ objects do.
    Calls into virtual hooks and user functions are recorded in a trace so
    that "is invoked once / never invoked" statements can be made.

    [MemoryManager] arguments say where results are allocated and are left
    out, except for the pool that [Call::transform] hands over to the
    literal it makes.  A [boost::any] substate is a value of a type
    parameter. *)

From Stdlib Require Import ZArith Lia.
From stdpp Require Import base option list gmap strings pretty.

Set Warnings "-register-all".
Local Open Scope Z_scope.
Local Open Scope nat_scope.

(* ------------------------------------------------------------------ *)
(** ** Values *)

Module Values.

(** [Value]: a possibly-null, named, typed value.  A default constructed
    [Value()] is null. *)
Inductive Value : Type :=
| VNull
| VNumber (name : string) (n : Z)
| VString (name : string) (s : string)
| VList (name : string) (elems : list Value).


Definition is_null (v : Value) : bool :=
  match v with VNull => true | _ => false end.


Definition is_list (v : Value) : bool :=
  match v with VList _ _ => true | _ => false end.

Definition as_list (v : Value) : list Value :=
  match v with VList _ l => l | _ => [] end.

Definition name (v : Value) : string :=
  match v with
  | VNull => ""
  | VNumber n _ | VString n _ | VList n _ => n
  end.

(** [value_vec_t] is a [std::vector<Value>]. *)
Definition value_vec_t : Type := list Value.

End Values.
Export Values.

(* ------------------------------------------------------------------ *)
(** ** Exceptions and the state-and-exception monad *)

Inductive exn : Type :=
| einval (what : string)
| assertion_failed (what : string)
| undefined_behaviour (what : string).

Module Eff.

(** A computation over a mutable state [St]: the state is returned also
    when the computation throws. *)
Definition M (St A : Type) : Type := St -> St * (exn + A).

Definition ret {St A} (a : A) : M St A := fun s => (s, inr a).

Definition bind {St A B} (m : M St A) (k : A -> M St B) : M St B :=
  fun s =>
    match m s with
    | (s', inl e) => (s', inl e)
    | (s', inr a) => k a s'
    end.

Definition throw {St A} (e : exn) : M St A := fun s => (s, inl e).
Definition get {St} : M St St := fun s => (s, inr s).
Definition gets {St A} (f : St -> A) : M St A := fun s => (s, inr (f s)).
Definition modify {St} (f : St -> St) : M St unit := fun s => (f s, inr tt).

(** The state a computation leaves. *)
Definition exec {St A} (m : M St A) (s : St) : St := fst (m s).

End Eff.

Declare Scope eff_scope.
Delimit Scope eff_scope with eff.
Notation "x <- m ;; k" := (Eff.bind m (fun x => k))
  (at level 100, m at next level, right associativity) : eff_scope.
Notation "m ;;; k" := (Eff.bind m (fun _ => k))
  (at level 100, right associativity) : eff_scope.

(* ------------------------------------------------------------------ *)
(** ** Per-node evaluation state *)

Module EvalState.

(** Modelled from the spec: [NodeEvalState] and [GraphEvalState] live in
    predicate/eval.hpp, which is not among the sources.  The spec gives a
    node state a [value], a [finished] flag and, for list-producing nodes,
    a local accumulating list distinct from any input list; [finish] is the
    transition running -> finished.  [finish] and [append_to_list] are
    refused (einval) on a finished state, which is what the
    [if (! my_state.is_finished())] guards around the calls in
    functional.cpp protect against; the value of a state with a local list
    is a list value named at setup whose elements are the local list. *)
Record NodeEvalState : Type := mkNodeEvalState {
  value : Value;
  is_finished : bool;
  local_values : option (string * list Value)
}.

Definition fresh_state : NodeEvalState :=
  {| value := VNull; is_finished := false; local_values := None |}.

(** Modelled from the spec: the operations of [NodeEvalState] used by
    functional.cpp.  Each one either throws, leaving the state as it was,
    or returns the new state. *)
Definition finish (s : NodeEvalState) : exn + NodeEvalState :=
  if is_finished s then inl (einval "Can't finish an already finished node.")
  else inr {| value := value s; is_finished := true;
              local_values := local_values s |}.

Definition finish_value (v : Value) (s : NodeEvalState)
  : exn + NodeEvalState :=
  match finish s with
  | inl e => inl e
  | inr s' => inr {| value := v; is_finished := is_finished s';
                     local_values := local_values s' |}
  end.

(** Setting up the local list happens once: a state that already has a
    value (in particular one whose local list is set up) is left alone.
    The flag is not looked at and not touched. *)
Definition setup_local_list (nm : string) (s : NodeEvalState)
  : exn + NodeEvalState :=
  if negb (is_null (value s)) || bool_decide (is_Some (local_values s))
  then inr s
  else inr {| value := VList nm []; is_finished := is_finished s;
              local_values := Some (nm, []) |}.

Definition append_to_list (v : Value) (s : NodeEvalState)
  : exn + NodeEvalState :=
  if is_finished s then inl (einval "Can't add value to finished node.")
  else match local_values s with
       | None =>
           inl (einval "Attempting to add value before setting up local list.")
       | Some (nm, l) =>
           inr {| value := VList nm (l ++ [v]); is_finished := false;
                  local_values := Some (nm, l ++ [v]) |}
       end.

(** Modelled from the spec: [GraphEvalState] is a table from node index to
    [NodeEvalState], sized at construction. *)
Definition GraphEvalState : Type := list NodeEvalState.

Definition ges_new (size : nat) : GraphEvalState := replicate size fresh_state.

Definition ges_at (ges : GraphEvalState) (i : nat) : NodeEvalState :=
  default fresh_state (ges !! i).

Definition ges_is_finished (ges : GraphEvalState) (i : nat) : bool :=
  is_finished (ges_at ges i).

Definition ges_value (ges : GraphEvalState) (i : nat) : Value :=
  value (ges_at ges i).

Definition ges_set (ges : GraphEvalState) (i : nat) (s : NodeEvalState)
  : GraphEvalState := <[i := s]> ges.

End EvalState.
Export EvalState.

(* ------------------------------------------------------------------ *)
(** ** Nodes *)

Module Dag.

(** A node of the predicate DAG.  [node_p] is a shared pointer and nodes are
    compared by address: the address is the [id].  A [Literal] owns an
    optional memory pool and holds a value; a [Call] has a name and an
    ordered list of children.  The evaluation index is mutable
    ([set_index]) and kept in a store keyed by address. *)
Inductive Node : Type :=
| Literal (id : nat) (pool : option nat) (v : Value)
| Call (id : nat) (name : string) (children : list Node).

Definition node_id (n : Node) : nat :=
  match n with Literal i _ _ | Call i _ _ => i end.

Definition is_literal (n : Node) : bool :=
  match n with Literal _ _ _ => true | Call _ _ _ => false end.

Definition children (n : Node) : list Node :=
  match n with Literal _ _ _ => [] | Call _ _ c => c end.

(** [literal_value(node)]: the value held by a literal node. *)
Definition literal_value (n : Node) : Value :=
  match n with Literal _ _ v => v | Call _ _ _ => VNull end.

Definition IndexStore : Type := gmap nat nat.

Definition set_index (n : Node) (i : nat) (st : IndexStore) : IndexStore :=
  <[node_id n := i]> st.

Definition index (st : IndexStore) (n : Node) : nat :=
  default 0 (st !! node_id n).

End Dag.
Export Dag.

(* ------------------------------------------------------------------ *)
(** ** The streaming combinators: Each, Map, Filter, Selector *)

Module Functional.
Import Eff.
Local Open Scope eff_scope.

(** What [Each::eval_primary] does to its hooks, in order. *)
Inductive Event : Type :=
| EvReady (primary_value : Value)
| EvEach (primary_value subvalue : Value).

(** [each_state_t]: [last_subvalue] is a list iterator, modelled by the
    position of the element it points to; a default constructed iterator
    is singular ([None]). *)
Record each_state_t (S : Type) : Type := mkEachState {
  initialized : bool;
  last_subvalue : option nat;
  subsubstate : S
}.
Arguments mkEachState {S}.
Arguments initialized {S}.
Arguments last_subvalue {S}.
Arguments subsubstate {S}.

(** What a hook ([ready], [eval_each]) is handed by reference: the node's
    state and the user substate.  [h_calls] records the subvalues on which
    the user function ([eval_map], [eval_filter], [eval_selector]) has been
    invoked. *)
Record HookFrame (S : Type) : Type := mkHookFrame {
  h_my_state : NodeEvalState;
  h_substate : S;
  h_calls : list Value
}.
Arguments mkHookFrame {S}.
Arguments h_my_state {S}.
Arguments h_substate {S}.
Arguments h_calls {S}.

(** What [Each::eval_primary] works on. *)
Record EachFrame (S : Type) : Type := mkEachFrame {
  my_state : NodeEvalState;
  each_state : each_state_t S;
  calls : list Value;
  trace : list Event
}.
Arguments mkEachFrame {S}.
Arguments my_state {S}.
Arguments each_state {S}.
Arguments calls {S}.
Arguments trace {S}.

(** The virtual hooks of [Each]. *)
Class EachHooks (S : Type) : Type := {
  ready : value_vec_t -> Value -> M (HookFrame S) unit;
  eval_each : value_vec_t -> Value -> Value -> M (HookFrame S) unit
}.

Section Each.
Context {S : Type} `{Hooks : EachHooks S}.

(** [Each::eval_initialize]: a fresh [each_state_t] around the substate
    that [eval_initialize_each] produced. *)
Definition eval_initialize (sub0 : S) : each_state_t S :=
  {| initialized := false; last_subvalue := None; subsubstate := sub0 |}.

Definition initial_frame (sub0 : S) : EachFrame S :=
  {| my_state := fresh_state; each_state := eval_initialize sub0;
     calls := []; trace := [] |}.

(** A [NodeEvalState] method applied to [my_state]. *)
Definition on_my_state (op : NodeEvalState -> exn + NodeEvalState)
  : M (EachFrame S) unit :=
  fun f =>
    match op (my_state f) with
    | inl e => (f, inl e)
    | inr s' => (mkEachFrame s' (each_state f) (calls f) (trace f), inr tt)
    end.

Definition log (e : Event) : M (EachFrame S) unit :=
  modify (fun f =>
    mkEachFrame (my_state f) (each_state f) (calls f) (trace f ++ [e])).

(** Running a hook on the references it is given. *)
Definition call_hook (h : M (HookFrame S) unit) : M (EachFrame S) unit :=
  fun f =>
    let es := each_state f in
    match h (mkHookFrame (my_state f) (subsubstate es) (calls f)) with
    | (hf, r) =>
        (mkEachFrame (h_my_state hf)
           (mkEachState (initialized es) (last_subvalue es) (h_substate hf))
           (h_calls hf) (trace f),
         r)
    end.

Definition call_ready (secondary_args : value_vec_t) (pv : Value)
  : M (EachFrame S) unit :=
  log (EvReady pv) ;;; call_hook (ready secondary_args pv).

Definition call_eval_each (secondary_args : value_vec_t) (pv sv : Value)
  : M (EachFrame S) unit :=
  log (EvEach pv sv) ;;; call_hook (eval_each secondary_args pv sv).

Definition set_initialized : M (EachFrame S) unit :=
  modify (fun f =>
    let es := each_state f in
    mkEachFrame (my_state f)
      (mkEachState true (last_subvalue es) (subsubstate es))
      (calls f) (trace f)).

Definition set_last_subvalue (pos : nat) : M (EachFrame S) unit :=
  modify (fun f =>
    let es := each_state f in
    mkEachFrame (my_state f)
      (mkEachState (initialized es) (Some pos) (subsubstate es))
      (calls f) (trace f)).

(** The [while (subvalue_iter != primary_values.end())] loop; [rest] are
    the elements from [subvalue_iter] on and [pos] its position.  The
    result tells whether the loop left the function by [return]. *)
Fixpoint each_loop (secondary_args : value_vec_t) (pv : Value)
    (rest : list Value) (pos : nat) : M (EachFrame S) bool :=
  match rest with
  | [] => ret false
  | sv :: rest' =>
      call_eval_each secondary_args pv sv ;;;
      fin <- gets (fun f => is_finished (my_state f)) ;;
      if fin then ret true
      else set_last_subvalue pos ;;;
           each_loop secondary_args pv rest' (Datatypes.S pos)
  end.

(** Where the loop starts: at [begin()] on the first pass, after
    [last_subvalue] later. *)
Definition first_position : M (EachFrame S) nat :=
  init <- gets (fun f => initialized (each_state f)) ;;
  if negb init then set_initialized ;;; ret 0
  else
    last <- gets (fun f => last_subvalue (each_state f)) ;;
    match last with
    | Some i => ret (Datatypes.S i)
    | None => throw (undefined_behaviour "increment of a singular iterator")
    end.

Definition finish_unless_finished : M (EachFrame S) unit :=
  fin <- gets (fun f => is_finished (my_state f)) ;;
  if negb fin then on_my_state finish else ret tt.

(** [Each::eval_primary]. *)
Definition eval_primary (secondary_args : value_vec_t)
    (primary_arg : NodeEvalState) : M (EachFrame S) unit :=
  let primary_value := value primary_arg in
  if is_null primary_value then
    if is_finished primary_arg
    then on_my_state (finish_value primary_value)
    else ret tt
  else if negb (is_list primary_value) then
    call_ready secondary_args primary_value ;;;
    call_eval_each secondary_args primary_value primary_value ;;;
    finish_unless_finished
  else
    let primary_values := as_list primary_value in
    call_ready secondary_args primary_value ;;;
    match primary_values with
    | [] =>
        fin <- gets (fun f => is_finished (my_state f)) ;;
        if is_finished primary_arg && negb fin
        then on_my_state finish else ret tt
    | _ :: _ =>
        fin <- gets (fun f => is_finished (my_state f)) ;;
        if fin then ret tt
        else
          start <- first_position ;;
          returned <- each_loop secondary_args primary_value
                        (drop start primary_values) start ;;
          if returned then ret tt
          else if is_finished primary_arg then finish_unless_finished
          else ret tt
    end.

(** Repeated invocation by the host: one [eval_primary] per state of the
    primary argument, stopping at the first throw. *)
Fixpoint eval_primary_seq (secondary_args : value_vec_t)
    (primary_args : list NodeEvalState) : M (EachFrame S) unit :=
  match primary_args with
  | [] => ret tt
  | p :: ps =>
      eval_primary secondary_args p ;;;
      eval_primary_seq secondary_args ps
  end.

End Each.

(** Hooks act on a [HookFrame]. *)
Section HookOps.
Context {S : Type}.

Definition hook_on_my_state (op : NodeEvalState -> exn + NodeEvalState)
  : M (HookFrame S) unit :=
  fun f =>
    match op (h_my_state f) with
    | inl e => (f, inl e)
    | inr s' => (mkHookFrame s' (h_substate f) (h_calls f), inr tt)
    end.

(** Invoking a user function on a subvalue with the substate passed by
    reference. *)
Definition call_user {R : Type} (fn : S -> Value -> R * S) (sv : Value)
  : M (HookFrame S) R :=
  fun f =>
    let (r, sub') := fn (h_substate f) sv in
    (mkHookFrame (h_my_state f) sub' (h_calls f ++ [sv]), inr r).

(** [Each::ready]: nop. *)
Definition Each_ready (secondary_args : value_vec_t) (pv : Value)
  : M (HookFrame S) unit := ret tt.

Section Map.
Variable eval_map : value_vec_t -> S -> Value -> Value * S.

(** [Map::ready]. *)
Definition Map_ready (secondary_args : value_vec_t) (pv : Value)
  : M (HookFrame S) unit :=
  if is_list pv then hook_on_my_state (setup_local_list (name pv))
  else ret tt.

(** [Map::eval_each].  The [assert(primary_value == subvalue)] of the
    scalar branch is about two arguments that [Each::eval_primary] makes
    the same. *)
Definition Map_eval_each (secondary_args : value_vec_t) (pv sv : Value)
  : M (HookFrame S) unit :=
  if negb (is_list pv) then
    r <- call_user (eval_map secondary_args) sv ;;
    hook_on_my_state (finish_value r)
  else
    r <- call_user (eval_map secondary_args) sv ;;
    hook_on_my_state (append_to_list r).

Definition Map : EachHooks S :=
  {| ready := Map_ready; eval_each := Map_eval_each |}.
End Map.

Section Filter.
(** [eval_filter] returns [pass] and the [early_finish] flag it was
    handed (initially false) by reference. *)
Variable eval_filter : value_vec_t -> S -> Value -> (bool * bool) * S.

(** [Filter::ready]. *)
Definition Filter_ready (secondary_args : value_vec_t) (pv : Value)
  : M (HookFrame S) unit :=
  if is_list pv then hook_on_my_state (setup_local_list (name pv))
  else ret tt.

(** [Filter::eval_each]. *)
Definition Filter_eval_each (secondary_args : value_vec_t) (pv sv : Value)
  : M (HookFrame S) unit :=
  if negb (is_list pv) then
    r <- call_user (eval_filter secondary_args) sv ;;
    let '(pass, early_finish) := r in
    if pass then hook_on_my_state (finish_value sv)
    else hook_on_my_state finish
  else
    r <- call_user (eval_filter secondary_args) sv ;;
    let '(pass, early_finish) := r in
    (if pass then hook_on_my_state (append_to_list sv) else ret tt) ;;;
    if early_finish then hook_on_my_state finish else ret tt.

Definition Filter : EachHooks S :=
  {| ready := Filter_ready; eval_each := Filter_eval_each |}.
End Filter.

Section Selector.
Variable eval_selector : value_vec_t -> S -> Value -> bool * S.

(** [Selector::eval_each]. *)
Definition Selector_eval_each (secondary_args : value_vec_t)
    (pv sv : Value) : M (HookFrame S) unit :=
  pass <- call_user (eval_selector secondary_args) sv ;;
  if pass then hook_on_my_state (finish_value sv) else ret tt.

Definition Selector : EachHooks S :=
  {| ready := Each_ready; eval_each := Selector_eval_each |}.
End Selector.

End HookOps.

(** *** Simple and Primary *)

Section Simple.
Variable num_static_args num_dynamic_args : nat.
Variable eval_simple : value_vec_t -> Value.
Variable index : Node -> nat.

(** The [BOOST_FOREACH] of [Simple::eval]: [None] when the function
    returns from inside the loop. *)
Fixpoint Simple_collect (ges : GraphEvalState) (cs : list Node) (i : nat)
    (args : value_vec_t) : option value_vec_t :=
  match cs with
  | [] => Some args
  | child :: rest =>
      if bool_decide (num_static_args <= i) then
        if negb (ges_is_finished ges (index child)) then None
        else Simple_collect ges rest (Datatypes.S i)
               (args ++ [ges_value ges (index child)])
      else Simple_collect ges rest (Datatypes.S i) args
  end.

(** [my_state.finish(v)] for [my_state = ges[i]]. *)
Definition ges_finish_value {X : Type} (i : nat) (v : Value)
  : M (GraphEvalState * X) unit :=
  fun '(ges, x) =>
    match finish_value v (ges_at ges i) with
    | inl e => ((ges, x), inl e)
    | inr s' => ((ges_set ges i s', x), inr tt)
    end.

(** [Simple::eval].  The state is the graph evaluation state together
    with the record of the argument vectors [eval_simple] was called
    with.  [value_vec_t args(num_dynamic_args())] constructs a vector of
    that many default (null) values, to which the loop then pushes. *)
Definition Simple_eval (me : Node)
  : M (GraphEvalState * list value_vec_t) unit :=
  let n := length (children me) in
  if negb (bool_decide (n = num_dynamic_args + num_static_args)) then
    throw (assertion_failed "n == num_dynamic_args() + num_static_args()")
  else
    ges <- gets fst ;;
    match Simple_collect ges (children me) 0
            (replicate num_dynamic_args VNull) with
    | None => ret tt
    | Some args =>
        modify (fun '(g, calls) => (g, calls ++ [args])) ;;;
        ges_finish_value (index me) (eval_simple args)
    end.
End Simple.

Section Primary.
Context {X : Type}.
Variable num_static_args num_dynamic_args : nat.
Variable index : Node -> nat.
(** [eval_primary(mm, me, substate, my_state, secondary_args, primary_arg)]:
    [my_state] and everything else it reaches by reference ([X]) are its
    state. *)
Variable eval_primary :
  value_vec_t -> NodeEvalState -> M (NodeEvalState * X) unit.

(** The loop of [Primary::eval]: the secondary values and the state of
    the primary argument, or [None] when it returns from inside. *)
Fixpoint Primary_collect (ges : GraphEvalState) (n : nat) (cs : list Node)
    (i : nat) (values : value_vec_t) (primary_state : option NodeEvalState)
  : option (value_vec_t * option NodeEvalState) :=
  match cs with
  | [] => Some (values, primary_state)
  | child :: rest =>
      if bool_decide (i = n - 1) then
        Primary_collect ges n rest (Datatypes.S i) values
          (Some (ges_at ges (index child)))
      else if bool_decide (num_static_args <= i) then
        if negb (ges_is_finished ges (index child)) then None
        else Primary_collect ges n rest (Datatypes.S i)
               (values ++ [ges_value ges (index child)]) primary_state
      else Primary_collect ges n rest (Datatypes.S i) values primary_state
  end.

(** [Primary::eval]. *)
Definition Primary_eval (me : Node) : M (GraphEvalState * X) unit :=
  ges <- gets fst ;;
  let n := length (children me) in
  match Primary_collect ges n (children me) 0 [] None with
  | None => ret tt
  | Some (_, None) => throw (assertion_failed "primary_state")
  | Some (values, Some primary_state) =>
      fun '(g, x) =>
        let i := index me in
        match eval_primary values primary_state (ges_at g i, x) with
        | ((my_state', x'), r) => ((ges_set g i my_state', x'), r)
        end
  end.
End Primary.

End Functional.

(* ------------------------------------------------------------------ *)
(** ** Reporting *)

Module Report.

(** Modelled from the spec: [Reporter] collects validation diagnostics as
    (node, message, is_error) records and exposes [num_errors]; a
    [NodeReporter] is a reporter bound to a node.  predicate/reporter.hpp is
    not among the sources. *)
Record Diagnostic : Type := mkDiagnostic {
  d_is_error : bool;
  d_node : nat;
  d_message : string
}.

Definition Reporter : Type := list Diagnostic.

Definition num_errors (r : Reporter) : nat :=
  length (List.filter d_is_error r).

(** What a callee says through a [NodeReporter]: errors and warnings. *)
Definition Remarks : Type := list (bool * string).

Definition report (node : Node) (what : Remarks) (r : Reporter) : Reporter :=
  r ++ map (fun '(e, m) => mkDiagnostic e (node_id node) m) what.

End Report.
Export Report.

(* ------------------------------------------------------------------ *)
(** ** Impl::Call *)

Module CallImpl.
Import Eff.
Local Open Scope eff_scope.

(** The part of the [Base] interface that [Impl::Call] uses outside
    evaluation: the arity and [validate_argument], which speaks through the
    node reporter it is given. *)
Record Base : Type := mkBase {
  num_static_args : nat;
  num_dynamic_args : nat;
  validate_argument : nat -> Value -> Remarks
}.

(** *** pre_transform *)

Section PreTransform.
Variable base : Base.
(** [Predicate::Call::pre_transform], the parent's checks (not among the
    sources). *)
Variable parent_pre_transform : Node -> Remarks.
(** The text of the arity message of [Validate::n_children]. *)
Variable n_children_message : nat -> nat -> string.

(** The reporter and the record of [validate_argument] invocations. *)
Record PreFrame : Type := mkPreFrame {
  reporter : Reporter;
  validated : list (nat * Value)
}.

(** Modelled from the spec: [Validate::n_children(reporter, n)] reports an
    error unless the node has [n] children and tells whether it has. *)
Definition n_children (me : Node) (n : nat) (fr : PreFrame)
  : bool * PreFrame :=
  let actual := length (children me) in
  if bool_decide (actual = n) then (true, fr)
  else (false,
        mkPreFrame
          (report me [(true, n_children_message n actual)] (reporter fr))
          (validated fr)).

(** [m_base->validate_argument(i, v, reporter)]. *)
Definition call_validate_argument (me : Node) (i : nat) (v : Value)
    (fr : PreFrame) : PreFrame :=
  mkPreFrame (report me (validate_argument base i v) (reporter fr))
             (validated fr ++ [(i, v)]).

Fixpoint validate_literal_children (me : Node) (cs : list Node) (i : nat)
    (fr : PreFrame) : PreFrame :=
  match cs with
  | [] => fr
  | child :: rest =>
      validate_literal_children me rest (Datatypes.S i)
        (if is_literal child
         then call_validate_argument me i (literal_value child) fr
         else fr)
  end.

(** [Call::pre_transform]. *)
Definition pre_transform (me : Node) (fr : PreFrame) : PreFrame :=
  let fr := mkPreFrame (report me (parent_pre_transform me) (reporter fr))
                       (validated fr) in
  let '(okay, fr) :=
    n_children me (num_static_args base + num_dynamic_args base) fr in
  if negb okay then fr
  else validate_literal_children me (children me) 0 fr.
End PreTransform.

(** *** transform *)

Inductive EvalContext : Type :=
| EmptyContext
| TxContext (mm : nat).

Inductive TransformEvent : Type :=
| TSetIndex (n : Node) (i : nat)
| TGesNew (size : nat)
| TInitialize (n : Node) (ctx : EvalContext)
| TPrepare (pool : nat) (static_args : value_vec_t)
| TEval (n : Node) (ctx : EvalContext)
| TReplace (old new : Node)
| TBaseTransform (me : Node).

Section Transform.
Variable base : Base.
Context {MergeGraph : Type}.
(** [MergeGraph::replace]. *)
Variable mg_replace : Node -> Node -> MergeGraph -> MergeGraph.

(** What [transform] can reach: node indices, the merge graph, the
    reporter, the allocator (next unused address) and the record of its
    calls. *)
Record World : Type := mkWorld {
  indices : IndexStore;
  merge_graph : MergeGraph;
  t_reporter : Reporter;
  next_address : nat;
  tlog : list TransformEvent
}.

(** [GraphEvalState::initialize] and [GraphEvalState::eval] dispatch to
    the nodes' own [eval_initialize] and [eval_calculate] (predicate/eval,
    not among the sources). *)
Variable ges_initialize :
  IndexStore -> Node -> EvalContext -> GraphEvalState -> GraphEvalState.
Variable ges_eval :
  IndexStore -> Node -> EvalContext -> GraphEvalState
  -> exn + GraphEvalState.
(** [Base::prepare] and [Base::transform], virtual. *)
Variable base_prepare : nat -> value_vec_t -> Reporter -> exn + Reporter.
Variable base_transform : Node -> M World bool.

Definition tell (e : TransformEvent) : M World unit :=
  modify (fun w =>
    mkWorld (indices w) (merge_graph w) (t_reporter w) (next_address w)
            (tlog w ++ [e])).

Definition do_set_index (n : Node) (i : nat) : M World unit :=
  tell (TSetIndex n i) ;;;
  modify (fun w =>
    mkWorld (set_index n i (indices w)) (merge_graph w) (t_reporter w)
            (next_address w) (tlog w)).

(** [new T(...)]: a fresh address. *)
Definition allocate : M World nat :=
  fun w =>
    (mkWorld (indices w) (merge_graph w) (t_reporter w)
             (Datatypes.S (next_address w)) (tlog w),
     inr (next_address w)).

(** The second [BOOST_FOREACH]: children get the indices from [index] on;
    the result is the index after the last. *)
Fixpoint index_children (cs : list Node) (index : nat) : M World nat :=
  match cs with
  | [] => ret index
  | arg :: rest =>
      do_set_index arg index ;;;
      index_children rest (Datatypes.S index)
  end.

(** The third [BOOST_FOREACH]: [initialized] is a [set<node_p>]. *)
Fixpoint initialize_children (cs : list Node) (initialized : gset nat)
    (ges : GraphEvalState) : M World GraphEvalState :=
  match cs with
  | [] => ret ges
  | arg :: rest =>
      if negb (is_literal arg) then
        throw (assertion_failed "arg->is_literal()")
      else if bool_decide (node_id arg ∈ initialized) then
        initialize_children rest initialized ges
      else
        tell (TInitialize arg EmptyContext) ;;;
        idx <- gets indices ;;
        initialize_children rest ({[node_id arg]} ∪ initialized)
          (ges_initialize idx arg EmptyContext ges)
  end.

(** [prepare_call]: the loop runs [num_static_args] times and does not
    look for the end of the children. *)
Definition prepare_call (me : Node) (mm : nat) : M World unit :=
  let n := num_static_args base in
  if bool_decide (length (children me) < n) then
    throw (undefined_behaviour "dereference of a past-the-end iterator")
  else
    let static_args := map literal_value (take n (children me)) in
    tell (TPrepare mm static_args) ;;;
    fun w =>
      match base_prepare mm static_args (t_reporter w) with
      | inl e => (w, inl e)
      | inr r =>
          (mkWorld (indices w) (merge_graph w) r (next_address w) (tlog w),
           inr tt)
      end.

Definition do_replace (old new : Node) : M World unit :=
  tell (TReplace old new) ;;;
  modify (fun w =>
    mkWorld (indices w) (mg_replace old new (merge_graph w)) (t_reporter w)
            (next_address w) (tlog w)).

Definition call_base_transform (me : Node) : M World bool :=
  tell (TBaseTransform me) ;;; base_transform me.

(** [Call::transform]. *)
Definition transform (me : Node) : M World bool :=
  if negb (forallb is_literal (children me)) then call_base_transform me
  else
    do_set_index me 0 ;;;
    index <- index_children (children me) 1 ;;
    tell (TGesNew index) ;;;
    ges <- initialize_children (children me) ∅ (ges_new index) ;;
    mpl <- allocate ;;
    prepare_call me mpl ;;;
    let eval_context := TxContext mpl in
    tell (TInitialize me eval_context) ;;;
    idx <- gets indices ;;
    let ges := ges_initialize idx me eval_context ges in
    tell (TEval me eval_context) ;;;
    match ges_eval idx me eval_context ges with
    | inl e => throw e
    | inr ges =>
        let my_state := ges_at ges 0 in
        if is_finished my_state then
          a <- allocate ;;
          let replacement := Literal a (Some mpl) (value my_state) in
          do_replace me replacement ;;;
          ret true
        else call_base_transform me
    end.
End Transform.

(** *** Evaluation *)

Definition arg_with_index_t : Type := Node * nat.
Definition arg_list_t : Type := list arg_with_index_t.

(** [call_state_t]; [X] is what [Base::eval] reaches through [substate]. *)
Record call_state_t (X : Type) : Type := mkCallState {
  unfinished : arg_list_t;
  substate : X
}.
Arguments mkCallState {X}.
Arguments unfinished {X}.
Arguments substate {X}.

(** The graph evaluation state, the call state of the node and whether
    [Base::eval] has been entered. *)
Record CalcFrame (X : Type) : Type := mkCalcFrame {
  ges : GraphEvalState;
  call_state : call_state_t X;
  base_eval_calls : nat
}.
Arguments mkCalcFrame {X}.
Arguments ges {X}.
Arguments call_state {X}.
Arguments base_eval_calls {X}.

Section Calculate.
Context {X : Type}.
Variable base : Base.
Variable index : Node -> nat.
(** [Node::to_s] and [Reporter::write_report], not among the sources. *)
Variable to_s : Node -> string.
Variable write_report : Reporter -> string.
(** [Base::eval_initialize] and [Base::eval], virtual. *)
Variable base_eval_initialize : Node -> GraphEvalState -> X.
Variable base_eval : Node -> M (GraphEvalState * X) unit.

(** The [boost::format] text of the exception of [validate_args]. *)
Definition validation_failure (n : nat) (report_text arg_text : string)
  : string :=
  "Argument validation failed: n=" +:+ pretty n +:+
  " report=" +:+ report_text +:+ " arg=" +:+ arg_text.

(** [validate_args]: the list is updated in place, so what has been erased
    before a throw stays erased. *)
Fixpoint validate_args (graph_eval_state : GraphEvalState)
    (args : arg_list_t) : arg_list_t * (exn + unit) :=
  match args with
  | [] => ([], inr tt)
  | (node, n) :: rest =>
      if ges_is_finished graph_eval_state (index node) then
        let reporter : Reporter :=
          report node
            (validate_argument base n
               (ges_value graph_eval_state (index node))) [] in
        if bool_decide (0 < num_errors reporter) then
          ((node, n) :: rest,
           inl (einval (validation_failure n (write_report reporter)
                          (to_s node))))
        else validate_args graph_eval_state rest
      else
        let '(rest', r) := validate_args graph_eval_state rest in
        ((node, n) :: rest', r)
  end.

(** The loop of [Call::eval_initialize]: the non-literal children with
    their positions. *)
Fixpoint non_literal_children (cs : list Node) (i : nat) : arg_list_t :=
  match cs with
  | [] => []
  | child :: rest =>
      if negb (is_literal child)
      then (child, i) :: non_literal_children rest (Datatypes.S i)
      else non_literal_children rest (Datatypes.S i)
  end.

(** [Call::eval_initialize]: the call state that is stored in the node's
    evaluation state. *)
Definition eval_initialize (me : Node) (graph_eval_state : GraphEvalState)
  : call_state_t X :=
  {| unfinished := non_literal_children (children me) 0;
     substate := base_eval_initialize me graph_eval_state |}.

(** [Call::eval_calculate]. *)
Definition eval_calculate (me : Node) : M (CalcFrame X) unit :=
  fun fr =>
    let cs := call_state fr in
    match validate_args (ges fr) (unfinished cs) with
    | (args, inl e) =>
        (mkCalcFrame (ges fr) (mkCallState args (substate cs))
                     (base_eval_calls fr),
         inl e)
    | (args, inr _) =>
        match base_eval me (ges fr, substate cs) with
        | ((g, x), r) =>
            (mkCalcFrame g (mkCallState args x)
                         (Datatypes.S (base_eval_calls fr)),
             r)
        end
    end.
End Calculate.

End CallImpl.

(* ------------------------------------------------------------------ *)
(** ** What is observed of an evaluation *)

Module Observe.
Import Eff Functional.

(** The subvalues passed to [eval_each], in order. *)
Definition delivered (tr : list Event) : list Value :=
  omap (fun e => match e with EvEach _ sv => Some sv | EvReady _ => None end)
       tr.

(** The primary values [ready] was invoked with, in order. *)
Definition readied (tr : list Event) : list Value :=
  omap (fun e => match e with EvReady pv => Some pv | EvEach _ _ => None end)
       tr.

(** The order of cursor positions: a singular iterator is before every
    position. *)
Definition cursor_le (a b : option nat) : Prop :=
  match a, b with
  | None, _ => True
  | Some _, None => False
  | Some i, Some j => i <= j
  end.

(** How many elements the cursor of an [each_state_t] has passed. *)
Definition consumed {S : Type} (es : each_state_t S) : nat :=
  if initialized es then
    match last_subvalue es with Some i => Datatypes.S i | None => 0 end
  else 0.

(** A state that has a value or a local list: [setup_local_list] leaves
    it alone. *)
Definition settled (s : NodeEvalState) : bool :=
  negb (is_null (value s)) || bool_decide (is_Some (local_values s)).

(** What the methods of [NodeEvalState] can make of a finished state [s]:
    nothing, or, when it has neither a value nor a local list, the empty
    local list under some name, the flag as it is. *)
Definition kept (s s' : NodeEvalState) : Prop :=
  s' = s \/
  (settled s = false /\
   exists nm, s' = mkNodeEvalState (VList nm []) (is_finished s)
                                   (Some (nm, []))).

(** A hook reaches the node's state only through the methods of
    [NodeEvalState]. *)
Definition keeps_finished {S : Type} (h : M (HookFrame S) unit) : Prop :=
  forall hf : HookFrame S,
    is_finished (h_my_state hf) = true ->
    kept (h_my_state hf) (h_my_state (exec h hf)).

Class LawfulHooks (S : Type) (Hooks : EachHooks S) : Prop := {
  ready_keeps_finished :
    forall args pv, keeps_finished (ready args pv);
  eval_each_keeps_finished :
    forall args pv sv, keeps_finished (eval_each args pv sv)
}.

(** A primary argument over time: always the same list, growing at its end
    while the argument is unfinished, fixed once it is finished. *)
Fixpoint stream_from (nm : string) (l : list Value)
    (ps : list NodeEvalState) : Prop :=
  match ps with
  | [] => True
  | p :: ps' =>
      exists l', value p = VList nm l' /\ l `prefix_of` l' /\
                 stream_from nm l' ps'
  end.

(** The list a stream ends with. *)
Fixpoint final_list (l : list Value) (ps : list NodeEvalState)
  : list Value :=
  match ps with
  | [] => l
  | p :: ps' => final_list (as_list (value p)) ps'
  end.

(** A method of [NodeEvalState] applied to a finished state: it refuses,
    or returns a state that is [kept]. *)
Definition gentle (op : NodeEvalState -> exn + NodeEvalState) : Prop :=
  forall s, is_finished s = true ->
            (exists e, op s = inl e) \/ (exists s', op s = inr s' /\ kept s s').


(** What holds of a frame between invocations, the primary list being [l]:
    the cursor is singular until the first pass, and what has been
    delivered is what the cursor has passed, or one element more when that
    element finished the node. *)
Definition between_calls {S : Type} (l : list Value) (f : EachFrame S)
  : Prop :=
  let es := each_state f in
  (initialized es = false -> last_subvalue es = None) /\
  (initialized es = true -> last_subvalue es = None ->
   is_finished (my_state f) = true) /\
  ((delivered (trace f) = take (consumed es) l /\ consumed es <= length l) \/
   (is_finished (my_state f) = true /\ consumed es < length l /\
    delivered (trace f) = take (Datatypes.S (consumed es)) l)).

(** The references a hook is handed, taken out of a frame. *)
Definition hook_view {S : Type} (f : EachFrame S) : HookFrame S :=
  mkHookFrame (my_state f) (subsubstate (each_state f)) (calls f).

(** A closed primary list does not change any more: a finished primary
    argument holds the list the stream ends with. *)
Definition closed_is_final (L : list Value) (ps : list NodeEvalState) : Prop :=
  Forall (fun p => is_finished p = true -> as_list (value p) = L) ps.

(** Hooks that do not finish the node early over the list [L]: neither
    [ready] on a list primary nor [eval_each] on an element of [L] makes an
    unfinished node state finished. *)
Definition patient {S : Type} (Hooks : EachHooks S) (args : value_vec_t)
    (nm : string) (L : list Value) : Prop :=
  (forall l hf,
     is_finished (h_my_state hf) = false ->
     is_finished (h_my_state (exec (ready args (VList nm l)) hf)) = false) /\
  (forall l sv hf,
     sv ∈ L -> is_finished (h_my_state hf) = false ->
     is_finished (h_my_state (exec (eval_each args (VList nm l) sv) hf))
       = false).

(** [eval_selector] run over [l] from substate [sub] with the substate
    passed along: the last substate when every element is rejected. *)
Fixpoint rejected_by {S : Type} (sel : S -> Value -> bool * S) (sub : S)
    (l : list Value) : option S :=
  match l with
  | [] => Some sub
  | v :: l' =>
      let '(pass, sub') := sel sub v in
      if pass then None else rejected_by sel sub' l'
  end.

(** [eval_filter] run over [l] likewise: the passing elements and the last
    substate when no element asks for an early finish. *)
Fixpoint filtered_by {S : Type} (flt : S -> Value -> (bool * bool) * S)
    (sub : S) (l : list Value) : option (list Value * S) :=
  match l with
  | [] => Some ([], sub)
  | v :: l' =>
      let '((pass, early_finish), sub') := flt sub v in
      if early_finish then None
      else match filtered_by flt sub' l' with
           | Some (passed, sub'') =>
               Some (if pass then v :: passed else passed, sub'')
           | None => None
           end
  end.

(** A Selector while it waits: unfinished, called on the first [k] elements
    of [pre], with the substate these calls left. *)
Definition sel_waiting {S : Type} (sel : S -> Value -> bool * S)
    (pre : list Value) (sub0 : S) (k : nat) (hf : HookFrame S) : Prop :=
  is_finished (h_my_state hf) = false /\
  h_calls hf = take k pre /\
  rejected_by sel sub0 (take k pre) = Some (h_substate hf).

(** A Selector that has selected [x] after [pre]. *)
Definition sel_done {S : Type} (pre : list Value) (x : Value)
    (hf : HookFrame S) : Prop :=
  is_finished (h_my_state hf) = true /\
  value (h_my_state hf) = x /\
  h_calls hf = pre ++ [x].

(** The state of an unfinished node whose local list, named [nm], holds
    [out]. *)
Definition collecting (nm : string) (out : list Value) : NodeEvalState :=
  mkNodeEvalState (VList nm out) false (Some (nm, out)).

(** A Filter while it waits: called on the first [k] elements of [pre],
    none of which asked for an early finish, the passing ones in the local
    list, if [ready] has set it up. *)
Definition flt_waiting {S : Type} (flt : S -> Value -> (bool * bool) * S)
    (nm : string) (pre : list Value) (sub0 : S)
    (readied : bool) (k : nat) (hf : HookFrame S) : Prop :=
  exists out,
    filtered_by flt sub0 (take k pre) = Some (out, h_substate hf)
    /\ h_calls hf = take k pre
    /\ (h_my_state hf = collecting nm out \/
        (readied = false /\ k = 0 /\ h_my_state hf = fresh_state)).

(** A Filter that was asked to finish at [x] after [pre], of which [passed]
    passed. *)
Definition flt_done {S : Type} (nm : string) (pre : list Value) (x : Value)
    (passed : list Value) (pass : bool) (hf : HookFrame S) : Prop :=
  let out := passed ++ (if pass then [x] else []) in
  h_my_state hf = mkNodeEvalState (VList nm out) true (Some (nm, out)) /\
  h_calls hf = pre ++ [x].

(** An unfinished frame whose cursor has passed [k] elements and of which
    [W k] holds. *)
Definition waiting {S : Type} (W : nat -> HookFrame S -> Prop) (k : nat)
    (f : EachFrame S) : Prop :=
  W k (hook_view f) /\
  consumed (each_state f) = k /\
  (initialized (each_state f) = true ->
   is_Some (last_subvalue (each_state f))).

(** The positions and values of the literal nodes among [cs], positions
    counted from [i]. *)
Fixpoint literal_arguments (cs : list Node) (i : nat) : list (nat * Value) :=
  match cs with
  | [] => []
  | c :: cs' =>
      (if is_literal c then [(i, literal_value c)] else [])
      ++ literal_arguments cs' (Datatypes.S i)
  end.

(** Whether the argument [(node, n)] is finished and fails
    [validate_argument]. *)
Definition argument_fails (base : CallImpl.Base) (index : Node -> nat)
    (g : GraphEvalState) (a : CallImpl.arg_with_index_t) : bool :=
  ges_is_finished g (index a.1) &&
  bool_decide
    (0 < num_errors
           (report a.1
              (CallImpl.validate_argument base a.2 (ges_value g (index a.1)))
              [])).

(** Whether the argument is unfinished. *)
Definition argument_unfinished (index : Node -> nat) (g : GraphEvalState)
    (a : CallImpl.arg_with_index_t) : bool :=
  negb (ges_is_finished g (index a.1)).

(** The index store after the nodes [cs] have been given the indices from
    [i] on, one after the other. *)
Definition assign_indices (cs : list Node) (i : nat) (st : IndexStore)
  : IndexStore :=
  foldl (fun st ic => set_index ic.2 ic.1 st) st
        (imap (fun j c => (i + j, c)) cs).

(** What [Call::transform] does to a node [me] all of whose children are
    literal, in a world [w] in which [prepare] leaves the reporter [r']:
    the node gets index 0 and the children 1..K; a graph evaluation state
    of size K+1 is made, in which the children [ds], each child once
    whatever the number of its occurrences, are initialized with an empty
    context; a pool is allocated, [prepare] runs on the static arguments,
    and the node is initialized and evaluated once with a context of that
    pool.  If the evaluation throws so does [transform]; if the state at
    index 0 is finished the node is replaced by a new literal that owns
    the pool and holds the value, and the result is true; otherwise the
    result is that of [Base::transform]. *)
Definition folds_literal_call {MergeGraph : Type}
    (base : CallImpl.Base)
    (mg_replace : Node -> Node -> MergeGraph -> MergeGraph)
    (ges_initialize :
       IndexStore -> Node -> CallImpl.EvalContext -> GraphEvalState
       -> GraphEvalState)
    (ges_eval :
       IndexStore -> Node -> CallImpl.EvalContext -> GraphEvalState
       -> exn + GraphEvalState)
    (base_transform :
       Node -> Eff.M (CallImpl.World (MergeGraph:=MergeGraph)) bool)
    (me : Node) (w : CallImpl.World (MergeGraph:=MergeGraph)) (r' : Reporter)
    (outcome : CallImpl.World (MergeGraph:=MergeGraph) * (exn + bool))
  : Prop :=
  let K := length (children me) in
  let pool := CallImpl.next_address w in
  let static_args :=
    map literal_value (take (CallImpl.num_static_args base) (children me)) in
  exists ds : list Node,
    ds `sublist_of` children me /\
    NoDup (map node_id ds) /\
    (forall c, c ∈ children me -> node_id c ∈ map node_id ds) /\
    let idx :=
      assign_indices (children me) 1 (set_index me 0 (CallImpl.indices w)) in
    let ctx := CallImpl.TxContext pool in
    let ges1 :=
      foldl (fun g c => ges_initialize idx c CallImpl.EmptyContext g)
            (ges_new (Datatypes.S K)) ds in
    let events :=
      CallImpl.TSetIndex me 0 ::
      imap (fun i c => CallImpl.TSetIndex c (Datatypes.S i)) (children me) ++
      [CallImpl.TGesNew (Datatypes.S K)] ++
      map (fun c => CallImpl.TInitialize c CallImpl.EmptyContext) ds ++
      [CallImpl.TPrepare pool static_args; CallImpl.TInitialize me ctx;
       CallImpl.TEval me ctx] in
    outcome =
      match ges_eval idx me ctx (ges_initialize idx me ctx ges1) with
      | inl e =>
          (CallImpl.mkWorld idx (CallImpl.merge_graph w) r'
             (Datatypes.S pool) (CallImpl.tlog w ++ events), inl e)
      | inr ges2 =>
          let my_state := ges_at ges2 0 in
          if is_finished my_state then
            let replacement :=
              Literal (Datatypes.S pool) (Some pool) (value my_state) in
            (CallImpl.mkWorld idx
               (mg_replace me replacement (CallImpl.merge_graph w)) r'
               (Datatypes.S (Datatypes.S pool))
               (CallImpl.tlog w ++ events ++
                [CallImpl.TReplace me replacement]),
             inr true)
          else
            base_transform me
              (CallImpl.mkWorld idx (CallImpl.merge_graph w) r'
                 (Datatypes.S pool)
                 (CallImpl.tlog w ++ events ++ [CallImpl.TBaseTransform me]))
      end.

End Observe.

(* ------------------------------------------------------------------ *)
(** ** Sample functions *)

Module Samples.
Import Functional CallImpl.

Definition num (z : Z) : Value := VNumber "" z.

(** A selector: "value > 4". *)
Definition greater_than_4 (_ : value_vec_t) (sub : unit) (v : Value)
  : bool * unit :=
  (match v with VNumber _ n => (4 <? n)%Z | _ => false end, sub).

(** A filter: "value is even", never finishing early. *)
Definition is_even (_ : value_vec_t) (sub : unit) (v : Value)
  : (bool * bool) * unit :=
  ((match v with VNumber _ n => Z.even n | _ => false end, false), sub).

(** A filter: "value is even" that asks to finish at the first value
    above 4. *)
Definition even_until_above_4 (_ : value_vec_t) (sub : unit) (v : Value)
  : (bool * bool) * unit :=
  (match v with
   | VNumber _ n => (Z.even n, (4 <? n)%Z)
   | _ => (false, false)
   end, sub).

(** A map: doubling. *)
Definition double (_ : value_vec_t) (sub : unit) (v : Value) : Value * unit :=
  (match v with VNumber nm n => VNumber nm (2 * n) | _ => v end, sub).

(** The state of a primary argument holding the list [zs]. *)
Definition primary (zs : list Z) (finished : bool) : NodeEvalState :=
  mkNodeEvalState (VList "p" (map num zs)) finished None.

(** A simple function: the sum of the numbers among its arguments. *)
Definition sum_numbers (args : value_vec_t) : Value :=
  VNumber ""
    (foldr (fun v acc => match v with VNumber _ n => (n + acc)%Z | _ => acc end)
           0%Z args).

(** A two-argument function that validates nothing. *)
Definition binary : Base := mkBase 0 2 (fun _ _ => []).

(** A one-argument function that rejects negative numbers. *)
Definition nonnegative : Base :=
  mkBase 0 1
    (fun _ v =>
       match v with
       | VNumber _ n => if (n <? 0)%Z then [(true, "negative")] else []
       | _ => []
       end).

(** A merge graph that records its replacements. *)
Definition recording_replace (old new : Node) (g : list (Node * Node))
  : list (Node * Node) := g ++ [(old, new)].

(** Initialization finishes a literal with its value; evaluation of a call
    is that of the simple function [sum_numbers]. *)
Definition literal_initialize (idx : IndexStore) (n : Node)
    (_ : EvalContext) (g : GraphEvalState) : GraphEvalState :=
  match n with
  | Literal _ _ v => ges_set g (index idx n) (mkNodeEvalState v true None)
  | Call _ _ _ => g
  end.

Definition sum_eval (idx : IndexStore) (n : Node) (_ : EvalContext)
    (g : GraphEvalState) : exn + GraphEvalState :=
  match Simple_eval 0 2 sum_numbers (index idx) n (g, []) with
  | (_, inl e) => inl e
  | ((g', _), inr _) => inr g'
  end.

Definition no_prepare (_ : nat) (_ : value_vec_t) (r : Reporter)
  : exn + Reporter := inr r.

Definition no_transform (_ : Node)
  : Eff.M (World (MergeGraph:=list (Node * Node))) bool :=
  Eff.ret false.

(** The call [add 5 3]. *)
Definition add_5_3 : Node :=
  Call 10 "add" [Literal 11 None (num 5); Literal 12 None (num 3)].

Definition empty_world : World (MergeGraph:=list (Node * Node)) :=
  mkWorld ∅ [] [] 100 [].

(** Textual forms. *)
Definition sample_to_s (n : Node) : string :=
  match n with
  | Literal _ _ _ => "literal"
  | Call _ nm _ => "(" +:+ nm +:+ ")"
  end.

Definition sample_write_report (r : Reporter) : string :=
  foldr (fun d acc => d_message d +:+ acc) "" r.

End Samples.

(* ------------------------------------------------------------------ *)
(** ** The rest of Impl::Call and Base *)

Module CallRest.
Import Eff Functional CallImpl.
Local Open Scope eff_scope.

(** *** The defaults of Base *)

(** [Base::validate_argument]: nop. *)
Definition Base_validate_argument (n : nat) (v : Value) : Remarks := [].

(** [Base::eval_initialize]: nop, the substate stays as it is. *)
Definition Base_eval_initialize {X : Type} (substate : X) (me : Node)
    (graph_eval_state : GraphEvalState) : X := substate.

(** [Base::transform]: no rewrite. *)
Definition Base_transform {MergeGraph : Type} (me : Node)
  : M (World (MergeGraph:=MergeGraph)) bool := ret false.

(** [Base::prepare]: nop. *)
Definition Base_prepare (mm : nat) (static_args : value_vec_t)
    (r : Reporter) : exn + Reporter := inr r.

(** [Base::Base]: the arity, with the validation that is not overridden. *)
Definition Base_with_defaults (num_static_args num_dynamic_args : nat)
  : Base :=
  mkBase num_static_args num_dynamic_args Base_validate_argument.

(** *** Constant *)

(** [Constant::eval_simple]. *)
Definition Constant_eval_simple (m_value : Value) (args : value_vec_t)
  : Value := m_value.

(** [Constant] is a [Simple(0, 0)]: its [eval] is [Simple::eval]. *)
Definition Constant_eval (m_value : Value) (index : Node -> nat) (me : Node)
  : M (GraphEvalState * list value_vec_t) unit :=
  Simple_eval 0 0 (Constant_eval_simple m_value) index me.

(** *** post_transform *)

Section PostTransform.
Variable base : Base.
(** [Predicate::Call::post_transform], the parent's checks, and
    [Validate::nth_child_is_literal(reporter, i)], which tells whether the
    child is literal and says so to the reporter if not; neither is among
    the sources. *)
Variable parent_post_transform : Node -> Remarks.
Variable nth_child_is_literal : Node -> nat -> bool * Remarks.

(** The first loop of [Call::post_transform], over the static arguments:
    it stops at [min(num_static_args, n)] or at the end of the children and
    leaves the iterator and the position where it stopped. *)
Fixpoint validate_static_children (me : Node) (n : nat) (cs : list Node)
    (i : nat) (fr : PreFrame) : PreFrame * list Node * nat :=
  match cs with
  | [] => (fr, [], i)
  | child :: rest =>
      if bool_decide (i < min (num_static_args base) n) then
        let '(literal_result, said) := nth_child_is_literal me i in
        let fr := mkPreFrame (report me said (reporter fr)) (validated fr) in
        validate_static_children me n rest (Datatypes.S i)
          (if literal_result
           then call_validate_argument base me i (literal_value child) fr
           else fr)
      else (fr, cs, i)
  end.

(** [Call::post_transform]: the second loop goes on from where the first
    stopped. *)
Definition post_transform (me : Node) (fr : PreFrame) : PreFrame :=
  let fr := mkPreFrame (report me (parent_post_transform me) (reporter fr))
                       (validated fr) in
  let n := length (children me) in
  let '(fr, rest, i) := validate_static_children me n (children me) 0 fr in
  validate_literal_children base me rest i fr.
End PostTransform.

End CallRest.

(* ------------------------------------------------------------------ *)
(** ** More of what is observed *)

Module ObserveRest.
Import Eff Functional CallImpl Observe.

(** [eval_map] run over [l] from substate [sub] with the substate passed
    along: the results and the last substate. *)
Fixpoint mapped_by {S : Type} (f : S -> Value -> Value * S) (sub : S)
    (l : list Value) : list Value * S :=
  match l with
  | [] => ([], sub)
  | v :: l' =>
      let '(r, sub') := f sub v in
      let '(rs, sub'') := mapped_by f sub' l' in
      (r :: rs, sub'')
  end.

(** The state [finish()] makes of an unfinished state. *)
Definition finished_as (s : NodeEvalState) : NodeEvalState :=
  mkNodeEvalState (value s) true (local_values s).

(** A frame that was finished by [finish()] when the whole of [L] had been
    seen, [W' (length L)] holding of what the hooks saw then. *)
Definition closed_after {S : Type} (W' : nat -> HookFrame S -> Prop)
    (L : list Value) (f : EachFrame S) : Prop :=
  exists hf0,
    W' (length L) hf0 /\
    hook_view f =
      mkHookFrame (finished_as (h_my_state hf0)) (h_substate hf0)
                  (h_calls hf0).

(** A Map while it runs: called on the first [k] elements of [L], the
    results in the local list, if [ready] has set it up. *)
Definition map_waiting {S : Type} (f : S -> Value -> Value * S)
    (nm : string) (L : list Value) (sub0 : S)
    (readied : bool) (k : nat) (hf : HookFrame S) : Prop :=
  exists out,
    mapped_by f sub0 (take k L) = (out, h_substate hf)
    /\ h_calls hf = take k L
    /\ (h_my_state hf = collecting nm out \/
        (readied = false /\ k = 0 /\ h_my_state hf = fresh_state)).

(** A Selector that has rejected the first [k] elements of [L] and has not
    touched the node's state. *)
Definition sel_idle {S : Type} (sel : S -> Value -> bool * S)
    (L : list Value) (sub0 : S) (k : nat) (hf : HookFrame S) : Prop :=
  h_my_state hf = fresh_state /\
  h_calls hf = take k L /\
  rejected_by sel sub0 (take k L) = Some (h_substate hf).

(** A primary argument that has no value: unfinished, and finished. *)
Definition null_running : NodeEvalState := mkNodeEvalState VNull false None.
Definition null_finished : NodeEvalState := mkNodeEvalState VNull true None.

(** [Simple::eval] as the [Base::eval] of a call. *)
Definition Simple_as_base_eval (num_static_args num_dynamic_args : nat)
    (eval_simple : value_vec_t -> Value) (index : Node -> nat)
  : Node -> M (GraphEvalState * list value_vec_t) unit :=
  Simple_eval num_static_args num_dynamic_args eval_simple index.

End ObserveRest.

(* ------------------------------------------------------------------ *)
(** ** An Each node as a call *)

Module Dispatch.
Import Eff Functional CallImpl.




End Dispatch.

(* ------------------------------------------------------------------ *)
(** * Properties *)

(** ** What the methods make of a finished state *)

Module StateFacts.
Import Eff Functional Observe.

Lemma finish_finished (s : NodeEvalState) :
  is_finished s = true -> exists e, finish s = inl e.
Proof. intros Hf. unfold finish. rewrite Hf. eauto. Qed.

Lemma finish_value_finished (v : Value) (s : NodeEvalState) :
  is_finished s = true -> exists e, finish_value v s = inl e.
Proof. intros Hf. unfold finish_value, finish. rewrite Hf. eauto. Qed.

Lemma append_to_list_finished (v : Value) (s : NodeEvalState) :
  is_finished s = true -> exists e, append_to_list v s = inl e.
Proof. intros Hf. unfold append_to_list. rewrite Hf. eauto. Qed.

Lemma setup_local_list_settled (nm : string) (s : NodeEvalState) :
  settled s = true -> setup_local_list nm s = inr s.
Proof. unfold setup_local_list, settled. by intros ->. Qed.

Lemma kept_refl (s : NodeEvalState) : kept s s.
Proof. by left. Qed.

Lemma kept_finished (s s' : NodeEvalState) :
  kept s s' -> is_finished s' = is_finished s.
Proof. by intros [->|(_ & nm & ->)]. Qed.

Lemma kept_settled (s s' : NodeEvalState) :
  kept s s' -> settled s = true -> s' = s.
Proof. intros [->|(Hs & _)]; [done|congruence]. Qed.

Lemma kept_trans (s1 s2 s3 : NodeEvalState) :
  kept s1 s2 -> kept s2 s3 -> kept s1 s3.
Proof.
  intros [->|(Hs & nm & ->)] H23; [exact H23|].
  right. split; [exact Hs|]. exists nm. by apply kept_settled in H23.
Qed.

Lemma finish_running (s : NodeEvalState) :
  is_finished s = false ->
  finish s = inr (mkNodeEvalState (value s) true (local_values s)).
Proof. intros Hf. unfold finish. rewrite Hf. reflexivity. Qed.

Lemma finish_value_running (v : Value) (s : NodeEvalState) :
  is_finished s = false ->
  finish_value v s = inr (mkNodeEvalState v true (local_values s)).
Proof. intros Hf. unfold finish_value, finish. rewrite Hf. reflexivity. Qed.

Lemma gentle_finish : gentle finish.
Proof. intros s Hs. left. by apply finish_finished. Qed.

Lemma gentle_finish_value v : gentle (finish_value v).
Proof. intros s Hs. left. by apply finish_value_finished. Qed.

Lemma gentle_append_to_list v : gentle (append_to_list v).
Proof. intros s Hs. left. by apply append_to_list_finished. Qed.

Lemma gentle_setup_local_list nm : gentle (setup_local_list nm).
Proof.
  intros s Hs. right. unfold setup_local_list.
  destruct (negb (is_null (value s)) || bool_decide (is_Some (local_values s)))
    eqn:Hset.
  - exists s. split; [reflexivity|apply kept_refl].
  - eexists. split; [reflexivity|]. right. split; [exact Hset|]. by exists nm.
Qed.

Create HintDb gentle.
#[export] Hint Resolve gentle_finish gentle_finish_value
  gentle_append_to_list gentle_setup_local_list : gentle.

Section Hooks.
Context {S : Type}.

Lemma hook_on_my_state_keeps op :
  gentle op -> keeps_finished (S:=S) (hook_on_my_state op).
Proof.
  intros Hop hf Hf. unfold exec, hook_on_my_state.
  destruct (Hop _ Hf) as [[e He]|(s' & He & Hk)]; rewrite He; simpl; auto.
  apply kept_refl.
Qed.

Lemma ret_keeps : keeps_finished (S:=S) (ret tt).
Proof. intros hf Hf. apply kept_refl. Qed.

Lemma call_user_then_keeps {R} (fn : S -> Value -> R * S) sv
    (k : R -> M (HookFrame S) unit) :
  (forall r, keeps_finished (k r)) ->
  keeps_finished (bind (call_user fn sv) k).
Proof.
  intros Hk hf Hf. unfold exec, bind, call_user.
  destruct (fn (h_substate hf) sv) as [r sub'].
  apply (Hk r (mkHookFrame (h_my_state hf) sub' (h_calls hf ++ [sv]))), Hf.
Qed.

Lemma seq_keeps (h1 : M (HookFrame S) unit) (h2 : M (HookFrame S) unit) :
  keeps_finished h1 -> keeps_finished h2 ->
  keeps_finished (bind h1 (fun _ => h2)).
Proof.
  intros H1 H2 hf Hf. specialize (H1 hf Hf). unfold exec, bind in *.
  destruct (h1 hf) as [hf1 [e|[]]]; simpl in *; auto.
  assert (Hfin : is_finished (h_my_state hf1) = true)
    by (by rewrite (kept_finished _ _ H1)).
  specialize (H2 hf1 Hfin). unfold exec in H2. by eapply kept_trans.
Qed.

Lemma Map_ready_keeps args pv : keeps_finished (S:=S) (Map_ready args pv).
Proof.
  unfold Map_ready. destruct (is_list pv);
    auto using hook_on_my_state_keeps, ret_keeps with gentle.
Qed.

Lemma Filter_ready_keeps args pv :
  keeps_finished (S:=S) (Filter_ready args pv).
Proof. apply Map_ready_keeps. Qed.


#[export] Instance Filter_lawful eval_filter
  : LawfulHooks S (Filter eval_filter).
Proof.
  split; simpl; intros; [apply Filter_ready_keeps|].
  unfold Filter_eval_each.
  destruct (negb (is_list pv)); apply call_user_then_keeps;
    intros [pass early].
  - destruct pass; apply hook_on_my_state_keeps; auto with gentle.
  - apply seq_keeps.
    + destruct pass; auto using hook_on_my_state_keeps, ret_keeps with gentle.
    + destruct early; auto using hook_on_my_state_keeps, ret_keeps with gentle.
Qed.

#[export] Instance Selector_lawful eval_selector
  : LawfulHooks S (Selector eval_selector).
Proof.
  split; simpl; intros; [apply ret_keeps|].
  unfold Selector_eval_each. apply call_user_then_keeps; intros pass.
  destruct pass; auto using hook_on_my_state_keeps, ret_keeps with gentle.
Qed.

End Hooks.
End StateFacts.

Module Monotone.
Import Eff Functional Observe StateFacts.

Section Stable.
Context {S : Type} {Hooks : EachHooks S} {Lawful : LawfulHooks S Hooks}.

















End Stable.

End Monotone.

(** ** The cursor of Each *)

Module Cursor.
Import Eff Functional Observe ObserveRest StateFacts Monotone.

Lemma delivered_each tr pv sv :
  delivered (tr ++ [EvEach pv sv]) = delivered tr ++ [sv].
Proof. unfold delivered. by rewrite omap_app. Qed.

Lemma delivered_ready tr pv : delivered (tr ++ [EvReady pv]) = delivered tr.
Proof. unfold delivered. rewrite omap_app. simpl. apply app_nil_r. Qed.

Lemma cursor_le_refl a : cursor_le a a.
Proof. destruct a; simpl; auto. Qed.

Lemma cursor_le_trans a b c : cursor_le a b -> cursor_le b c -> cursor_le a c.
Proof. destruct a, b, c; simpl; try tauto; lia. Qed.

Section Each.
Context {S : Type} {Hooks : EachHooks S} {Lawful : LawfulHooks S Hooks}.

(** What a hook call leaves of the frame: the cursor as it was, the trace
    one event longer. *)
Lemma call_eval_each_frame args pv sv (f : EachFrame S) :
  exists my sub cs r,
    call_eval_each args pv sv f =
      (mkEachFrame my
         (mkEachState (initialized (each_state f))
                      (last_subvalue (each_state f)) sub)
         cs (trace f ++ [EvEach pv sv]), r) /\
    (is_finished (my_state f) = true -> is_finished my = true).
Proof.
  unfold call_eval_each, bind, log, modify, call_hook. simpl.
  pose proof (eval_each_keeps_finished args pv sv
    (mkHookFrame (my_state f) (subsubstate (each_state f)) (calls f))) as Hk.
  unfold exec in Hk. simpl in Hk.
  destruct (eval_each args pv sv _) as [hf r]. simpl in *.
  eexists _, _, _, _. split; [reflexivity|]. intros Hf.
  by rewrite (kept_finished _ _ (Hk Hf)).
Qed.

Lemma call_ready_frame args pv (f : EachFrame S) :
  exists my sub cs r,
    call_ready args pv f =
      (mkEachFrame my
         (mkEachState (initialized (each_state f))
                      (last_subvalue (each_state f)) sub)
         cs (trace f ++ [EvReady pv]), r) /\
    (is_finished (my_state f) = true -> is_finished my = true).
Proof.
  unfold call_ready, bind, log, modify, call_hook. simpl.
  pose proof (ready_keeps_finished args pv
    (mkHookFrame (my_state f) (subsubstate (each_state f)) (calls f))) as Hk.
  unfold exec in Hk. simpl in Hk.
  destruct (ready args pv _) as [hf r]. simpl in *.
  eexists _, _, _, _. split; [reflexivity|]. intros Hf.
  by rewrite (kept_finished _ _ (Hk Hf)).
Qed.

(** The loop, entered with [pre] delivered and the cursor behind [pre]. *)
Lemma each_loop_spec args pv rest :
  forall (pre : list Value) (f : EachFrame S),
    delivered (trace f) = pre ->
    initialized (each_state f) = true ->
    consumed (each_state f) = length pre ->
    forall f' r,
      each_loop args pv rest (length pre) f = (f', r) ->
      initialized (each_state f') = true /\
      cursor_le (last_subvalue (each_state f)) (last_subvalue (each_state f'))
      /\
      match r with
      | inl _ => delivered (trace f') `prefix_of` pre ++ rest
      | inr false =>
          delivered (trace f') = pre ++ rest /\
          consumed (each_state f') = length (pre ++ rest)
      | inr true =>
          is_finished (my_state f') = true /\
          consumed (each_state f') < length (pre ++ rest) /\
          delivered (trace f') =
            take (Datatypes.S (consumed (each_state f'))) (pre ++ rest)
      end.
Proof.
  induction rest as [|sv rest IH]; intros pre f Hd Hi Hc f' r Hrun.
  - simpl in Hrun. inversion Hrun; subst f' r. rewrite app_nil_r.
    repeat split; auto using cursor_le_refl.
  - simpl in Hrun. unfold bind at 1 in Hrun.
    destruct (call_eval_each_frame args pv sv f)
      as (my & sub & cs & r1 & Hcall & _).
    rewrite Hcall in Hrun. rewrite Hi in Hrun.
    destruct r1 as [e|[]].
    { inversion Hrun; subst f' r. simpl.
      repeat split; auto using cursor_le_refl.
      rewrite delivered_each, Hd. apply prefix_app, prefix_cons, prefix_nil. }
    unfold bind at 1, gets at 1 in Hrun. simpl in Hrun.
    destruct (is_finished my) eqn:Hfin.
    { inversion Hrun; subst f' r. simpl.
      repeat split; auto using cursor_le_refl.
      - unfold consumed in *. simpl. rewrite Hi in Hc. rewrite Hc.
        rewrite length_app. simpl. lia.
      - unfold consumed in *. simpl. rewrite Hi in Hc. rewrite Hc.
        rewrite delivered_each, Hd.
        rewrite take_app_ge by lia.
        replace (Datatypes.S (length pre) - length pre) with 1 by lia.
        reflexivity. }
    unfold bind at 1, set_last_subvalue, modify in Hrun. simpl in Hrun.
    specialize (IH (pre ++ [sv])). rewrite length_app in IH. simpl in IH.
    replace (length pre + 1) with (Datatypes.S (length pre)) in IH by lia.
    eapply IH in Hrun;
      [|cbn [trace]; by rewrite delivered_each, Hd|reflexivity|reflexivity].
    rewrite <- app_assoc in Hrun. cbn [each_state last_subvalue app] in Hrun.
    destruct Hrun as (Hi' & Hle & Hr). split; [exact Hi'|]. split; [|exact Hr].
    eapply cursor_le_trans; [|exact Hle].
    unfold consumed in Hc. rewrite Hi in Hc.
    destruct (last_subvalue (each_state f)); simpl; auto. lia.
Qed.

Lemma first_position_run (f : EachFrame S) :
  first_position f =
    if initialized (each_state f) then
      match last_subvalue (each_state f) with
      | Some i => (f, inr (Datatypes.S i))
      | None =>
          (f, inl (undefined_behaviour "increment of a singular iterator"))
      end
    else
      (mkEachFrame (my_state f)
         (mkEachState true (last_subvalue (each_state f))
                      (subsubstate (each_state f)))
         (calls f) (trace f), inr 0).
Proof.
  unfold first_position, bind, gets.
  destruct (initialized (each_state f)); simpl; [|reflexivity].
  destruct (last_subvalue (each_state f)); reflexivity.
Qed.

Lemma between_calls_initial (sub0 : S) :
  between_calls [] (initial_frame sub0).
Proof. repeat split; try discriminate. left. simpl. auto. Qed.

Lemma between_calls_prefix l (f : EachFrame S) :
  between_calls l f -> delivered (trace f) `prefix_of` l.
Proof.
  intros (_ & _ & [[-> _]|(_ & _ & ->)]); apply prefix_take.
Qed.

Lemma between_calls_grow l l' (f : EachFrame S) :
  l `prefix_of` l' -> between_calls l f -> between_calls l' f.
Proof.
  intros [k ->] (H0 & H1 & H2). split; [exact H0|]. split; [exact H1|].
  rewrite length_app.
  destruct H2 as [[Hd Hc]|(Hf & Hc & Hd)]; [left|right]; repeat split;
    try lia; auto; rewrite Hd, take_app_le by lia; reflexivity.
Qed.

Lemma eval_primary_step args nm l l' p (f f' : EachFrame S) r :
  between_calls l f -> l `prefix_of` l' -> value p = VList nm l' ->
  eval_primary args p f = (f', r) ->
  cursor_le (last_subvalue (each_state f)) (last_subvalue (each_state f')) /\
  delivered (trace f') `prefix_of` l' /\
  (r = inr tt ->
   between_calls l' f' /\
   (is_finished (my_state f') = false -> delivered (trace f') = l')).
Proof.
  intros Hb Hpre Hv Hrun.
  apply (between_calls_grow _ _ _ Hpre) in Hb. clear Hpre l.
  unfold eval_primary in Hrun. rewrite Hv in Hrun. simpl in Hrun.
  unfold bind at 1 in Hrun.
  destruct (call_ready_frame args (VList nm l') f)
    as (my & sub & cs & r1 & Hcall & Hkeep).
  rewrite Hcall in Hrun. clear Hcall.
  set (f1 := mkEachFrame my _ cs _) in *.
  assert (Hb1 : between_calls l' f1).
  { destruct Hb as (H0 & H1 & H2). subst f1. unfold between_calls. simpl.
    rewrite delivered_ready. unfold consumed in *. simpl.
    split; [exact H0|]. split; [auto|].
    destruct H2 as [?|(? & ? & ?)]; auto. }
  assert (Hcur : last_subvalue (each_state f1) = last_subvalue (each_state f))
    by reflexivity.
  rewrite <- Hcur. clearbody f1. clear Hb Hkeep Hcur f my sub cs.
  destruct r1 as [e|[]].
  { inversion Hrun; subst f' r. split; [apply cursor_le_refl|].
    split; [by eapply between_calls_prefix|]. discriminate. }
  destruct l' as [|v l'].
  - unfold bind, gets in Hrun.
    destruct (is_finished p && negb (is_finished (my_state f1))) eqn:Hc.
    + apply andb_true_iff in Hc as [_ Hc]. apply negb_true_iff in Hc.
      unfold on_my_state in Hrun. rewrite (finish_running _ Hc) in Hrun.
      inversion Hrun; subst f' r. simpl.
      split; [apply cursor_le_refl|].
      destruct Hb1 as (H0 & H1 & H2). split.
      { destruct H2 as [[-> _]|(_ & _ & ->)]; apply prefix_take. }
      intros _. split; [|discriminate].
      unfold between_calls. simpl. split; [exact H0|]. split; [auto|].
      destruct H2 as [?|(? & ? & ?)]; auto.
    + inversion Hrun; subst f' r. split; [apply cursor_le_refl|].
      split; [by eapply between_calls_prefix|]. intros _. split; [exact Hb1|].
      intros _. destruct Hb1 as (_ & _ & [[-> _]|(_ & _ & ->)]);
        by rewrite take_nil.
  - unfold bind at 1, gets at 1 in Hrun.
    destruct (is_finished (my_state f1)) eqn:Hfin.
    { inversion Hrun; subst f' r. split; [apply cursor_le_refl|].
      split; [by eapply between_calls_prefix|]. intros _. split; [exact Hb1|].
      congruence. }
    destruct Hb1 as (H0 & H1 & H2).
    destruct H2 as [[Hd Hc]|(? & _)]; [|congruence].
    unfold bind at 1 in Hrun. rewrite first_position_run in Hrun.
    destruct (initialized (each_state f1)) eqn:Hinit.
    + (* later passes *)
      destruct (last_subvalue (each_state f1)) as [i|] eqn:Hlast;
        [|specialize (H1 eq_refl eq_refl); congruence].
      unfold bind at 1 in Hrun.
      assert (Hk : consumed (each_state f1) = Datatypes.S i)
        by (unfold consumed; by rewrite Hinit, Hlast).
      rewrite Hk in Hd, Hc.
      destruct (each_loop args (VList nm (v :: l'))
                  (drop (Datatypes.S i) (v :: l')) (Datatypes.S i) f1)
        as [f2 r2] eqn:Hloop.
      assert (Hlen : length (take (Datatypes.S i) (v :: l')) = Datatypes.S i)
        by (rewrite length_take; lia).
      rewrite <- Hlen in Hloop at 2.
      eapply each_loop_spec in Hloop; [|exact Hd|exact Hinit|by rewrite Hk].
      rewrite take_drop in Hloop.
      destruct Hloop as (Hi2 & Hle & Hr2). rewrite Hlast in Hle.
      destruct r2 as [e|[]].
      * inversion Hrun; subst f' r. split; [exact Hle|].
        split; [exact Hr2|]. discriminate.
      * inversion Hrun; subst f' r. destruct Hr2 as (Hf2 & Hc2 & Hd2).
        split; [exact Hle|]. split; [rewrite Hd2; apply prefix_take|].
        intros _. split; [|congruence].
        unfold between_calls. split; [congruence|]. split; [auto|].
        right. auto.
      * destruct Hr2 as (Hd2 & Hc2).
        assert (Hb2 : between_calls (v :: l') f2).
        { unfold between_calls. split; [congruence|]. split.
          - intros _ Hn. unfold consumed in Hc2. rewrite Hi2, Hn in Hc2.
            discriminate.
          - left. rewrite Hc2, take_ge by lia. auto. }
        destruct (is_finished p).
        -- unfold finish_unless_finished, bind, gets in Hrun.
           destruct (is_finished (my_state f2)) eqn:Hf2; simpl in Hrun.
           { inversion Hrun; subst f' r. repeat split; auto; try apply Hb2.
             by rewrite Hd2. }
           unfold on_my_state in Hrun. rewrite (finish_running _ Hf2) in Hrun.
           inversion Hrun; subst f' r. simpl.
           split; [exact Hle|]. split; [by rewrite Hd2|]. intros _.
           split; [|discriminate].
           destruct Hb2 as (B0 & B1 & B2). unfold between_calls. simpl.
           split; [exact B0|]. split; [auto|].
           destruct B2 as [?|(? & ? & ?)]; auto.
        -- inversion Hrun; subst f' r. repeat split; auto; try apply Hb2.
           by rewrite Hd2.
    + (* first pass *)
      unfold bind at 1 in Hrun. rewrite drop_0 in Hrun.
      specialize (H0 eq_refl).
      assert (Hk : consumed (each_state f1) = 0)
        by (unfold consumed; by rewrite Hinit).
      rewrite Hk in Hd. rewrite take_0 in Hd.
      set (f1' := mkEachFrame _ _ _ _) in Hrun.
      destruct (each_loop args (VList nm (v :: l')) (v :: l') 0 f1')
        as [f2 r2] eqn:Hloop.
      change 0 with (length (@nil Value)) in Hloop.
      eapply each_loop_spec in Hloop;
        [|exact Hd|reflexivity
         |subst f1'; unfold consumed; simpl; by rewrite H0].
      simpl app in Hloop.
      destruct Hloop as (Hi2 & _ & Hr2). rewrite H0.
      split; [exact I|].
      destruct r2 as [e|[]].
      * inversion Hrun; subst f' r. split; [exact Hr2|]. discriminate.
      * inversion Hrun; subst f' r. destruct Hr2 as (Hf2 & Hc2 & Hd2).
        split; [rewrite Hd2; apply prefix_take|].
        intros _. split; [|congruence].
        unfold between_calls. split; [congruence|]. split; [auto|].
        right. auto.
      * destruct Hr2 as (Hd2 & Hc2).
        assert (Hb2 : between_calls (v :: l') f2).
        { unfold between_calls. split; [congruence|]. split.
          - intros _ Hn. unfold consumed in Hc2. rewrite Hi2, Hn in Hc2.
            discriminate.
          - left. rewrite Hc2, take_ge by lia. auto. }
        destruct (is_finished p).
        -- unfold finish_unless_finished, bind, gets in Hrun.
           destruct (is_finished (my_state f2)) eqn:Hf2; simpl in Hrun.
           { inversion Hrun; subst f' r. repeat split; auto; try apply Hb2.
             by rewrite Hd2. }
           unfold on_my_state in Hrun. rewrite (finish_running _ Hf2) in Hrun.
           inversion Hrun; subst f' r. simpl.
           split; [by rewrite Hd2|]. intros _.
           split; [|discriminate].
           destruct Hb2 as (B0 & B1 & B2). unfold between_calls. simpl.
           split; [exact B0|]. split; [auto|].
           destruct B2 as [?|(? & ? & ?)]; auto.
        -- inversion Hrun; subst f' r. repeat split; auto; try apply Hb2.
           by rewrite Hd2.
Qed.

Lemma stream_from_final nm ps :
  forall l, stream_from nm l ps -> l `prefix_of` final_list l ps.
Proof.
  induction ps as [|p ps IH]; intros l Hs; simpl; [reflexivity|].
  destruct Hs as (l' & Hv & Hpre & Hs). rewrite Hv. simpl.
  etrans; [exact Hpre|]. by apply IH.
Qed.

Lemma stream_from_app nm ps1 ps2 :
  forall l, stream_from nm l (ps1 ++ ps2) ->
            stream_from nm l ps1 /\ stream_from nm (final_list l ps1) ps2.
Proof.
  induction ps1 as [|p ps1 IH]; intros l Hs; simpl in *; [auto|].
  destruct Hs as (l' & Hv & Hpre & Hs). rewrite Hv. simpl.
  destruct (IH _ Hs) as [H1 H2]. split; [|exact H2]. eauto.
Qed.

Lemma final_list_app ps1 ps2 :
  forall l, final_list l (ps1 ++ ps2) = final_list (final_list l ps1) ps2.
Proof. induction ps1 as [|p ps1 IH]; intros l; simpl; auto. Qed.

Lemma eval_primary_seq_app args ps1 ps2 (f : EachFrame S) :
  eval_primary_seq args (ps1 ++ ps2) f =
    match eval_primary_seq args ps1 f with
    | (f1, inl e) => (f1, inl e)
    | (f1, inr _) => eval_primary_seq args ps2 f1
    end.
Proof.
  revert f. induction ps1 as [|p ps1 IH]; intros f; simpl; [reflexivity|].
  unfold bind. destruct (eval_primary args p f) as [f1 [e|[]]]; auto.
Qed.

Lemma eval_primary_seq_spec args nm ps :
  forall l (f f' : EachFrame S) r,
    between_calls l f ->
    (is_finished (my_state f) = false -> delivered (trace f) = l) ->
    stream_from nm l ps ->
    eval_primary_seq args ps f = (f', r) ->
    cursor_le (last_subvalue (each_state f)) (last_subvalue (each_state f'))
    /\ delivered (trace f') `prefix_of` final_list l ps
    /\ (r = inr tt ->
        between_calls (final_list l ps) f' /\
        (is_finished (my_state f') = false ->
         delivered (trace f') = final_list l ps)).
Proof.
  induction ps as [|p ps IH]; intros l f f' r Hb Hall Hs Hrun.
  - inversion Hrun; subst f' r. simpl. split; [apply cursor_le_refl|].
    split; [by apply between_calls_prefix|]. auto.
  - simpl in Hs. destruct Hs as (l' & Hv & Hpre & Hs).
    simpl in Hrun. unfold bind in Hrun.
    destruct (eval_primary args p f) as [f1 r1] eqn:Hstep.
    destruct (eval_primary_step _ _ _ _ _ _ _ _ Hb Hpre Hv Hstep)
      as (Hle & Hd & Hok).
    simpl. rewrite Hv. simpl.
    destruct r1 as [e|[]].
    + inversion Hrun; subst f' r. split; [exact Hle|].
      split; [|discriminate]. etrans; [exact Hd|].
      by apply (stream_from_final nm).
    + destruct (Hok eq_refl) as [Hb1 Hall1].
      destruct (IH _ _ _ _ Hb1 Hall1 Hs Hrun) as (Hle' & Hd' & Hok').
      split; [by eapply cursor_le_trans|]. auto.
Qed.

(** *** Hooks that do not finish the node *)

Lemma call_ready_patient args nm L l (f f1 : EachFrame S) r :
  patient Hooks args nm L -> is_finished (my_state f) = false ->
  call_ready args (VList nm l) f = (f1, r) ->
  is_finished (my_state f1) = false.
Proof.
  intros [Hp _] Hf Hrun.
  unfold call_ready, bind, log, modify, call_hook in Hrun. simpl in Hrun.
  specialize (Hp l (mkHookFrame (my_state f) (subsubstate (each_state f))
                                (calls f)) Hf).
  unfold exec in Hp.
  destruct (ready args (VList nm l) _) as [hf r']. simpl in Hp.
  by inversion Hrun; subst.
Qed.

Lemma call_eval_each_patient args nm L l sv (f f1 : EachFrame S) r :
  patient Hooks args nm L -> sv ∈ L -> is_finished (my_state f) = false ->
  call_eval_each args (VList nm l) sv f = (f1, r) ->
  is_finished (my_state f1) = false.
Proof.
  intros [_ Hp] Hsv Hf Hrun.
  unfold call_eval_each, bind, log, modify, call_hook in Hrun.
  simpl in Hrun.
  specialize (Hp l sv (mkHookFrame (my_state f) (subsubstate (each_state f))
                                   (calls f)) Hsv Hf).
  unfold exec in Hp.
  destruct (eval_each args (VList nm l) sv _) as [hf r']. simpl in Hp.
  by inversion Hrun; subst.
Qed.

Lemma each_loop_patient args nm L l rest :
  patient Hooks args nm L -> (forall sv, sv ∈ rest -> sv ∈ L) ->
  forall pos (f f' : EachFrame S) r,
    is_finished (my_state f) = false ->
    each_loop args (VList nm l) rest pos f = (f', r) ->
    is_finished (my_state f') = false /\ r <> inr true.
Proof.
  intros Hp. induction rest as [|sv rest IH]; intros Hin pos f f' r Hf Hrun.
  - inversion Hrun; subst. by split.
  - simpl in Hrun. unfold bind at 1 in Hrun.
    destruct (call_eval_each args (VList nm l) sv f) as [f1 r1] eqn:Hcall.
    assert (Hf1 : is_finished (my_state f1) = false).
    { eapply call_eval_each_patient; eauto. apply Hin. left. }
    destruct r1 as [e|[]]; [by inversion Hrun; subst|].
    unfold bind at 1, gets at 1 in Hrun. rewrite Hf1 in Hrun.
    unfold bind at 1, set_last_subvalue, modify in Hrun.
    eapply IH in Hrun; [exact Hrun| |exact Hf1].
    intros x Hx. apply Hin. by right.
Qed.

(** Under such hooks an invocation on a list leaves the node as the same
    invocation on the still unfinished list does, and then finishes it if
    the primary argument is finished. *)
Lemma eval_primary_patient args nm L l' p (f f' : EachFrame S) :
  patient Hooks args nm L -> (forall sv, sv ∈ l' -> sv ∈ L) ->
  is_finished (my_state f) = false -> value p = VList nm l' ->
  eval_primary args p f = (f', inr tt) ->
  exists f0,
    eval_primary args (mkNodeEvalState (value p) false (local_values p)) f
      = (f0, inr tt) /\
    is_finished (my_state f0) = false /\
    f' = if is_finished p
         then mkEachFrame (finished_as (my_state f0)) (each_state f0)
                          (calls f0) (trace f0)
         else f0.
Proof.
  intros Hp Hin Hf Hv Hrun. unfold eval_primary in *. simpl.
  rewrite Hv in *. cbn [is_null is_list negb as_list] in *.
  unfold bind at 1 in Hrun. unfold bind at 1.
  destruct (call_ready args (VList nm l') f) as [f1 r1] eqn:Hcr.
  pose proof (call_ready_patient _ _ _ _ _ _ _ Hp Hf Hcr) as Hf1.
  destruct r1 as [e|[]]; [discriminate|].
  destruct l' as [|v l'].
  - unfold bind, gets in *. rewrite Hf1 in *. simpl.
    exists f1. split; [reflexivity|]. split; [exact Hf1|].
    destruct (is_finished p); simpl in Hrun.
    + unfold on_my_state in Hrun. rewrite (finish_running _ Hf1) in Hrun.
      by inversion Hrun.
    + by inversion Hrun.
  - unfold bind at 1, gets at 1 in Hrun. unfold bind at 1, gets at 1.
    rewrite Hf1 in *.
    unfold bind at 1 in Hrun. unfold bind at 1.
    destruct (first_position f1) as [f2 r2] eqn:Hfp.
    assert (Hf2 : is_finished (my_state f2) = false).
    { rewrite first_position_run in Hfp.
      destruct (initialized (each_state f1));
        [destruct (last_subvalue (each_state f1))|];
        by inversion Hfp; subst. }
    destruct r2 as [e|start]; [discriminate|].
    unfold bind at 1 in Hrun. unfold bind at 1.
    destruct (each_loop args (VList nm (v :: l')) (drop start (v :: l'))
                start f2) as [f3 r3] eqn:Hloop.
    destruct (each_loop_patient _ _ _ _ _ Hp
                ltac:(intros x Hx; apply Hin;
                      rewrite <- (take_drop start (v :: l'));
                      apply elem_of_app; by right)
                _ _ _ _ Hf2 Hloop) as [Hf3 Hr3].
    destruct r3 as [e|[]]; [discriminate|done|].
    exists f3. split; [reflexivity|]. split; [exact Hf3|].
    destruct (is_finished p).
    + unfold finish_unless_finished, bind, gets in Hrun.
      rewrite Hf3 in Hrun. simpl in Hrun.
      unfold on_my_state in Hrun. rewrite (finish_running _ Hf3) in Hrun.
      by inversion Hrun.
    + by inversion Hrun.
Qed.

Lemma patient_step args nm L l l' p (f f' : EachFrame S) :
  patient Hooks args nm L -> (forall sv, sv ∈ l' -> sv ∈ L) ->
  between_calls l f -> is_finished (my_state f) = false ->
  l `prefix_of` l' -> value p = VList nm l' ->
  eval_primary args p f = (f', inr tt) ->
  between_calls l' f' /\ delivered (trace f') = l' /\
  is_finished (my_state f') = is_finished p.
Proof.
  intros Hp Hin Hb Hf Hpre Hv Hrun.
  destruct (eval_primary_patient _ _ _ _ _ _ _ Hp Hin Hf Hv Hrun)
    as (f0 & Hrun0 & Hf0 & ->).
  destruct (eval_primary_step args nm l l'
              (mkNodeEvalState (value p) false (local_values p)) f f0
              (inr tt) Hb Hpre Hv Hrun0)
    as (_ & _ & Hok).
  destruct (Hok eq_refl) as [Hb0 Hd0]. specialize (Hd0 Hf0).
  destruct (is_finished p); [|auto].
  split; [|auto]. destruct Hb0 as (B0 & B1 & B2).
  unfold between_calls. simpl. split; [exact B0|]. split; [auto|].
  destruct B2 as [?|(? & ? & ?)]; auto.
Qed.

(** An invocation on a list, the node being finished, delivers nothing. *)
Lemma finished_step args nm l' p (f f' : EachFrame S) r :
  is_finished (my_state f) = true -> value p = VList nm l' ->
  eval_primary args p f = (f', r) ->
  is_finished (my_state f') = true /\
  delivered (trace f') = delivered (trace f).
Proof.
  intros Hf Hv Hrun. unfold eval_primary in Hrun. rewrite Hv in Hrun.
  cbn [is_null is_list negb as_list] in Hrun. unfold bind at 1 in Hrun.
  destruct (call_ready_frame args (VList nm l') f)
    as (my & sub & cs & r1 & Hcall & Hkeep).
  rewrite Hcall in Hrun. specialize (Hkeep Hf).
  destruct r1 as [e|[]].
  { inversion Hrun; subst. simpl. by rewrite delivered_ready. }
  destruct l' as [|v l']; unfold bind, gets in Hrun; simpl in Hrun;
    rewrite Hkeep in Hrun; rewrite ?andb_false_r in Hrun;
    inversion Hrun; subst; simpl; by rewrite delivered_ready.
Qed.

Lemma finished_seq args nm ps :
  forall l (f f' : EachFrame S) r,
    is_finished (my_state f) = true -> stream_from nm l ps ->
    eval_primary_seq args ps f = (f', r) ->
    is_finished (my_state f') = true /\
    delivered (trace f') = delivered (trace f).
Proof.
  induction ps as [|p ps IH]; intros l f f' r Hf Hs Hrun.
  - by inversion Hrun; subst.
  - simpl in Hs. destruct Hs as (l' & Hv & _ & Hs).
    simpl in Hrun. unfold bind in Hrun.
    destruct (eval_primary args p f) as [f1 r1] eqn:Hstep.
    destruct (finished_step _ _ _ _ _ _ _ Hf Hv Hstep) as [Hf1 Hd1].
    destruct r1 as [e|[]]; [by inversion Hrun; subst|].
    destruct (IH _ _ _ _ Hf1 Hs Hrun) as [Hf' Hd'].
    split; [exact Hf'|congruence].
Qed.

Lemma patient_seq args nm L ps :
  patient Hooks args nm L ->
  forall l (f f' : EachFrame S),
    between_calls l f -> is_finished (my_state f) = false ->
    delivered (trace f) = l ->
    stream_from nm l ps -> closed_is_final L ps -> final_list l ps = L ->
    eval_primary_seq args ps f = (f', inr tt) ->
    delivered (trace f') = L /\
    is_finished (my_state f') = existsb is_finished ps.
Proof.
  intros Hp. induction ps as [|p ps IH];
    intros l f f' Hb Hf Hd Hs Hcl Hfin Hrun.
  - inversion Hrun; subst. simpl in *. by subst.
  - simpl in Hs. destruct Hs as (l' & Hv & Hpre & Hs).
    simpl in Hfin. rewrite Hv in Hfin. simpl in Hfin.
    apply Forall_cons in Hcl as [Hclp Hcl]. rewrite Hv in Hclp.
    simpl in Hclp.
    pose proof (stream_from_final nm ps l' Hs) as Hl'L. rewrite Hfin in Hl'L.
    simpl in Hrun. unfold bind in Hrun.
    destruct (eval_primary args p f) as [f1 r1] eqn:Hstep.
    destruct r1 as [e|[]]; [discriminate|].
    destruct (patient_step args nm L l l' p f f1 Hp
                ltac:(intros x Hx; by eapply elem_of_prefix)
                Hb Hf Hpre Hv Hstep) as (Hb1 & Hd1 & Hf1).
    simpl. destruct (is_finished p) eqn:Hfp; simpl.
    + destruct (finished_seq _ _ _ _ _ _ _ Hf1 Hs Hrun) as [Hf' Hd'].
      split; [|exact Hf']. rewrite Hd', Hd1. by apply Hclp.
    + by apply (IH l' f1 f').
Qed.

End Each.

(** Which hooks do not finish the node early: those of Map; those of
    Filter when [eval_filter] asks for no early finish on the list; those
    of Selector when [eval_selector] selects nothing of the list. *)
Lemma setup_local_list_flag nm (s : NodeEvalState) :
  exists s', setup_local_list nm s = inr s' /\
             is_finished s' = is_finished s.
Proof.
  unfold setup_local_list. destruct (negb _ || _); eexists; eauto.
Qed.

Lemma append_to_list_flag v (s : NodeEvalState) :
  is_finished s = false ->
  match append_to_list v s with
  | inl _ => True
  | inr s' => is_finished s' = false
  end.
Proof.
  intros Hf. unfold append_to_list. rewrite Hf.
  by destruct (local_values s) as [[nm l]|].
Qed.

Lemma hook_on_my_state_running {S : Type}
    (op : NodeEvalState -> exn + NodeEvalState) (hf : HookFrame S) :
  match op (h_my_state hf) with
  | inl _ => True
  | inr s' => is_finished s' = false
  end ->
  is_finished (h_my_state hf) = false ->
  is_finished (h_my_state (exec (hook_on_my_state op) hf)) = false.
Proof.
  intros Hop Hf. unfold exec, hook_on_my_state.
  by destruct (op (h_my_state hf)).
Qed.

Lemma ready_patient {S : Type} nm (hf : HookFrame S) :
  is_finished (h_my_state hf) = false ->
  is_finished
    (h_my_state (exec (hook_on_my_state (setup_local_list nm)) hf)) = false.
Proof.
  intros Hf. apply hook_on_my_state_running; [|exact Hf].
  destruct (setup_local_list_flag nm (h_my_state hf)) as (s' & -> & Hs).
  by rewrite Hs.
Qed.

Lemma Map_patient {S : Type}
    (eval_map : value_vec_t -> S -> Value -> Value * S)
    (args : value_vec_t) (nm : string) (L : list Value) :
  patient (Map eval_map) args nm L.
Proof.
  split; simpl.
  - intros l hf Hf. by apply ready_patient.
  - intros l sv hf _ Hf. unfold Map_eval_each. simpl.
    unfold exec, bind, call_user.
    destruct (eval_map args (h_substate hf) sv) as [r sub'].
    apply (hook_on_my_state_running (append_to_list r)
             (mkHookFrame (h_my_state hf) sub' (h_calls hf ++ [sv])));
      [|exact Hf].
    by apply append_to_list_flag.
Qed.

Lemma Filter_patient {S : Type}
    (eval_filter : value_vec_t -> S -> Value -> (bool * bool) * S)
    (args : value_vec_t) (nm : string) (L : list Value) :
  (forall sub sv, sv ∈ L -> snd (fst (eval_filter args sub sv)) = false) ->
  patient (Filter eval_filter) args nm L.
Proof.
  intros Hno. split; simpl.
  - intros l hf Hf. by apply ready_patient.
  - intros l sv hf Hsv Hf. unfold Filter_eval_each. simpl.
    unfold exec, bind at 1, call_user.
    specialize (Hno (h_substate hf) sv Hsv).
    destruct (eval_filter args (h_substate hf) sv) as [[pass early] sub'].
    simpl in Hno. subst early. unfold bind.
    destruct pass; [|exact Hf].
    pose proof (hook_on_my_state_running (append_to_list sv)
                  (mkHookFrame (h_my_state hf) sub' (h_calls hf ++ [sv]))
                  (append_to_list_flag sv _ Hf) Hf) as Hk.
    unfold exec in Hk.
    by destruct (hook_on_my_state (append_to_list sv) _) as [hf' [e|[]]].
Qed.

Lemma Selector_patient {S : Type}
    (eval_selector : value_vec_t -> S -> Value -> bool * S)
    (args : value_vec_t) (nm : string) (L : list Value) :
  (forall sub sv, sv ∈ L -> fst (eval_selector args sub sv) = false) ->
  patient (Selector eval_selector) args nm L.
Proof.
  intros Hno. split; simpl.
  - intros l hf Hf. exact Hf.
  - intros l sv hf Hsv Hf. unfold Selector_eval_each.
    unfold exec, bind, call_user.
    specialize (Hno (h_substate hf) sv Hsv).
    destruct (eval_selector args (h_substate hf) sv) as [pass sub'].
    simpl in Hno. by subst pass.
Qed.

(** C3.  Let an Each node be evaluated any number of times while its
    primary list grows at the end.  The subvalues passed to [eval_each] over
    all invocations are an initial segment of the list, in list order, so
    that no element is delivered twice.  If the invocations returned and
    the node is not finished, they are the whole list.  If the invocations
    returned and the hooks do not finish the node early (as those of Map
    never do), they are the whole list also when the list has been closed,
    each element delivered exactly once, and the node is finished exactly
    when the primary argument was finished in one of the invocations.  And
    the cursor after some of the invocations is never beyond the cursor
    after all of them. *)
Theorem each_delivers_in_order_once
    {S : Type} (Hooks : EachHooks S) (Lawful : LawfulHooks S Hooks)
    (secondary_args : value_vec_t) (nm : string)
    (primary_args : list NodeEvalState) (sub0 : S) :
  stream_from nm [] primary_args ->
  let after := fun ps =>
    eval_primary_seq secondary_args ps (initial_frame sub0) in
  let f := fst (after primary_args) in
  let L := final_list [] primary_args in
  delivered (trace f) `prefix_of` L /\
  (snd (after primary_args) = inr tt ->
   is_finished (my_state f) = false ->
   delivered (trace f) = L) /\
  (snd (after primary_args) = inr tt ->
   closed_is_final L primary_args ->
   patient Hooks secondary_args nm L ->
   delivered (trace f) = L /\
   is_finished (my_state f) = existsb is_finished primary_args) /\
  (forall ps1 ps2, primary_args = ps1 ++ ps2 ->
     cursor_le (last_subvalue (each_state (fst (after ps1))))
               (last_subvalue (each_state f))).
Proof.
  intros Hs after f L.
  destruct (after primary_args) as [f' r] eqn:Hrun. subst f. simpl.
  destruct (eval_primary_seq_spec secondary_args nm primary_args [] _ _ _
              (between_calls_initial sub0) (fun _ => eq_refl) Hs Hrun)
    as (_ & Hd & Hok).
  split; [exact Hd|]. split; [intros ->; by apply Hok|]. split.
  { intros -> Hcl Hp.
    by apply (patient_seq secondary_args nm L primary_args Hp []
                (initial_frame sub0) f' (between_calls_initial sub0)). }
  intros ps1 ps2 ->. subst after. simpl in *.
  rewrite eval_primary_seq_app in Hrun.
  destruct (stream_from_app _ _ _ _ Hs) as [Hs1 Hs2].
  destruct (eval_primary_seq secondary_args ps1 (initial_frame sub0))
    as [f1 r1] eqn:Hrun1. simpl.
  destruct (eval_primary_seq_spec secondary_args nm ps1 [] _ _ _
              (between_calls_initial sub0) (fun _ => eq_refl) Hs1 Hrun1)
    as (_ & _ & Hok1).
  destruct r1 as [e|[]].
  - inversion Hrun; subst. apply cursor_le_refl.
  - destruct (Hok1 eq_refl) as [Hb1 Hall1].
    by destruct (eval_primary_seq_spec secondary_args nm ps2 _ _ _ _
                   Hb1 Hall1 Hs2 Hrun) as (Hle & _).
Qed.

(** A Filter node that keeps the even numbers, over the list [1], then
    [1, 2], then [1, 2, 3], closed: every element has been delivered, once
    and in order, and the node is finished. *)
Lemma each_delivers_in_order_once_witness :
  let ps := [Samples.primary [1]%Z false; Samples.primary [1; 2]%Z false;
             Samples.primary [1; 2; 3]%Z true] in
  let after := fun qs =>
    eval_primary_seq (Hooks:=Filter Samples.is_even) [] qs (initial_frame tt) in
  let f := fst (after ps) in
  delivered (trace f) = [Samples.num 1; Samples.num 2; Samples.num 3] /\
  is_finished (my_state f) = true /\
  (forall ps1 ps2, ps = ps1 ++ ps2 ->
     cursor_le (last_subvalue (each_state (fst (after ps1))))
               (last_subvalue (each_state f))).
Proof.
  intros ps after f.
  destruct (each_delivers_in_order_once (Filter Samples.is_even)
              (Filter_lawful Samples.is_even) [] "p" ps tt)
    as (_ & _ & Hall & Hcur).
  { simpl. eexists. split; [reflexivity|]. split; [apply prefix_nil|].
    eexists. split; [reflexivity|]. split; [by exists [Samples.num 2]|].
    eexists. split; [reflexivity|].
    split; [by exists [Samples.num 3]|exact I]. }
  destruct Hall as [Hd Hf].
  - vm_compute. reflexivity.
  - repeat constructor; simpl; congruence.
  - apply Filter_patient. intros sub sv _. reflexivity.
  - split; [exact Hd|]. split; [exact Hf|exact Hcur].
Defined.

End Cursor.

(** ** Streams that end at a decisive element *)

Module Streaming.
Import Eff Functional Observe StateFacts Monotone Cursor.

Lemma each_loop_app {S : Type} {Hooks : EachHooks S} args pv l1 :
  forall l2 pos (f : EachFrame S),
    each_loop args pv (l1 ++ l2) pos f =
      match each_loop args pv l1 pos f with
      | (f1, inr false) => each_loop args pv l2 (pos + length l1) f1
      | other => other
      end.
Proof.
  induction l1 as [|v l1 IH]; intros l2 pos f; simpl.
  - by rewrite Nat.add_0_r.
  - unfold bind, gets, set_last_subvalue, modify.
    destruct (call_eval_each args pv v f) as [f1 [e|[]]]; [reflexivity|].
    destruct (is_finished (my_state f1)); [reflexivity|].
    rewrite IH. by replace (pos + Datatypes.S (length l1))
                    with (Datatypes.S pos + length l1) by lia.
Qed.

(** A combinator that keeps waiting while it sees the elements of [pre] and
    is done when it sees [x]: [W k] holds of what the hooks see after [k]
    elements, [W' k] once [ready] has run, [D] when done. *)
Section Decisive.
Context {S : Type} {Hooks : EachHooks S}.
Variable args : value_vec_t.
Variable nm : string.
Variables (pre : list Value) (x : Value) (post : list Value).
Variables W W' : nat -> HookFrame S -> Prop.
Variable D : HookFrame S -> Prop.
Hypothesis W_running :
  forall k hf, W k hf -> is_finished (h_my_state hf) = false.
Hypothesis W'_W : forall k hf, W' k hf -> W k hf.
Hypothesis D_finished :
  forall hf, D hf -> is_finished (h_my_state hf) = true.
Hypothesis ready_W : forall k l hf,
  W k hf -> exists hf', ready args (VList nm l) hf = (hf', inr tt) /\ W' k hf'.
Hypothesis ready_D : forall l hf,
  D hf -> exists hf', ready args (VList nm l) hf = (hf', inr tt) /\ D hf'.
Hypothesis each_W : forall k l v hf,
  pre !! k = Some v -> W' k hf ->
  exists hf', eval_each args (VList nm l) v hf = (hf', inr tt) /\
              W' (Datatypes.S k) hf'.
Hypothesis each_D : forall l hf,
  W' (length pre) hf ->
  exists hf', eval_each args (VList nm l) x hf = (hf', inr tt) /\ D hf'.

Lemma call_hook_view (h : M (HookFrame S) unit) (f : EachFrame S) hf r :
  h (hook_view f) = (hf, r) ->
  exists f', call_hook h f = (f', r) /\ hook_view f' = hf /\
             initialized (each_state f') = initialized (each_state f) /\
             last_subvalue (each_state f') = last_subvalue (each_state f).
Proof.
  intros Hh. unfold call_hook. unfold hook_view in Hh. rewrite Hh.
  eexists. split; [reflexivity|]. destruct hf; auto.
Qed.

Lemma call_eval_each_view pv sv (f : EachFrame S) hf r :
  eval_each args pv sv (hook_view f) = (hf, r) ->
  exists f', call_eval_each args pv sv f = (f', r) /\ hook_view f' = hf /\
             initialized (each_state f') = initialized (each_state f) /\
             last_subvalue (each_state f') = last_subvalue (each_state f).
Proof.
  intros Hh. unfold call_eval_each, bind, log, modify. simpl.
  apply (call_hook_view _
    (mkEachFrame (my_state f) (each_state f) (calls f)
                 (trace f ++ [EvEach pv sv]))). exact Hh.
Qed.

Lemma call_ready_view pv (f : EachFrame S) hf r :
  ready args pv (hook_view f) = (hf, r) ->
  exists f', call_ready args pv f = (f', r) /\ hook_view f' = hf /\
             initialized (each_state f') = initialized (each_state f) /\
             last_subvalue (each_state f') = last_subvalue (each_state f).
Proof.
  intros Hh. unfold call_ready, bind, log, modify. simpl.
  apply (call_hook_view _
    (mkEachFrame (my_state f) (each_state f) (calls f)
                 (trace f ++ [EvReady pv]))). exact Hh.
Qed.

(** The loop over a stretch of [pre]. *)
Lemma each_loop_waiting l seg :
  forall k (f : EachFrame S),
    W' k (hook_view f) -> seg `prefix_of` drop k pre ->
    initialized (each_state f) = true ->
    exists f',
      each_loop args (VList nm l) seg k f = (f', inr false) /\
      W' (k + length seg) (hook_view f') /\
      initialized (each_state f') = true /\
      last_subvalue (each_state f') =
        match seg with
        | [] => last_subvalue (each_state f)
        | _ :: _ => Some (k + length seg - 1)
        end.
Proof.
  induction seg as [|v seg IH]; intros k f Hw Hseg Hi.
  - exists f. simpl. rewrite Nat.add_0_r. auto.
  - assert (Hk : pre !! k = Some v).
    { destruct Hseg as [t Ht]. rewrite <- (Nat.add_0_r k).
      rewrite <- lookup_drop, Ht. reflexivity. }
    destruct (each_W k l v _ Hk Hw) as (hf & Hh & Hw1).
    destruct (call_eval_each_view _ _ _ _ _ Hh) as (f1 & Hc & Hv & Hi1 & Hl1).
    simpl. unfold bind at 1. rewrite Hc. unfold bind at 1, gets. simpl.
    assert (Hrun : is_finished (my_state f1) = false).
    { apply W'_W, W_running in Hw1. by rewrite <- Hv in Hw1. }
    rewrite Hrun. unfold bind at 1, set_last_subvalue, modify. simpl.
    set (f2 := mkEachFrame _ _ _ _).
    destruct (IH (Datatypes.S k) f2) as (f' & Hloop & Hw' & Hi' & Hl').
    + subst f2. unfold hook_view in *. simpl. by rewrite Hv.
    + destruct Hseg as [t Ht]. exists t.
      replace (Datatypes.S k) with (k + 1) by lia.
      rewrite <- drop_drop, Ht. reflexivity.
    + subst f2. simpl. congruence.
    + exists f'. split; [exact Hloop|].
      replace (k + Datatypes.S (length seg))
        with (Datatypes.S k + length seg) by lia.
      split; [exact Hw'|]. split; [exact Hi'|].
      rewrite Hl'. destruct seg; simpl; f_equal; lia.
Qed.

(** The loop at the decisive element. *)
Lemma each_loop_done l tail (f : EachFrame S) :
  W' (length pre) (hook_view f) ->
  exists f',
    each_loop args (VList nm l) (x :: tail) (length pre) f = (f', inr true) /\
    D (hook_view f').
Proof.
  intros Hw. destruct (each_D l _ Hw) as (hf & Hh & Hd).
  destruct (call_eval_each_view _ _ _ _ _ Hh) as (f1 & Hc & Hv & _).
  simpl. unfold bind at 1. rewrite Hc. unfold bind at 1, gets. simpl.
  apply D_finished in Hd as Hfin. rewrite <- Hv in Hfin, Hd.
  simpl in Hfin. rewrite Hfin. eauto.
Qed.

Lemma prefix_is_take (l1 l2 : list Value) :
  l1 `prefix_of` l2 -> l1 = take (length l1) l2.
Proof. intros [t ->]. by rewrite take_app_length. Qed.

(** One invocation on a list primary: the node keeps waiting while the
    list is within [pre] and is done once the list includes [x]. *)
Lemma decisive_step l l' p (f : EachFrame S) :
  waiting W (length l) f -> length l <= length pre ->
  l `prefix_of` l' -> l' `prefix_of` pre ++ x :: post ->
  value p = VList nm l' ->
  (is_finished p = true -> l' = pre ++ x :: post) ->
  exists f',
    eval_primary args p f = (f', inr tt) /\
    if bool_decide (length l' <= length pre) then waiting W (length l') f'
    else D (hook_view f').
Proof.
  intros (Hw & Hc & Hsome) Hlen Hll' Hl'L Hv Hclosed.
  pose proof (prefix_length _ _ Hll') as Hlen'.
  unfold eval_primary. rewrite Hv. cbn [is_null is_list negb as_list].
  destruct (ready_W _ l' _ Hw) as (hf & Hr & Hw1).
  destruct (call_ready_view _ _ _ _ Hr) as (f1 & Hcr & Hv1 & Hi1 & Hl1).
  unfold bind at 1. rewrite Hcr. rewrite <- Hv1 in Hw1. clear Hr Hv1 hf Hcr.
  assert (Hrun1 : is_finished (my_state f1) = false)
    by (apply W'_W, W_running in Hw1; exact Hw1).
  assert (Hc1 : consumed (each_state f1) = length l)
    by (unfold consumed in *; by rewrite Hi1, Hl1).
  rewrite <- Hi1, <- Hl1 in Hsome. clear Hw Hc Hi1 Hl1 f.
  assert (Hopen : length l' <= length pre -> is_finished p = false).
  { intros Hle. destruct (is_finished p); [|reflexivity].
    specialize (Hclosed eq_refl). rewrite Hclosed, length_app in Hle.
    simpl in Hle. lia. }
  destruct l' as [|v l'].
  { (* nothing there yet *)
    unfold bind, gets. rewrite Hrun1, (Hopen ltac:(simpl; lia)). simpl.
    exists f1. split; [reflexivity|].
    simpl in Hlen'. assert (length l = 0) as Hl0 by lia.
    rewrite Hl0 in *. split; [by apply W'_W|]. auto. }
  unfold bind at 1, gets at 1. rewrite Hrun1.
  unfold bind at 1. rewrite first_position_run.
  (* the frame and the position the loop starts with *)
  assert (exists f2,
    (if initialized (each_state f1) then
       match last_subvalue (each_state f1) with
       | Some i => (f1, inr (Datatypes.S i))
       | None =>
           (f1, inl (undefined_behaviour "increment of a singular iterator"))
       end
     else
       (mkEachFrame (my_state f1)
          (mkEachState true (last_subvalue (each_state f1))
                       (subsubstate (each_state f1)))
          (calls f1) (trace f1), inr 0)) = (f2, inr (length l)) /\
    W' (length l) (hook_view f2) /\ initialized (each_state f2) = true /\
    (length l <> 0 -> consumed (each_state f2) = length l))
    as (f2 & -> & Hw2 & Hi2 & Hc2).
  { unfold consumed in Hc1.
    destruct (initialized (each_state f1)) eqn:Hi.
    - destruct (Hsome eq_refl) as [i Hi']. rewrite Hi' in *.
      exists f1. rewrite <- Hc1 in *. unfold consumed. rewrite Hi, Hi'. auto.
    - eexists. rewrite <- Hc1 in *. split; [reflexivity|].
      split; [exact Hw1|]. split; [reflexivity|]. intros []. reflexivity. }
  clear Hc1 Hsome Hrun1 Hw1 f1.
  set (k := length l) in *.
  set (L' := v :: l') in *.
  assert (HL' : length L' = Datatypes.S (length l')) by reflexivity.
  destruct (decide (length L' <= length pre)) as [Hin|Hout].
  - (* the list is still within [pre] *)
    rewrite bool_decide_true by exact Hin.
    assert (Hseg : drop k L' `prefix_of` drop k pre).
    { destruct Hl'L as [t Ht].
      assert (pre = L' ++ take (length pre - length L') t) as ->.
      { apply (f_equal (take (length pre))) in Ht.
        rewrite take_app_length in Ht. rewrite Ht at 1.
        rewrite take_app. f_equal. apply take_ge. lia. }
      rewrite drop_app. apply prefix_app_r. reflexivity. }
    destruct (each_loop_waiting L' _ k f2 Hw2 Hseg Hi2)
      as (f3 & Hloop & Hw3 & Hi3 & Hl3).
    unfold bind at 1. rewrite Hloop. rewrite (Hopen Hin).
    exists f3. split; [reflexivity|].
    rewrite length_drop in Hw3, Hl3.
    replace (k + (length L' - k)) with (length L') in * by lia.
    split; [by apply W'_W|]. split; [|intros _].
    + unfold consumed. rewrite Hi3, Hl3.
      destruct (drop k L') eqn:Hd.
      * apply (f_equal length) in Hd. rewrite length_drop in Hd.
        simpl in Hd. assert (k <> 0) by lia.
        specialize (Hc2 ltac:(assumption)). unfold consumed in Hc2.
        rewrite Hi2 in Hc2. rewrite Hc2. lia.
      * apply (f_equal length) in Hd. rewrite length_drop in Hd.
        simpl in Hd. lia.
    + rewrite Hl3. destruct (drop k L') eqn:Hd; [|eauto].
      apply (f_equal length) in Hd. rewrite length_drop in Hd.
      simpl in Hd. assert (k <> 0) by lia.
      specialize (Hc2 ltac:(assumption)). unfold consumed in Hc2.
      rewrite Hi2 in Hc2.
      destruct (last_subvalue (each_state f2)); [eauto|lia].
  - (* the list includes [x] *)
    rewrite bool_decide_false by exact Hout.
    assert (exists tail, drop k L' = drop k pre ++ x :: tail) as [tail Hd].
    { destruct Hl'L as [t Ht].
      assert (L' = pre ++ x :: take (length L' - length pre - 1) post) as ->.
      { rewrite (prefix_is_take L' (pre ++ x :: post)) at 1
          by (exists t; exact Ht).
        rewrite take_app. rewrite take_ge by lia. f_equal.
        destruct (length L' - length pre) as [|m] eqn:Hm; [lia|].
        simpl. f_equal. f_equal. lia. }
      eexists. rewrite drop_app_le by lia. reflexivity. }
    unfold bind at 1. rewrite Hd, each_loop_app.
    destruct (each_loop_waiting L' (drop k pre) k f2 Hw2 (reflexivity _) Hi2)
      as (f3 & Hloop & Hw3 & _).
    rewrite Hloop.
    rewrite length_drop in *.
    replace (k + (length pre - k)) with (length pre) in * by lia.
    destruct (each_loop_done L' tail f3 Hw3) as (f4 & Hloop4 & Hd4).
    rewrite Hloop4. exists f4. auto.
Qed.

(** Once done, an invocation on a list primary only runs [ready]. *)
Lemma done_step l' p (f : EachFrame S) :
  D (hook_view f) -> value p = VList nm l' ->
  exists f', eval_primary args p f = (f', inr tt) /\ D (hook_view f').
Proof.
  intros Hd Hv. unfold eval_primary. rewrite Hv.
  cbn [is_null is_list negb as_list].
  destruct (ready_D l' _ Hd) as (hf & Hr & Hd1).
  destruct (call_ready_view _ _ _ _ Hr) as (f1 & Hcr & Hv1 & _).
  unfold bind at 1. rewrite Hcr. rewrite <- Hv1 in Hd1.
  apply D_finished in Hd1 as Hfin. simpl in Hfin.
  exists f1. split; [|exact Hd1].
  destruct l'; unfold bind, gets; rewrite Hfin; [|reflexivity].
  by rewrite andb_false_r.
Qed.

Lemma decisive_seq ps :
  forall l (f : EachFrame S),
    stream_from nm l ps ->
    closed_is_final (pre ++ x :: post) ps ->
    final_list l ps = pre ++ x :: post ->
    (waiting W (length l) f /\ length l <= length pre) \/ D (hook_view f) ->
    exists f',
      eval_primary_seq args ps f = (f', inr tt) /\ D (hook_view f').
Proof.
  induction ps as [|p ps IH]; intros l f Hs Hcl Hfin Hst.
  - simpl in Hfin. destruct Hst as [[_ Hlen]|Hd]; [|by exists f].
    rewrite Hfin, length_app in Hlen. simpl in Hlen. lia.
  - simpl in Hs. destruct Hs as (l' & Hv & Hll' & Hs).
    simpl in Hfin. rewrite Hv in Hfin. simpl in Hfin.
    apply Forall_cons in Hcl as [Hp Hcl]. rewrite Hv in Hp. simpl in Hp.
    pose proof (stream_from_final nm ps l' Hs) as Hl'L. rewrite Hfin in Hl'L.
    assert (exists f1, eval_primary args p f = (f1, inr tt) /\
              ((waiting W (length l') f1 /\ length l' <= length pre) \/
               D (hook_view f1))) as (f1 & Hstep & Hst1).
    { destruct Hst as [[Hw Hlen]|Hd].
      - destruct (decisive_step l l' p f Hw Hlen Hll' Hl'L Hv Hp)
          as (f1 & Hstep & Hres).
        exists f1. split; [exact Hstep|].
        destruct (bool_decide (length l' <= length pre)) eqn:Hb; [|by right].
        apply bool_decide_eq_true in Hb. by left.
      - destruct (done_step l' p f Hd Hv) as (f1 & Hstep & Hd1). eauto. }
    destruct (IH l' f1 Hs Hcl Hfin Hst1) as (f' & Hrun & Hd').
    exists f'. split; [|exact Hd']. simpl. unfold bind. by rewrite Hstep.
Qed.

End Decisive.
End Streaming.

(** ** Selector *)

Module SelectorFacts.
Import Eff Functional Observe StateFacts Cursor Streaming.

Section Selector.
Context {S : Type}.
Variable eval_selector : value_vec_t -> S -> Value -> bool * S.
Variable args : value_vec_t.
Variable nm : string.
Variables (pre : list Value) (x : Value) (post : list Value).
Variables sub0 sub1 : S.
Hypothesis pre_rejected : rejected_by (eval_selector args) sub0 pre = Some sub1.
Hypothesis x_selected : fst (eval_selector args sub1 x) = true.

Lemma rejected_by_app (sel : S -> Value -> bool * S) l1 :
  forall sub l2,
    rejected_by sel sub (l1 ++ l2) =
      match rejected_by sel sub l1 with
      | Some s => rejected_by sel s l2
      | None => None
      end.
Proof.
  induction l1 as [|v l1 IH]; intros sub l2; simpl; [reflexivity|].
  destruct (sel sub v) as [[] sub']; [reflexivity|apply IH].
Qed.

Local Abbreviation sel_waiting :=
  (Observe.sel_waiting (eval_selector args) pre sub0).
Local Abbreviation sel_done := (Observe.sel_done (S:=S) pre x).

Lemma sel_each_waiting k l v hf :
  pre !! k = Some v -> sel_waiting k hf ->
  exists hf',
    Selector_eval_each eval_selector args (VList nm l) v hf = (hf', inr tt) /\
    sel_waiting (Datatypes.S k) hf'.
Proof.
  intros Hk (Hrun & Hcalls & Hrej).
  pose proof pre_rejected as Hall.
  rewrite <- (take_drop_middle pre k v Hk), rejected_by_app, Hrej in Hall.
  simpl in Hall.
  destruct (eval_selector args (h_substate hf) v) as [pass sub'] eqn:Hs.
  destruct pass; [discriminate|].
  exists (mkHookFrame (h_my_state hf) sub' (h_calls hf ++ [v])). split.
  - unfold Selector_eval_each, bind, call_user. by rewrite Hs.
  - split; [exact Hrun|]. simpl. rewrite (take_S_r pre k v Hk).
    split; [by rewrite Hcalls|].
    rewrite rejected_by_app, Hrej. simpl. by rewrite Hs.
Qed.

Lemma sel_each_done l hf :
  sel_waiting (length pre) hf ->
  exists hf',
    Selector_eval_each eval_selector args (VList nm l) x hf = (hf', inr tt) /\
    sel_done hf'.
Proof.
  intros (Hrun & Hcalls & Hrej). rewrite take_ge in Hcalls, Hrej by lia.
  rewrite pre_rejected in Hrej. injection Hrej as Hsub.
  pose proof x_selected as Hx. rewrite Hsub in Hx.
  destruct (eval_selector args (h_substate hf) x) as [pass sub'] eqn:Hs.
  simpl in Hx. subst pass.
  eexists. split.
  - unfold Selector_eval_each, bind, call_user, hook_on_my_state.
    rewrite Hs. simpl. rewrite (finish_value_running _ _ Hrun). reflexivity.
  - split; [reflexivity|]. split; [reflexivity|]. simpl. by rewrite Hcalls.
Qed.

Lemma selector_stream ps :
  stream_from nm [] ps ->
  closed_is_final (pre ++ x :: post) ps ->
  final_list [] ps = pre ++ x :: post ->
  exists f',
    eval_primary_seq (Hooks:=Selector eval_selector) args ps
      (initial_frame sub0) = (f', inr tt) /\
    sel_done (hook_view f').
Proof.
  intros Hs Hcl Hfin.
  apply (decisive_seq (Hooks:=Selector eval_selector) args nm pre x post
           sel_waiting sel_waiting sel_done) with (l := []); auto.
  - by intros k hf (? & _).
  - by intros hf (? & _).
  - intros k l hf Hw. exists hf. auto.
  - intros l hf Hd. exists hf. auto.
  - apply sel_each_waiting.
  - apply sel_each_done.
  - left. split; [|simpl; lia]. repeat split; try discriminate.
Qed.

End Selector.

(** C5.  A Selector node evaluated any number of times over a growing list
    primary whose elements are rejected up to [x], which is selected:
    every invocation returns, the node ends finished with [x], and
    [eval_selector] has been invoked on the elements up to and including
    [x] and on nothing else, in particular on no element after [x]. *)
Theorem selector_finishes_with_first_match
    {S : Type} (eval_selector : value_vec_t -> S -> Value -> bool * S)
    (secondary_args : value_vec_t) (nm : string)
    (pre : list Value) (x : Value) (post : list Value) (sub0 sub1 : S)
    (primary_args : list NodeEvalState) :
  rejected_by (eval_selector secondary_args) sub0 pre = Some sub1 ->
  fst (eval_selector secondary_args sub1 x) = true ->
  stream_from nm [] primary_args ->
  closed_is_final (pre ++ x :: post) primary_args ->
  final_list [] primary_args = pre ++ x :: post ->
  let result :=
    eval_primary_seq (Hooks:=Selector eval_selector) secondary_args
      primary_args (initial_frame sub0) in
  snd result = inr tt /\
  is_finished (my_state (fst result)) = true /\
  value (my_state (fst result)) = x /\
  calls (fst result) = pre ++ [x].
Proof.
  intros Hrej Hsel Hs Hcl Hfin result.
  destruct (selector_stream eval_selector secondary_args nm pre x post
              sub0 sub1 Hrej Hsel primary_args Hs Hcl Hfin)
    as (f' & Hrun & Hf & Hv & Hc).
  subst result. rewrite Hrun. simpl. auto.
Qed.

(** The first-match scenario: the list [2, 5, 8] arriving one element at a
    time, selector "value > 4". *)
Lemma selector_finishes_with_first_match_witness :
  let result :=
    eval_primary_seq (Hooks:=Selector Samples.greater_than_4) []
      [Samples.primary [2]%Z false; Samples.primary [2; 5]%Z false;
       Samples.primary [2; 5; 8]%Z true]
      (initial_frame tt) in
  snd result = inr tt /\
  is_finished (my_state (fst result)) = true /\
  value (my_state (fst result)) = Samples.num 5 /\
  calls (fst result) = [Samples.num 2] ++ [Samples.num 5].
Proof.
  apply (selector_finishes_with_first_match Samples.greater_than_4 [] "p"
           [Samples.num 2] (Samples.num 5) [Samples.num 8] tt tt).
  - reflexivity.
  - reflexivity.
  - simpl. eexists. split; [reflexivity|]. split; [apply prefix_nil|].
    eexists. split; [reflexivity|]. split; [by exists [Samples.num 5]|].
    eexists. split; [reflexivity|]. split; [by exists [Samples.num 8]|exact I].
  - repeat constructor; simpl; intros; discriminate || reflexivity.
  - reflexivity.
Defined.

End SelectorFacts.

(** ** Filter *)

Module FilterFacts.
Import Eff Functional Observe StateFacts Cursor Streaming.

Section Filter.
Context {S : Type}.
Variable eval_filter : value_vec_t -> S -> Value -> (bool * bool) * S.
Variable args : value_vec_t.
Variable nm : string.
Variables (pre : list Value) (x : Value) (post : list Value).
Variables (sub0 sub1 sub2 : S) (passed : list Value) (pass : bool).
Hypothesis pre_filtered :
  filtered_by (eval_filter args) sub0 pre = Some (passed, sub1).
Hypothesis x_finishes : eval_filter args sub1 x = ((pass, true), sub2).

Lemma filtered_by_app (flt : S -> Value -> (bool * bool) * S) l1 :
  forall sub l2,
    filtered_by flt sub (l1 ++ l2) =
      match filtered_by flt sub l1 with
      | Some (p1, s1) =>
          match filtered_by flt s1 l2 with
          | Some (p2, s2) => Some (p1 ++ p2, s2)
          | None => None
          end
      | None => None
      end.
Proof.
  induction l1 as [|v l1 IH]; intros sub l2; simpl.
  - by destruct (filtered_by flt sub l2) as [[? ?]|].
  - destruct (flt sub v) as [[p []] sub']; [reflexivity|].
    rewrite IH.
    destruct (filtered_by flt sub' l1) as [[p1 s1]|]; [|reflexivity].
    destruct (filtered_by flt s1 l2) as [[p2 s2]|]; [|reflexivity].
    by destruct p.
Qed.

Local Abbreviation collecting := (Observe.collecting nm).
Local Abbreviation flt_waiting :=
  (Observe.flt_waiting (eval_filter args) nm pre sub0).
Local Abbreviation flt_done := (Observe.flt_done (S:=S) nm pre x passed pass).

Lemma flt_ready_waiting k l hf :
  flt_waiting false k hf ->
  exists hf',
    Filter_ready args (VList nm l) hf = (hf', inr tt) /\ flt_waiting true k hf'.
Proof.
  intros (out & Hf & Hc & [Hm|(_ & -> & Hm)]).
  - exists hf. split.
    + unfold Filter_ready, hook_on_my_state. simpl. rewrite Hm. simpl.
      destruct hf; simpl in *; by subst.
    + exists out. auto.
  - simpl in Hf. injection Hf as <- Hsub.
    exists (mkHookFrame (collecting []) (h_substate hf) (h_calls hf)). split.
    + unfold Filter_ready, hook_on_my_state. simpl. rewrite Hm. reflexivity.
    + exists []. simpl. rewrite <- Hsub. auto.
Qed.

Lemma flt_ready_done l hf :
  flt_done hf ->
  exists hf', Filter_ready args (VList nm l) hf = (hf', inr tt) /\ flt_done hf'.
Proof.
  intros [Hm Hc]. exists hf. split; [|by split].
  unfold Filter_ready, hook_on_my_state. simpl. rewrite Hm. simpl.
  destruct hf; simpl in *; by subst.
Qed.

Lemma flt_each_waiting k l v hf :
  pre !! k = Some v -> flt_waiting true k hf ->
  exists hf',
    Filter_eval_each eval_filter args (VList nm l) v hf = (hf', inr tt) /\
    flt_waiting true (Datatypes.S k) hf'.
Proof.
  intros Hk (out & Hf & Hc & [Hm|(? & _)]); [|discriminate].
  pose proof pre_filtered as Hall.
  rewrite <- (take_drop_middle pre k v Hk), filtered_by_app, Hf in Hall.
  simpl in Hall.
  destruct (eval_filter args (h_substate hf) v) as [[p early] sub'] eqn:Hs.
  destruct early; [discriminate|].
  exists (mkHookFrame (collecting (out ++ if p then [v] else [])) sub'
                      (h_calls hf ++ [v])). split.
  - unfold Filter_eval_each, bind, call_user, hook_on_my_state. simpl.
    rewrite Hs. simpl. rewrite Hm.
    destruct p; simpl; [reflexivity|]. by rewrite app_nil_r.
  - exists (out ++ if p then [v] else []). simpl.
    rewrite (take_S_r pre k v Hk). split; [|split; [by rewrite Hc|by left]].
    rewrite filtered_by_app, Hf. simpl. rewrite Hs. by destruct p.
Qed.

Lemma flt_each_done l hf :
  flt_waiting true (length pre) hf ->
  exists hf',
    Filter_eval_each eval_filter args (VList nm l) x hf = (hf', inr tt) /\
    flt_done hf'.
Proof.
  intros (out & Hf & Hc & [Hm|(? & _)]); [|discriminate].
  rewrite take_ge in Hf, Hc by lia.
  rewrite pre_filtered in Hf. injection Hf as <- Hsub.
  exists (mkHookFrame
            (mkNodeEvalState (VList nm (passed ++ if pass then [x] else []))
               true (Some (nm, passed ++ if pass then [x] else [])))
            sub2 (h_calls hf ++ [x])).
  split.
  - unfold Filter_eval_each, bind, call_user, hook_on_my_state. simpl.
    rewrite <- Hsub, x_finishes. simpl. rewrite Hm.
    destruct pass; simpl; [reflexivity|]. by rewrite app_nil_r.
  - split; simpl; [reflexivity|by rewrite Hc].
Qed.

Lemma filter_stream ps :
  stream_from nm [] ps ->
  closed_is_final (pre ++ x :: post) ps ->
  final_list [] ps = pre ++ x :: post ->
  exists f',
    eval_primary_seq (Hooks:=Filter eval_filter) args ps
      (initial_frame sub0) = (f', inr tt) /\
    flt_done (hook_view f').
Proof.
  intros Hs Hcl Hfin.
  apply (decisive_seq (Hooks:=Filter eval_filter) args nm pre x post
           (flt_waiting false) (flt_waiting true) flt_done)
    with (l := []); auto.
  - intros k hf (out & _ & _ & [->|(_ & _ & ->)]); reflexivity.
  - intros k hf (out & ? & ? & [?|(? & _)]); [|discriminate].
    exists out. auto.
  - by intros hf [-> _].
  - apply flt_ready_waiting.
  - apply flt_ready_done.
  - apply flt_each_waiting.
  - apply flt_each_done.
  - left. split; [|simpl; lia]. split; [|split; [reflexivity|discriminate]].
    exists []. simpl. split; [reflexivity|]. split; [reflexivity|].
    right. auto.
Qed.

End Filter.

(** C6.  A Filter node evaluated any number of times over a growing list
    primary, no element of [pre] asking for an early finish and [x]
    asking for it: every invocation returns and the node ends finished,
    whether or not the primary list is closed; [eval_filter] has been
    invoked on the elements up to and including [x] and on none of the
    elements after it that the list holds; and the local list, which is the
    node's value, holds the passing elements up to and including [x]. *)
Theorem filter_early_finish_stops
    {S : Type} (eval_filter : value_vec_t -> S -> Value -> (bool * bool) * S)
    (secondary_args : value_vec_t) (nm : string)
    (pre : list Value) (x : Value) (post : list Value) (sub0 sub1 sub2 : S)
    (passed : list Value) (pass : bool)
    (primary_args : list NodeEvalState) :
  filtered_by (eval_filter secondary_args) sub0 pre = Some (passed, sub1) ->
  eval_filter secondary_args sub1 x = ((pass, true), sub2) ->
  stream_from nm [] primary_args ->
  closed_is_final (pre ++ x :: post) primary_args ->
  final_list [] primary_args = pre ++ x :: post ->
  let result :=
    eval_primary_seq (Hooks:=Filter eval_filter) secondary_args
      primary_args (initial_frame sub0) in
  let out := passed ++ (if pass then [x] else []) in
  snd result = inr tt /\
  is_finished (my_state (fst result)) = true /\
  calls (fst result) = pre ++ [x] /\
  local_values (my_state (fst result)) = Some (nm, out) /\
  value (my_state (fst result)) = VList nm out.
Proof.
  intros Hflt Hx Hs Hcl Hfin result out.
  destruct (filter_stream eval_filter secondary_args nm pre x post
              sub0 sub1 sub2 passed pass Hflt Hx primary_args Hs Hcl Hfin)
    as (f' & Hrun & Hm & Hc).
  subst result. rewrite Hrun. simpl in *. rewrite Hm. auto.
Qed.

(** An open list [1, 2], then [1, 2, 6, 8], still open: the filter passes
    even values and asks to finish at 6. *)
Lemma filter_early_finish_stops_witness :
  let result :=
    eval_primary_seq (Hooks:=Filter Samples.even_until_above_4) []
      [Samples.primary [1; 2]%Z false; Samples.primary [1; 2; 6; 8]%Z false]
      (initial_frame tt) in
  let out := [Samples.num 2] ++ (if true then [Samples.num 6] else []) in
  snd result = inr tt /\
  is_finished (my_state (fst result)) = true /\
  calls (fst result) = [Samples.num 1; Samples.num 2] ++ [Samples.num 6] /\
  local_values (my_state (fst result)) = Some ("p", out) /\
  value (my_state (fst result)) = VList "p" out.
Proof.
  apply (filter_early_finish_stops Samples.even_until_above_4 [] "p"
           [Samples.num 1; Samples.num 2] (Samples.num 6) [Samples.num 8]
           tt tt tt [Samples.num 2] true).
  - reflexivity.
  - reflexivity.
  - simpl. eexists. split; [reflexivity|]. split; [apply prefix_nil|].
    eexists. split; [reflexivity|].
    split; [by exists [Samples.num 6; Samples.num 8]|exact I].
  - repeat constructor; simpl; intros; discriminate.
  - reflexivity.
Defined.

End FilterFacts.

(** ** The ready hook and scalar primaries *)

Module ReadyFacts.
Import Eff Functional Observe StateFacts Cursor.

Lemma readied_each tr pv sv : readied (tr ++ [EvEach pv sv]) = readied tr.
Proof. unfold readied. rewrite omap_app. simpl. apply app_nil_r. Qed.

Section Each.
Context {S : Type} {Hooks : EachHooks S}.

Lemma log_run e (f : EachFrame S) :
  log e f = (mkEachFrame (my_state f) (each_state f) (calls f)
                         (trace f ++ [e]), inr tt).
Proof. reflexivity. Qed.

(** Nothing but the loop and the hook calls writes to the trace. *)
Lemma call_hook_trace (h : M (HookFrame S) unit) (f : EachFrame S) :
  trace (fst (call_hook h f)) = trace f.
Proof. unfold call_hook. by destruct (h _). Qed.

Lemma call_eval_each_trace args pv sv (f : EachFrame S) :
  trace (fst (call_eval_each args pv sv f)) = trace f ++ [EvEach pv sv].
Proof.
  unfold call_eval_each, bind. rewrite log_run. simpl.
  destruct (call_hook _ _) as [f1 r] eqn:Hc.
  apply (f_equal (fun y => trace (fst y))) in Hc.
  rewrite call_hook_trace in Hc. simpl in Hc. by destruct r as [|[]].
Qed.

Lemma call_ready_trace args pv (f : EachFrame S) :
  trace (fst (call_ready args pv f)) = trace f ++ [EvReady pv].
Proof.
  unfold call_ready, bind. rewrite log_run. simpl.
  destruct (call_hook _ _) as [f1 r] eqn:Hc.
  apply (f_equal (fun y => trace (fst y))) in Hc.
  rewrite call_hook_trace in Hc. simpl in Hc. by destruct r as [|[]].
Qed.

Lemma each_loop_trace args pv rest :
  forall pos (f : EachFrame S),
    exists evs,
      trace (fst (each_loop args pv rest pos f)) = trace f ++ evs /\
      readied evs = [].
Proof.
  induction rest as [|sv rest IH]; intros pos f; simpl.
  - exists []. by rewrite app_nil_r.
  - unfold bind at 1.
    pose proof (call_eval_each_trace args pv sv f) as Ht.
    destruct (call_eval_each args pv sv f) as [f1 [e|[]]]; simpl in Ht.
    { exists [EvEach pv sv]. auto. }
    unfold bind at 1, gets. simpl.
    destruct (is_finished (my_state f1)).
    { exists [EvEach pv sv]. auto. }
    unfold bind at 1, set_last_subvalue, modify. simpl.
    set (f2 := mkEachFrame _ _ _ _).
    destruct (IH (Datatypes.S pos) f2) as (evs & He & Hr).
    exists (EvEach pv sv :: evs). split; [|exact Hr].
    rewrite He. subst f2. simpl. rewrite Ht, <- app_assoc. reflexivity.
Qed.

Lemma on_my_state_trace op (f : EachFrame S) :
  trace (fst (on_my_state op f)) = trace f.
Proof. unfold on_my_state. by destruct (op _). Qed.

Lemma finish_unless_finished_trace (f : EachFrame S) :
  trace (fst (finish_unless_finished f)) = trace f.
Proof.
  unfold finish_unless_finished, bind, gets.
  destruct (negb _); [apply on_my_state_trace|reflexivity].
Qed.

End Each.

(** C8, as the code has it.  In every [eval_primary] invocation of an Each
    node on a list primary, [ready] is invoked exactly once, with the
    primary value and before any subvalue is passed to [eval_each]; so it
    runs once per invocation, whether or not the primary value is new.  The
    [ready] of Map and Filter sets up the local list named after the
    primary on a fresh state and leaves alone a state whose local list is
    set up. *)
Theorem ready_runs_in_every_invocation
    {S : Type} (Hooks : EachHooks S) (secondary_args : value_vec_t)
    (primary_arg : NodeEvalState) (f : EachFrame S) :
  is_list (value primary_arg) = true ->
  (exists evs,
     trace (fst (eval_primary secondary_args primary_arg f)) =
       trace f ++ EvReady (value primary_arg) :: evs /\
     readied evs = []) /\
  (forall rdy,
     rdy = Map_ready (S:=S) \/ rdy = Filter_ready (S:=S) ->
     (forall (sub : S) (cs : list Value),
        rdy secondary_args (value primary_arg)
          (mkHookFrame fresh_state sub cs) =
        (mkHookFrame
           (mkNodeEvalState (VList (name (value primary_arg)) []) false
              (Some (name (value primary_arg), [])))
           sub cs, inr tt)) /\
     (forall hf : HookFrame S,
        is_Some (local_values (h_my_state hf)) ->
        rdy secondary_args (value primary_arg) hf = (hf, inr tt))).
Proof.
  intros Hl. destruct (value primary_arg) as [| | |nm l] eqn:Hv;
    try discriminate. clear Hl.
  split; [|intros rdy Hrdy; split].
  - unfold eval_primary. rewrite Hv. cbn [is_null is_list negb as_list].
    unfold bind at 1.
    pose proof (call_ready_trace secondary_args (VList nm l) f) as Ht.
    destruct (call_ready secondary_args (VList nm l) f) as [f1 [e|[]]];
      simpl in Ht.
    { exists []. auto. }
    destruct l as [|v l].
    + exists []. split; [|reflexivity]. unfold bind, gets.
      destruct (_ && _); [|exact Ht]. by rewrite on_my_state_trace.
    + unfold bind at 1, gets at 1.
      destruct (is_finished (my_state f1)); [exists []; auto|].
      unfold bind at 1. rewrite first_position_run.
      set (pv := VList nm (v :: l)) in *.
      assert (forall start (g : EachFrame S), trace g = trace f1 ->
                exists evs,
                  trace (fst (bind (each_loop secondary_args pv
                                      (drop start (v :: l)) start)
                    (fun returned : bool =>
                       if returned then ret tt
                       else if is_finished primary_arg
                            then finish_unless_finished else ret tt) g)) =
                    trace f ++ EvReady pv :: evs /\ readied evs = [])
        as Hloop.
      { intros start g Hg. unfold bind.
        destruct (each_loop_trace secondary_args pv (drop start (v :: l))
                    start g) as (evs & He & Hr).
        exists evs. split; [|exact Hr].
        destruct (each_loop _ _ _ _ g) as [g1 [e|[]]]; simpl in *.
        - by rewrite He, Hg, Ht, <- app_assoc.
        - by rewrite He, Hg, Ht, <- app_assoc.
        - destruct (is_finished primary_arg);
            [rewrite finish_unless_finished_trace|];
            simpl; by rewrite He, Hg, Ht, <- app_assoc. }
      destruct (initialized (each_state f1)).
      * destruct (last_subvalue (each_state f1)) as [i|];
          [by apply Hloop|exists []; auto].
      * by apply Hloop.
  - intros sub cs. by destruct Hrdy as [->| ->].
  - intros hf [nl Hsome].
    assert (Map_ready secondary_args (VList nm l) hf = (hf, inr tt)) as Hm.
    { unfold Map_ready, hook_on_my_state. simpl.
      unfold setup_local_list. rewrite Hsome. simpl.
      rewrite !orb_true_r. by destruct hf. }
    by destruct Hrdy as [->| ->].
Qed.

Lemma ready_runs_in_every_invocation_witness :
  let p := Samples.primary [2; 5]%Z false in
  (exists evs,
     trace (fst (eval_primary (Hooks:=Map Samples.double) [] p
                   (initial_frame tt))) =
       trace (initial_frame tt) ++ EvReady (value p) :: evs /\
     readied evs = []) /\
  (forall rdy,
     rdy = Map_ready (S:=unit) \/ rdy = Filter_ready (S:=unit) ->
     (forall (sub : unit) (cs : list Value),
        rdy [] (value p) (mkHookFrame fresh_state sub cs) =
        (mkHookFrame
           (mkNodeEvalState (VList (name (value p)) []) false
              (Some (name (value p), [])))
           sub cs, inr tt)) /\
     (forall hf : HookFrame unit,
        is_Some (local_values (h_my_state hf)) ->
        rdy [] (value p) hf = (hf, inr tt))).
Proof.
  apply (ready_runs_in_every_invocation (Map Samples.double) []
           (Samples.primary [2; 5]%Z false) (initial_frame tt)).
  reflexivity.
Defined.

(** C8, as stated, fails: a Map node invoked twice on one and the same
    primary list has its [ready] invoked twice, with that same value. *)
Lemma ready_once_per_new_value_counterexample :
  let p := Samples.primary [2; 5]%Z false in
  let calls_of_ready :=
    readied (trace (fst (eval_primary_seq (Hooks:=Map Samples.double) []
                           [p; p] (initial_frame tt)))) in
  calls_of_ready = [value p; value p] /\ calls_of_ready <> [value p].
Proof. split; vm_compute; [reflexivity|discriminate]. Qed.

(** C10.  An invocation whose primary value is neither null nor a list,
    finished or not, calls [ready] and then [eval_each] once, with the
    value as primary value and as subvalue; if both return, the invocation
    returns with the node finished: as [eval_each] left it if that finished
    it, and else finished with the value it had.  A null primary value of
    an unfinished primary argument leaves everything as it is. *)
Theorem scalar_primary_finishes_in_one_invocation
    {S : Type} (Hooks : EachHooks S) (secondary_args : value_vec_t)
    (primary_arg : NodeEvalState) (f : EachFrame S) :
  is_null (value primary_arg) = false ->
  is_list (value primary_arg) = false ->
  let pv := value primary_arg in
  let r1 := call_ready secondary_args pv f in
  let r2 := call_eval_each secondary_args pv pv (fst r1) in
  let f2 := fst r2 in
  snd r1 = inr tt ->
  snd r2 = inr tt ->
  eval_primary secondary_args primary_arg f =
    (mkEachFrame
       (if is_finished (my_state f2) then my_state f2
        else mkNodeEvalState (value (my_state f2)) true
               (local_values (my_state f2)))
       (each_state f2) (calls f2) (trace f2), inr tt) /\
  trace f2 = trace f ++ [EvReady pv; EvEach pv pv] /\
  is_finished (my_state (fst (eval_primary secondary_args primary_arg f)))
    = true /\
  (forall q : NodeEvalState,
     is_null (value q) = true -> is_finished q = false ->
     eval_primary secondary_args q f = (f, inr tt)).
Proof.
  intros Hn Hl pv r1 r2 f2 H1 H2.
  assert (Hrun : eval_primary secondary_args primary_arg f =
    (mkEachFrame
       (if is_finished (my_state f2) then my_state f2
        else mkNodeEvalState (value (my_state f2)) true
               (local_values (my_state f2)))
       (each_state f2) (calls f2) (trace f2), inr tt)).
  { subst f2 r2 r1 pv. unfold eval_primary. rewrite Hn, Hl. simpl.
    unfold bind at 1.
    destruct (call_ready secondary_args (value primary_arg) f) as [f1 o1].
    simpl in *. subst o1. unfold bind at 1.
    destruct (call_eval_each secondary_args (value primary_arg)
                (value primary_arg) f1) as [f2 o2].
    simpl in *. subst o2.
    unfold finish_unless_finished, bind, gets.
    destruct (is_finished (my_state f2)) eqn:Hf; simpl.
    - by destruct f2.
    - unfold on_my_state. by rewrite (finish_running _ Hf). }
  split; [exact Hrun|]. split; [|split].
  - subst f2 r2. rewrite call_eval_each_trace. subst r1.
    rewrite call_ready_trace, <- app_assoc. reflexivity.
  - rewrite Hrun. simpl. by destruct (is_finished (my_state f2)) eqn:Hf.
  - intros q Hq Hfq. unfold eval_primary. by rewrite Hq, Hfq.
Qed.

Lemma scalar_primary_finishes_in_one_invocation_witness :
  let p := mkNodeEvalState (Samples.num 3) false None in
  eval_primary (Hooks:=Map Samples.double) [] p (initial_frame tt) =
    (mkEachFrame (mkNodeEvalState (Samples.num 6) true None)
       (eval_initialize tt) [Samples.num 3]
       [EvReady (Samples.num 3); EvEach (Samples.num 3) (Samples.num 3)],
     inr tt).
Proof.
  apply (scalar_primary_finishes_in_one_invocation (Map Samples.double) []
           (mkNodeEvalState (Samples.num 3) false None) (initial_frame tt));
    reflexivity.
Defined.

End ReadyFacts.

(** ** Call: validation before transformation *)

Module PreTransformFacts.
Import Eff Functional CallImpl Observe.

Section PreTransform.
Variable base : Base.
Variable parent_pre_transform : Node -> Remarks.
Variable n_children_message : nat -> nat -> string.

Lemma report_report me a b r :
  report me a (report me b r) = report me (b ++ a) r.
Proof. unfold report. by rewrite map_app, app_assoc. Qed.

Lemma validate_literal_children_spec me cs :
  forall i fr,
    validate_literal_children base me cs i fr =
      mkPreFrame
        (report me
           (flat_map (fun '(n, v) => validate_argument base n v)
                     (literal_arguments cs i))
           (reporter fr))
        (validated fr ++ literal_arguments cs i).
Proof.
  induction cs as [|c cs IH]; intros i fr; simpl.
  - unfold report. simpl. rewrite !app_nil_r. by destruct fr.
  - rewrite IH. destruct (is_literal c); simpl; [|reflexivity].
    rewrite report_report, <- app_assoc. reflexivity.
Qed.

End PreTransform.

(** C9.  [pre_transform] on a node whose child count differs from
    [num_static_args + num_dynamic_args] adds one error to what the
    parent's checks reported and invokes [validate_argument] on nothing;
    on a node with the right count it invokes
    [validate_argument(position, value, reporter)] on every literal child,
    in order, and on nothing else. *)
Theorem pre_transform_checks_arity_then_literals
    (base : Base) (parent_pre_transform : Node -> Remarks)
    (n_children_message : nat -> nat -> string)
    (me : Node) (fr : PreFrame) :
  let n := num_static_args base + num_dynamic_args base in
  let after_parent := report me (parent_pre_transform me) (reporter fr) in
  let result :=
    pre_transform base parent_pre_transform n_children_message me fr in
  if bool_decide (length (children me) = n) then
    validated result = validated fr ++ literal_arguments (children me) 0 /\
    reporter result =
      report me
        (flat_map (fun '(i, v) => validate_argument base i v)
                  (literal_arguments (children me) 0))
        after_parent
  else
    validated result = validated fr /\
    reporter result =
      after_parent ++
      [mkDiagnostic true (node_id me)
         (n_children_message n (length (children me)))] /\
    num_errors (reporter result) = Datatypes.S (num_errors after_parent).
Proof.
  intros n after_parent result. subst result.
  unfold pre_transform, n_children. simpl. fold n.
  destruct (bool_decide (length (children me) = n)); simpl.
  - rewrite validate_literal_children_spec. simpl. auto.
  - split; [reflexivity|]. split; [reflexivity|].
    subst after_parent. unfold num_errors, report.
    rewrite List.filter_app, length_app. simpl. lia.
Qed.

End PreTransformFacts.

(** ** Call: validation of arguments during evaluation *)

Module CalculateFacts.
Import Eff Functional CallImpl Observe.

Section Calculate.
Context {X : Type}.
Variable base : Base.
Variable index : Node -> nat.
Variable to_s : Node -> string.
Variable write_report : Reporter -> string.

(** Arguments that do not fail are erased when finished and kept when
    not, up to the first that fails. *)
Lemma validate_args_failure g before :
  forall node n after,
    forallb (fun a => negb (argument_fails base index g a)) before = true ->
    argument_fails base index g (node, n) = true ->
    validate_args base index to_s write_report g
      (before ++ (node, n) :: after) =
    (List.filter (argument_unfinished index g) before ++ (node, n) :: after,
     inl (einval
            (validation_failure n
               (write_report
                  (report node
                     (validate_argument base n (ges_value g (index node)))
                     []))
               (to_s node)))).
Proof.
  induction before as [|[c i] before IH]; intros node n after Hb Hf.
  - simpl. unfold argument_fails in Hf. simpl in Hf.
    apply andb_true_iff in Hf as [Hfin Herr]. rewrite Hfin, Herr. reflexivity.
  - simpl in Hb. apply andb_true_iff in Hb as [Hc Hb].
    simpl. rewrite (IH node n after Hb Hf).
    unfold argument_fails, argument_unfinished in *. simpl in *.
    destruct (ges_is_finished g (index c)); simpl in *; [|reflexivity].
    apply negb_true_iff in Hc. rewrite Hc. reflexivity.
Qed.

Lemma validate_args_success g args :
  forallb (fun a => negb (argument_fails base index g a)) args = true ->
  validate_args base index to_s write_report g args =
    (List.filter (argument_unfinished index g) args, inr tt).
Proof.
  induction args as [|[c i] args IH]; intros Hb; [reflexivity|].
  simpl in Hb. apply andb_true_iff in Hb as [Hc Hb].
  simpl. rewrite (IH Hb).
  unfold argument_fails, argument_unfinished in *. simpl in *.
  destruct (ges_is_finished g (index c)); simpl in *; [|reflexivity].
  apply negb_true_iff in Hc. rewrite Hc. reflexivity.
Qed.

End Calculate.

(** The arguments [Call::eval_initialize] lists as unfinished are the
    children that are not literal. *)
Lemma non_literal_children_not_literal cs :
  forall i, Forall (fun a : arg_with_index_t => is_literal a.1 = false)
                   (non_literal_children cs i).
Proof.
  induction cs as [|c cs IH]; intros i; simpl; [constructor|].
  destruct (is_literal c) eqn:Hc; simpl; [apply IH|].
  constructor; [exact Hc|apply IH].
Qed.

(** C7.  [eval_calculate] on a call state whose unfinished arguments are
    [before], none of which fails, then [(node, n)], which is finished and
    whose value [validate_argument] reports an error for: the call throws
    einval at once, with the text made of the position [n], the written
    report and the textual form of the argument node; [Base::eval] is not
    entered, and nothing of the evaluation state changes but that the
    finished arguments of [before] leave the list. *)
Theorem eval_calculate_throws_on_invalid_argument
    {X : Type} (base : Base) (index : Node -> nat) (to_s : Node -> string)
    (write_report : Reporter -> string)
    (base_eval : Node -> M (GraphEvalState * X) unit)
    (me : Node) (fr : CalcFrame X)
    (before : arg_list_t) (node : Node) (n : nat) (after : arg_list_t) :
  unfinished (call_state fr) = before ++ (node, n) :: after ->
  forallb (fun a => negb (argument_fails base index (ges fr) a)) before
    = true ->
  ges_is_finished (ges fr) (index node) = true ->
  0 < num_errors
        (report node
           (validate_argument base n (ges_value (ges fr) (index node))) []) ->
  eval_calculate base index to_s write_report base_eval me fr =
    (mkCalcFrame (ges fr)
       (mkCallState
          (List.filter (argument_unfinished index (ges fr)) before
           ++ (node, n) :: after)
          (substate (call_state fr)))
       (base_eval_calls fr),
     inl (einval
            ("Argument validation failed: n=" +:+ pretty n +:+
             " report=" +:+
             write_report
               (report node
                  (validate_argument base n
                     (ges_value (ges fr) (index node))) []) +:+
             " arg=" +:+ to_s node))).
Proof.
  intros Hargs Hbefore Hfin Herr.
  unfold eval_calculate. rewrite Hargs.
  rewrite (validate_args_failure base index to_s write_report (ges fr)
             before node n after Hbefore).
  - reflexivity.
  - unfold argument_fails. simpl. rewrite Hfin. simpl.
    by apply bool_decide_eq_true.
Qed.

(** A call whose only argument has finished with -1. *)
Lemma eval_calculate_throws_on_invalid_argument_witness :
  let x := Call 1 "x" [] in
  let g := [fresh_state; mkNodeEvalState (Samples.num (-1)) true None] in
  eval_calculate Samples.nonnegative node_id Samples.sample_to_s
    Samples.sample_write_report (fun _ => ret tt) (Call 0 "sqrt" [x])
    (mkCalcFrame g (mkCallState [(x, 0)] tt) 0) =
  (mkCalcFrame g (mkCallState [(x, 0)] tt) 0,
   inl (einval "Argument validation failed: n=0 report=negative arg=(x)")).
Proof.
  apply (eval_calculate_throws_on_invalid_argument Samples.nonnegative
           node_id Samples.sample_to_s Samples.sample_write_report
           (fun _ => ret tt) (Call 0 "sqrt" [Call 1 "x" []])
           (mkCalcFrame
              [fresh_state; mkNodeEvalState (Samples.num (-1)) true None]
              (mkCallState [(Call 1 "x" [], 0)] tt) 0)
           [] (Call 1 "x" []) 0 []).
  - reflexivity.
  - reflexivity.
  - reflexivity.
  - vm_compute. lia.
Defined.

End CalculateFacts.

(** ** Simple *)

Module SimpleFacts.
Import Eff Functional CallImpl Observe.

Section Simple.
Variable num_static_args num_dynamic_args : nat.
Variable eval_simple : value_vec_t -> Value.
Variable index : Node -> nat.

Lemma Simple_collect_spec ges cs :
  forall i args,
    Simple_collect num_static_args index ges cs i args =
      let dynamic := drop (num_static_args - i) cs in
      if forallb (fun c => ges_is_finished ges (index c)) dynamic
      then Some (args ++ map (fun c => ges_value ges (index c)) dynamic)
      else None.
Proof.
  induction cs as [|c cs IH]; intros i args.
  - simpl. rewrite drop_nil. simpl. by rewrite app_nil_r.
  - cbn [Simple_collect]. case_bool_decide as Hi.
    + replace (num_static_args - i) with 0 by lia.
      cbn [drop forallb map].
      destruct (ges_is_finished ges (index c)); cbn [negb andb];
        [|reflexivity].
      rewrite IH. replace (num_static_args - Datatypes.S i) with 0 by lia.
      cbn zeta. rewrite drop_0.
      destruct (forallb _ cs); [|reflexivity]. by rewrite <- app_assoc.
    + rewrite IH. destruct (num_static_args - i) as [|k] eqn:Hk; [lia|].
      replace (num_static_args - Datatypes.S i) with k by lia.
      reflexivity.
Qed.

End Simple.

Section Primary.
Context {X : Type}.
Variable num_static_args : nat.
Variable index : Node -> nat.
Variable eval_primary :
  value_vec_t -> NodeEvalState -> M (NodeEvalState * X) unit.

Lemma Primary_collect_spec ges n front prim :
  forall i values pstate,
    i + length front + 1 = n ->
    Primary_collect num_static_args index ges n (front ++ [prim]) i values
      pstate =
      let secondary := drop (num_static_args - i) front in
      if forallb (fun c => ges_is_finished ges (index c)) secondary
      then Some (values ++ map (fun c => ges_value ges (index c)) secondary,
                 Some (ges_at ges (index prim)))
      else None.
Proof.
  induction front as [|c front IH]; intros i values pstate Hn.
  - simpl in *. rewrite bool_decide_true by lia. simpl.
    rewrite drop_nil. simpl. by rewrite app_nil_r.
  - simpl in Hn. cbn [app Primary_collect].
    rewrite bool_decide_false by lia. case_bool_decide as Hi.
    + replace (num_static_args - i) with 0 by lia.
      cbn [drop forallb map].
      destruct (ges_is_finished ges (index c)); cbn [negb andb];
        [|reflexivity].
      rewrite IH by lia.
      replace (num_static_args - Datatypes.S i) with 0 by lia.
      cbn zeta. rewrite drop_0.
      destruct (forallb _ front); [|reflexivity]. by rewrite <- app_assoc.
    + rewrite IH by lia.
      destruct (num_static_args - i) as [|k] eqn:Hk; [lia|].
      replace (num_static_args - Datatypes.S i) with k by lia.
      reflexivity.
Qed.

(** [Primary::eval] hands [eval_primary] the state of the last child as it
    is, finished or not, once the children between the static arguments
    and the last are finished. *)
Lemma Primary_eval_spec me front prim ges (x : X) :
  children me = front ++ [prim] ->
  let secondary := drop num_static_args front in
  Primary_eval num_static_args index eval_primary me (ges, x) =
    if forallb (fun c => ges_is_finished ges (index c)) secondary then
      match eval_primary (map (fun c => ges_value ges (index c)) secondary)
              (ges_at ges (index prim)) (ges_at ges (index me), x) with
      | ((my_state', x'), r) => ((ges_set ges (index me) my_state', x'), r)
      end
    else ((ges, x), inr tt).
Proof.
  intros Hc secondary. unfold Primary_eval, bind, gets. simpl.
  rewrite Hc, Primary_collect_spec by (rewrite length_app; simpl; lia).
  simpl. rewrite Nat.sub_0_r. fold secondary.
  by destruct (forallb _ secondary).
Qed.

End Primary.

(** C4, as the code has it.  On a node with the right number of children,
    [Simple::eval] returns without effect when a dynamic child is
    unfinished; when all are finished it invokes [eval_simple] once and
    finishes the node with what that returns, but the argument vector
    starts with [num_dynamic_args] null values, which the values of the
    dynamic children follow. *)
Theorem Simple_eval_argument_vector
    (num_static_args num_dynamic_args : nat)
    (eval_simple : value_vec_t -> Value) (index : Node -> nat)
    (me : Node) (ges : GraphEvalState) (calls : list value_vec_t) :
  length (children me) = num_dynamic_args + num_static_args ->
  let dynamic := drop num_static_args (children me) in
  let args :=
    replicate num_dynamic_args VNull ++
    map (fun c => ges_value ges (index c)) dynamic in
  Simple_eval num_static_args num_dynamic_args eval_simple index me
    (ges, calls) =
  if forallb (fun c => ges_is_finished ges (index c)) dynamic then
    match finish_value (eval_simple args) (ges_at ges (index me)) with
    | inl e => ((ges, calls ++ [args]), inl e)
    | inr s' => ((ges_set ges (index me) s', calls ++ [args]), inr tt)
    end
  else ((ges, calls), inr tt).
Proof.
  intros Hn dynamic args. unfold Simple_eval.
  rewrite bool_decide_true by exact Hn. simpl.
  unfold bind at 1, gets. simpl. rewrite Simple_collect_spec. simpl.
  rewrite Nat.sub_0_r. fold dynamic. fold args.
  destruct (forallb _ dynamic); [|reflexivity].
  unfold bind, modify, ges_finish_value. simpl.
  by destruct (finish_value _ _).
Qed.


(** The failing input of C4: one dynamic argument, finished with 5; the
    function that returns its first argument yields null. *)
Lemma Simple_eval_argument_vector_witness :
  let child := Call 1 "x" [] in
  let me := Call 0 "first" [child] in
  let ges := [fresh_state; mkNodeEvalState (Samples.num 5) true None] in
  Simple_eval 0 1 (fun args => default VNull (head args)) node_id me (ges, [])
  = (([mkNodeEvalState VNull true None;
       mkNodeEvalState (Samples.num 5) true None],
      [[VNull; Samples.num 5]]), inr tt).
Proof.
  apply (Simple_eval_argument_vector 0 1
           (fun args => default VNull (head args)) node_id
           (Call 0 "first" [Call 1 "x" []])
           [fresh_state; mkNodeEvalState (Samples.num 5) true None] []).
  reflexivity.
Defined.

End SimpleFacts.

(** ** What becomes of a finished state *)

Module FinishedFacts.
Import Eff Functional CallImpl Observe ObserveRest Dispatch StateFacts.









End FinishedFacts.

(** ** Call: constant folding *)

Module TransformFacts.
Import Eff Functional CallImpl Observe.

Section Transform.
Variable base : Base.
Context {MergeGraph : Type}.
Variable mg_replace : Node -> Node -> MergeGraph -> MergeGraph.
Variable ges_initialize :
  IndexStore -> Node -> EvalContext -> GraphEvalState -> GraphEvalState.
Variable ges_eval :
  IndexStore -> Node -> EvalContext -> GraphEvalState -> exn + GraphEvalState.
Variable base_prepare : nat -> value_vec_t -> Reporter -> exn + Reporter.
Variable base_transform : Node -> M (World (MergeGraph:=MergeGraph)) bool.

Lemma index_children_spec cs :
  forall i (w : World (MergeGraph:=MergeGraph)),
    index_children cs i w =
      (mkWorld (assign_indices cs i (indices w)) (merge_graph w)
               (t_reporter w) (next_address w)
               (tlog w ++ imap (fun j c => TSetIndex c (i + j)) cs),
       inr (i + length cs)).
Proof.
  induction cs as [|c cs IH]; intros i w.
  - simpl. unfold ret, assign_indices. simpl.
    rewrite app_nil_r, Nat.add_0_r. by destruct w.
  - simpl. unfold bind at 1, do_set_index, bind, tell, modify. simpl.
    rewrite IH. simpl. unfold assign_indices. simpl.
    rewrite Nat.add_0_r, <- app_assoc. simpl.
    f_equal; [|f_equal; lia]. f_equal.
    + f_equal. apply imap_ext. intros j x _. simpl. f_equal. lia.
    + f_equal. f_equal. apply imap_ext. intros j x _. simpl. f_equal. lia.
Qed.

Lemma initialize_children_spec cs :
  forall (seen : gset nat) ges (w : World (MergeGraph:=MergeGraph)),
    forallb is_literal cs = true ->
    exists ds,
      ds `sublist_of` cs /\
      NoDup (map node_id ds) /\
      (forall c, c ∈ ds -> node_id c ∉ seen) /\
      (forall c, c ∈ cs ->
                 node_id c ∈ seen \/ node_id c ∈ map node_id ds) /\
      initialize_children ges_initialize cs seen ges w =
        (mkWorld (indices w) (merge_graph w) (t_reporter w) (next_address w)
                 (tlog w ++ map (fun c => TInitialize c EmptyContext) ds),
         inr (foldl (fun g c => ges_initialize (indices w) c EmptyContext g)
                    ges ds)).
Proof.
  induction cs as [|c cs IH]; intros seen ges w Hlit.
  - exists []. simpl. unfold ret. rewrite app_nil_r.
    repeat split; auto using NoDup_nil_2.
    + intros c Hc. by apply elem_of_nil in Hc.
    + intros c Hc. by apply elem_of_nil in Hc.
    + by destruct w.
  - simpl in Hlit. apply andb_true_iff in Hlit as [Hc Hlit].
    simpl. rewrite Hc. simpl. case_bool_decide as Hseen.
    + destruct (IH seen ges w Hlit) as (ds & Hsub & Hnd & Hfresh & Hcov & Hrun).
      exists ds. split; [by apply sublist_cons|]. split; [exact Hnd|].
      split; [exact Hfresh|]. split; [|exact Hrun].
      intros c' Hc'. apply elem_of_cons in Hc' as [->|Hc']; auto.
    + unfold bind at 1, tell, modify. simpl.
      unfold bind at 1, gets. simpl.
      set (w1 := mkWorld _ _ _ _ _).
      destruct (IH ({[node_id c]} ∪ seen)
                  (ges_initialize (indices w) c EmptyContext ges) w1 Hlit)
        as (ds & Hsub & Hnd & Hfresh & Hcov & Hrun).
      exists (c :: ds). split; [by apply sublist_skip|]. split; [|split; [|split]].
      * simpl. apply NoDup_cons. split; [|exact Hnd].
        intros Hin. apply list_elem_of_fmap in Hin as (c' & Heq & Hc').
        apply Hfresh in Hc'. rewrite <- Heq in Hc'. set_solver.
      * intros c' Hc'. apply elem_of_cons in Hc' as [->|Hc']; [exact Hseen|].
        apply Hfresh in Hc'. set_solver.
      * intros c' Hc'. simpl. apply elem_of_cons in Hc' as [->|Hc'].
        -- right. apply elem_of_cons. by left.
        -- destruct (Hcov c' Hc') as [Hs|Hd].
           ++ apply elem_of_union in Hs as [Hs|Hs]; [|by left].
              apply elem_of_singleton in Hs. right. rewrite Hs.
              apply elem_of_cons. by left.
           ++ right. apply elem_of_cons. by right.
      * rewrite Hrun. subst w1. simpl. rewrite <- app_assoc. reflexivity.
Qed.

End Transform.

(** C1.  [Call::transform] on a node all of whose children are literal
    (with at least [num_static_args] of them, and a [prepare] that
    returns) assigns index 0 to the node and 1..K to its K children, makes
    a graph evaluation state of size K+1, initializes in it every distinct
    child exactly once with an empty context, initializes and evaluates the
    node once with a context of a new pool, and then: if the node's state
    is finished, replaces the node in the merge graph by a new literal that
    holds the value and owns the pool, and returns true; if not, returns
    what [Base::transform] returns.  This is [folds_literal_call]. *)
Theorem transform_folds_literal_call
    {MergeGraph : Type} (base : Base)
    (mg_replace : Node -> Node -> MergeGraph -> MergeGraph)
    (ges_initialize :
       IndexStore -> Node -> EvalContext -> GraphEvalState -> GraphEvalState)
    (ges_eval :
       IndexStore -> Node -> EvalContext -> GraphEvalState
       -> exn + GraphEvalState)
    (base_prepare : nat -> value_vec_t -> Reporter -> exn + Reporter)
    (base_transform : Node -> M (World (MergeGraph:=MergeGraph)) bool)
    (me : Node) (w : World (MergeGraph:=MergeGraph)) (r' : Reporter) :
  forallb is_literal (children me) = true ->
  num_static_args base <= length (children me) ->
  base_prepare (next_address w)
    (map literal_value (take (num_static_args base) (children me)))
    (t_reporter w) = inr r' ->
  folds_literal_call base mg_replace ges_initialize ges_eval base_transform
    me w r'
    (transform base mg_replace ges_initialize ges_eval base_prepare
       base_transform me w).
Proof.
  intros Hlit Hstatic Hprep.
  unfold transform. rewrite Hlit. simpl.
  unfold bind at 1, do_set_index, bind at 1, tell, modify. simpl.
  unfold bind at 1. rewrite index_children_spec. simpl.
  unfold bind at 1, tell, modify. simpl.
  unfold bind at 1.
  set (w1 := mkWorld _ _ _ _ _).
  destruct (initialize_children_spec mg_replace ges_initialize base_transform
              (children me) ∅
              (ges_new (Datatypes.S (length (children me)))) w1 Hlit)
    as (ds & Hsub & Hnd & _ & Hcov & Hrun).
  rewrite Hrun. clear Hrun. subst w1. simpl.
  exists ds. split; [exact Hsub|]. split; [exact Hnd|]. split.
  { intros c Hc. destruct (Hcov c Hc) as [Hs|Hd]; [set_solver|exact Hd]. }
  unfold bind at 1, allocate. simpl.
  unfold bind at 1, prepare_call.
  rewrite bool_decide_false by lia.
  unfold bind at 1, tell, modify. simpl. rewrite Hprep.
  unfold bind at 1, tell, modify. simpl.
  unfold bind at 1, gets. simpl.
  unfold bind at 1, tell, modify. simpl.
  destruct (ges_eval _ me _ _) as [e|ges2].
  { f_equal. f_equal. by simplify_list_eq. }
  destruct (is_finished (ges_at ges2 0)).
  - unfold bind at 1, allocate. simpl.
    unfold bind, do_replace, bind, tell, modify, ret. simpl.
    f_equal. f_equal. by simplify_list_eq.
  - unfold call_base_transform, bind, tell, modify. simpl.
    f_equal. f_equal. by simplify_list_eq.
Qed.

(** Folding [add 5 3]. *)
Lemma transform_folds_literal_call_witness :
  folds_literal_call Samples.binary Samples.recording_replace
    Samples.literal_initialize Samples.sum_eval Samples.no_transform
    Samples.add_5_3 Samples.empty_world []
    (transform Samples.binary Samples.recording_replace
       Samples.literal_initialize Samples.sum_eval Samples.no_prepare
       Samples.no_transform Samples.add_5_3 Samples.empty_world).
Proof.
  apply (transform_folds_literal_call Samples.binary
           Samples.recording_replace Samples.literal_initialize
           Samples.sum_eval Samples.no_prepare Samples.no_transform
           Samples.add_5_3 Samples.empty_world []).
  - reflexivity.
  - simpl. lia.
  - reflexivity.
Defined.

(** What folding [add 5 3] comes to: the call is replaced by the literal
    8, which owns the pool. *)
Lemma transform_add_5_3 :
  let result :=
    transform Samples.binary Samples.recording_replace
      Samples.literal_initialize Samples.sum_eval Samples.no_prepare
      Samples.no_transform Samples.add_5_3 Samples.empty_world in
  snd result = inr true /\
  merge_graph (fst result) =
    [(Samples.add_5_3, Literal 101 (Some 100) (Samples.num 8))] /\
  index (indices (fst result)) Samples.add_5_3 = 0 /\
  map (index (indices (fst result))) (children Samples.add_5_3) = [1; 2].
Proof. vm_compute. auto. Qed.

End TransformFacts.

(* ------------------------------------------------------------------ *)
(** * Further properties *)

(** ** validate_args and eval_calculate *)

Module ValidateFacts.
Import Eff Functional CallImpl CallRest Observe ObserveRest.

Section Validate.
Variable base : Base.
Variable index : Node -> nat.
Variable to_s : Node -> string.
Variable write_report : Reporter -> string.

Lemma validate_args_sublist g args :
  fst (validate_args base index to_s write_report g args) `sublist_of` args.
Proof.
  induction args as [|[c i] args IH]; simpl; [constructor|].
  destruct (ges_is_finished g (index c)).
  - case_bool_decide; simpl; [reflexivity|]. by apply sublist_cons.
  - destruct (validate_args _ _ _ _ _ args) as [rest r]. simpl in *.
    by apply sublist_skip.
Qed.

Lemma validate_args_keeps g args a :
  a ∈ args -> argument_unfinished index g a = true ->
  a ∈ fst (validate_args base index to_s write_report g args).
Proof.
  induction args as [|[c i] args IH]; intros Hin Hu.
  - by apply elem_of_nil in Hin.
  - simpl. destruct (ges_is_finished g (index c)) eqn:Hf.
    + apply elem_of_cons in Hin as [->|Hin].
      { unfold argument_unfinished in Hu. simpl in Hu. by rewrite Hf in Hu. }
      case_bool_decide; simpl; [|by apply IH].
      apply elem_of_cons. by right.
    + destruct (validate_args _ _ _ _ _ args) as [rest r] eqn:Hv.
      simpl in *. apply elem_of_cons in Hin as [->|Hin].
      * apply elem_of_cons. by left.
      * apply elem_of_cons. right. by apply IH.
Qed.

Lemma validate_args_returns g args :
  snd (validate_args base index to_s write_report g args) = inr tt ->
  forallb (fun a => negb (argument_fails base index g a)) args = true.
Proof.
  induction args as [|[c i] args IH]; intros Hr; [reflexivity|].
  simpl in *. unfold argument_fails at 1. simpl.
  destruct (ges_is_finished g (index c)); simpl.
  - case_bool_decide; simpl in *; [discriminate|]. by apply IH.
  - destruct (validate_args _ _ _ _ _ args) as [rest r]. simpl in *.
    by apply IH.
Qed.

Lemma validate_args_again g args :
  validate_args base index to_s write_report g
    (fst (validate_args base index to_s write_report g args)) =
  validate_args base index to_s write_report g args.
Proof.
  induction args as [|[c i] args IH]; [reflexivity|].
  simpl. destruct (ges_is_finished g (index c)) eqn:Hf.
  - case_bool_decide as He; simpl; [|exact IH].
    rewrite Hf. by rewrite bool_decide_true.
  - destruct (validate_args _ _ _ _ _ args) as [rest r] eqn:Hv.
    simpl in *. rewrite Hf, IH. reflexivity.
Qed.

End Validate.

(** X1.  [validate_args] never adds, reorders or drops an argument that
    has not finished: what it leaves is a sublist of the arguments that
    holds every unfinished one; and when it returns, no argument fails
    and what it leaves is exactly the unfinished arguments, in order. *)
Theorem validate_args_erases_only_validated
    (base : Base) (index : Node -> nat) (to_s : Node -> string)
    (write_report : Reporter -> string) (g : GraphEvalState)
    (args : arg_list_t) :
  let result := validate_args base index to_s write_report g args in
  fst result `sublist_of` args /\
  (forall a, a ∈ args -> argument_unfinished index g a = true ->
             a ∈ fst result) /\
  match snd result with
  | inr _ =>
      fst result = List.filter (argument_unfinished index g) args /\
      forallb (fun a => negb (argument_fails base index g a)) args = true
  | inl _ =>
      exists a, a ∈ fst result /\ argument_fails base index g a = true
  end.
Proof.
  intros result. subst result.
  split; [apply validate_args_sublist|].
  split; [intros a; apply validate_args_keeps|].
  destruct (snd (validate_args base index to_s write_report g args))
    as [e|[]] eqn:Hr.
  - clear -Hr. induction args as [|[c i] args IH]; [discriminate|].
    simpl in *. destruct (ges_is_finished g (index c)) eqn:Hf.
    + case_bool_decide as He; simpl in *.
      * exists (c, i). split; [apply elem_of_cons; by left|].
        unfold argument_fails. simpl. rewrite Hf. simpl.
        by apply bool_decide_eq_true.
      * by apply IH.
    + destruct (validate_args _ _ _ _ _ args) as [rest r]. simpl in *.
      destruct (IH Hr) as (a & Ha & Hfa). exists a.
      split; [apply elem_of_cons; by right|exact Hfa].
  - pose proof (validate_args_returns base index to_s write_report g args Hr)
      as Hok.
    split; [|exact Hok].
    by rewrite (CalculateFacts.validate_args_success base index to_s
                  write_report g args Hok).
Qed.

(** X2.  [validate_args] applied to what it has left, with the same graph
    state, leaves the same and ends the same: an argument that passed is
    not validated again, and a failure is thrown again. *)
Theorem validate_args_idempotent
    (base : Base) (index : Node -> nat) (to_s : Node -> string)
    (write_report : Reporter -> string) (g : GraphEvalState)
    (args : arg_list_t) :
  let result := validate_args base index to_s write_report g args in
  validate_args base index to_s write_report g (fst result) = result /\
  (snd result = inr tt ->
   forallb (argument_unfinished index g) (fst result) = true).
Proof.
  intros result. subst result. split.
  - rewrite validate_args_again. by destruct (validate_args _ _ _ _ _ _).
  - intros Hr.
    pose proof (validate_args_returns base index to_s write_report g args Hr)
      as Hok.
    rewrite (CalculateFacts.validate_args_success base index to_s
               write_report g args Hok). simpl.
    clear. induction args as [|a args IH]; [reflexivity|]. simpl.
    destruct (argument_unfinished index g a) eqn:Ha; simpl; [|exact IH].
    by rewrite Ha.
Qed.

End ValidateFacts.

(** ** eval_initialize and eval_calculate *)

Module CalculateMore.
Import Eff Functional CallImpl CallRest Observe ObserveRest.

Lemma num_errors_report node (said : Remarks) :
  num_errors (report node said []) = length (List.filter fst said).
Proof.
  unfold num_errors, report. simpl.
  induction said as [|[e m] said IH]; [reflexivity|]. simpl.
  destruct e; simpl; by rewrite IH.
Qed.

Lemma non_literal_children_elem cs :
  forall k c i,
    (c, i) ∈ non_literal_children cs k <->
    exists j, cs !! j = Some c /\ i = k + j /\ is_literal c = false.
Proof.
  induction cs as [|d cs IH]; intros k c i; simpl.
  - split; [intros H; by apply elem_of_nil in H|intros (j & H & _)].
    by rewrite lookup_nil in H.
  - destruct (is_literal d) eqn:Hd; simpl.
    + rewrite IH. split.
      * intros (j & Hj & -> & Hc). exists (Datatypes.S j).
        split; [exact Hj|]. split; [lia|exact Hc].
      * intros ([|j] & Hj & -> & Hc); simpl in Hj.
        -- injection Hj as ->. congruence.
        -- exists j. split; [exact Hj|]. split; [lia|exact Hc].
    + rewrite elem_of_cons, IH. split.
      * intros [Heq|(j & Hj & -> & Hc)].
        -- injection Heq as -> ->. exists 0. split; [reflexivity|].
           split; [lia|exact Hd].
        -- exists (Datatypes.S j). split; [exact Hj|]. split; [lia|exact Hc].
      * intros ([|j] & Hj & -> & Hc); simpl in Hj.
        -- injection Hj as ->. left. f_equal. lia.
        -- right. exists j. split; [exact Hj|]. split; [lia|exact Hc].
Qed.

Lemma positions_partition cs :
  forall k,
    map fst (literal_arguments cs k) ++ map snd (non_literal_children cs k)
    ≡ₚ seq k (length cs).
Proof.
  induction cs as [|d cs IH]; intros k; simpl; [reflexivity|].
  destruct (is_literal d); simpl.
  - by rewrite IH.
  - rewrite <- Permutation_middle. by rewrite IH.
Qed.

(** X3.  [Call::eval_initialize] lists as unfinished exactly the children
    that are not literal, each with its position; together with the
    positions of the literal children, which the transformation passes
    validate, these are all the positions, each once: an argument is
    validated at one of the two times. *)
Theorem eval_initialize_lists_non_literal_children
    {X : Type} (base_eval_initialize : Node -> GraphEvalState -> X)
    (me : Node) (g : GraphEvalState) :
  let cs := eval_initialize base_eval_initialize me g in
  (forall c i,
     (c, i) ∈ unfinished cs <->
     children me !! i = Some c /\ is_literal c = false) /\
  map fst (literal_arguments (children me) 0) ++ map snd (unfinished cs)
    ≡ₚ seq 0 (length (children me)) /\
  substate cs = base_eval_initialize me g.
Proof.
  intros cs. subst cs. simpl. split; [|split].
  - intros c i. rewrite non_literal_children_elem. split.
    + intros (j & Hj & -> & Hc). auto.
    + intros [Hi Hc]. exists i. auto.
  - apply positions_partition.
  - reflexivity.
Qed.

Section Calculate.
Context {X : Type}.
Variable base : Base.
Variable index : Node -> nat.
Variable to_s : Node -> string.
Variable write_report : Reporter -> string.
Variable base_eval : Node -> M (GraphEvalState * X) unit.

Lemma eval_calculate_run me (fr : CalcFrame X) :
  eval_calculate base index to_s write_report base_eval me fr =
    match validate_args base index to_s write_report (ges fr)
            (unfinished (call_state fr)) with
    | (args, inl e) =>
        (mkCalcFrame (ges fr) (mkCallState args (substate (call_state fr)))
                     (base_eval_calls fr), inl e)
    | (args, inr _) =>
        match base_eval me (ges fr, substate (call_state fr)) with
        | ((g, x), r) =>
            (mkCalcFrame g (mkCallState args x)
                         (Datatypes.S (base_eval_calls fr)), r)
        end
    end.
Proof. reflexivity. Qed.

End Calculate.

(** X4.  When [Call::eval_calculate] has thrown without entering
    [Base::eval], the graph state is as it was, and the same call on what
    is left throws the same exception and leaves the same again: the
    failure is not recoverable by calling again. *)
Theorem eval_calculate_failure_repeats
    {X : Type} (base : Base) (index : Node -> nat) (to_s : Node -> string)
    (write_report : Reporter -> string)
    (base_eval : Node -> M (GraphEvalState * X) unit)
    (me : Node) (fr : CalcFrame X) (e : exn) :
  let result :=
    eval_calculate base index to_s write_report base_eval me fr in
  snd result = inl e ->
  base_eval_calls (fst result) = base_eval_calls fr ->
  ges (fst result) = ges fr /\
  substate (call_state (fst result)) = substate (call_state fr) /\
  eval_calculate base index to_s write_report base_eval me (fst result)
    = result.
Proof.
  intros result He Hcalls. subst result.
  rewrite eval_calculate_run in *.
  pose proof (ValidateFacts.validate_args_again base index to_s write_report
                (ges fr) (unfinished (call_state fr))) as Hagain.
  destruct (validate_args base index to_s write_report (ges fr)
              (unfinished (call_state fr))) as [args [e'|[]]] eqn:Hv.
  - simpl in *. split; [reflexivity|]. split; [reflexivity|].
    rewrite eval_calculate_run. simpl. by rewrite Hagain.
  - destruct (base_eval me _) as [[g x] r]. simpl in Hcalls. lia.
Qed.

(** X5.  When [validate_argument] reports no error (as the default, which
    reports nothing), [Call::eval_calculate] does not throw on account of
    an argument: it erases the finished arguments from the list, enters
    [Base::eval] once and ends as that does. *)
Theorem eval_calculate_without_errors
    {X : Type} (base : Base) (index : Node -> nat) (to_s : Node -> string)
    (write_report : Reporter -> string)
    (base_eval : Node -> M (GraphEvalState * X) unit)
    (me : Node) (fr : CalcFrame X) :
  (forall n v, List.filter fst (validate_argument base n v) = []) ->
  eval_calculate base index to_s write_report base_eval me fr =
    match base_eval me (ges fr, substate (call_state fr)) with
    | ((g, x), r) =>
        (mkCalcFrame g
           (mkCallState
              (List.filter (argument_unfinished index (ges fr))
                           (unfinished (call_state fr))) x)
           (Datatypes.S (base_eval_calls fr)), r)
    end.
Proof.
  intros Hno. rewrite eval_calculate_run.
  rewrite (CalculateFacts.validate_args_success base index to_s write_report).
  - reflexivity.
  - apply forallb_forall. intros [c i] _. unfold argument_fails. simpl.
    rewrite num_errors_report, Hno. simpl. by rewrite andb_false_r.
Qed.

(** A call of a function with the default [validate_argument] whose one
    argument has finished. *)
Lemma eval_calculate_without_errors_witness :
  let x := Call 1 "x" [] in
  let g := [fresh_state; mkNodeEvalState (Samples.num (-1)) true None] in
  eval_calculate (Base_with_defaults 0 1) node_id Samples.sample_to_s
    Samples.sample_write_report (fun _ => ret tt) (Call 0 "f" [x])
    (mkCalcFrame g (mkCallState [(x, 0)] tt) 0) =
  (mkCalcFrame g (mkCallState [] tt) 1, inr tt).
Proof.
  apply (eval_calculate_without_errors (Base_with_defaults 0 1) node_id
           Samples.sample_to_s Samples.sample_write_report
           (fun _ => ret tt) (Call 0 "f" [Call 1 "x" []])
           (mkCalcFrame
              [fresh_state; mkNodeEvalState (Samples.num (-1)) true None]
              (mkCallState [(Call 1 "x" [], 0)] tt) 0)).
  reflexivity.
Defined.

(** The failing call of [nonnegative] on -1, once more. *)
Lemma eval_calculate_failure_repeats_witness :
  let x := Call 1 "x" [] in
  let g := [fresh_state; mkNodeEvalState (Samples.num (-1)) true None] in
  let fr := mkCalcFrame g (mkCallState [(x, 0)] tt) 0 in
  let result :=
    eval_calculate Samples.nonnegative node_id Samples.sample_to_s
      Samples.sample_write_report (fun _ => ret tt) (Call 0 "sqrt" [x]) fr in
  ges (fst result) = ges fr /\
  substate (call_state (fst result)) = substate (call_state fr) /\
  eval_calculate Samples.nonnegative node_id Samples.sample_to_s
    Samples.sample_write_report (fun _ => ret tt) (Call 0 "sqrt" [x])
    (fst result) = result.
Proof.
  apply (eval_calculate_failure_repeats Samples.nonnegative node_id
           Samples.sample_to_s Samples.sample_write_report
           (fun _ => ret tt) (Call 0 "sqrt" [Call 1 "x" []])
           (mkCalcFrame
              [fresh_state; mkNodeEvalState (Samples.num (-1)) true None]
              (mkCallState [(Call 1 "x" [], 0)] tt) 0)
           (einval
              "Argument validation failed: n=0 report=negative arg=(x)"));
    reflexivity.
Defined.

End CalculateMore.

(** ** Simple, Constant and Primary under a call *)

Module ArgumentsMore.
Import Eff Functional CallImpl CallRest Observe ObserveRest.

Lemma filter_unfinished_nil index g (args : arg_list_t) :
  Forall (fun a : arg_with_index_t => ges_is_finished g (index a.1) = true)
         args ->
  List.filter (argument_unfinished index g) args = [].
Proof.
  induction 1 as [|a args Ha _ IH]; [reflexivity|]. simpl.
  unfold argument_unfinished at 1. by rewrite Ha.
Qed.

Lemma Simple_eval_run ns nd eval_simple index me g calls :
  length (children me) = nd + ns ->
  Forall (fun c => ges_is_finished g (index c) = true) (children me) ->
  is_finished (ges_at g (index me)) = false ->
  let args :=
    replicate nd VNull ++
    map (fun c => ges_value g (index c)) (drop ns (children me)) in
  Simple_eval ns nd eval_simple index me (g, calls) =
    ((ges_set g (index me)
        (mkNodeEvalState (eval_simple args) true
           (local_values (ges_at g (index me)))),
      calls ++ [args]), inr tt).
Proof.
  intros Hn Hall Hme args. unfold Simple_eval.
  rewrite bool_decide_true by exact Hn. simpl.
  unfold bind at 1, gets. simpl.
  rewrite SimpleFacts.Simple_collect_spec. simpl.
  rewrite Nat.sub_0_r.
  assert (forallb (fun c => ges_is_finished g (index c))
            (drop ns (children me)) = true) as ->.
  { apply forallb_forall. intros c Hc. apply list_elem_of_In in Hc.
    apply (subseteq_drop ns) in Hc.
    rewrite Forall_forall in Hall. by apply Hall. }
  fold args. unfold bind, modify, ges_finish_value. simpl.
  by rewrite (StateFacts.finish_value_running _ _ Hme).
Qed.

(** X6.  A call of a Simple function, initialized and then evaluated when
    all its children are finished and none of the non-literal ones fails
    validation: the list of unfinished arguments becomes empty,
    [Base::eval] is entered once, [eval_simple] is called once and the
    node is finished with what it returns. *)
Theorem Simple_call_finishes_in_one_calculation
    (base : Base) (index : Node -> nat) (to_s : Node -> string)
    (write_report : Reporter -> string) (eval_simple : value_vec_t -> Value)
    (me : Node) (g : GraphEvalState) (calls : list value_vec_t) :
  length (children me) = num_dynamic_args base + num_static_args base ->
  Forall (fun c => ges_is_finished g (index c) = true) (children me) ->
  forallb (fun a => negb (argument_fails base index g a))
          (non_literal_children (children me) 0) = true ->
  is_finished (ges_at g (index me)) = false ->
  let args :=
    replicate (num_dynamic_args base) VNull ++
    map (fun c => ges_value g (index c))
        (drop (num_static_args base) (children me)) in
  eval_calculate base index to_s write_report
    (Simple_as_base_eval (num_static_args base) (num_dynamic_args base)
       eval_simple index)
    me
    (mkCalcFrame g (eval_initialize (Base_eval_initialize calls) me g) 0) =
  (mkCalcFrame
     (ges_set g (index me)
        (mkNodeEvalState (eval_simple args) true
           (local_values (ges_at g (index me)))))
     (mkCallState [] (calls ++ [args])) 1,
   inr tt).
Proof.
  intros Hn Hall Hvalid Hme args.
  rewrite CalculateMore.eval_calculate_run. simpl.
  rewrite (CalculateFacts.validate_args_success base index to_s write_report
             g _ Hvalid).
  rewrite filter_unfinished_nil.
  - unfold Simple_as_base_eval, Base_eval_initialize.
    rewrite (Simple_eval_run _ _ eval_simple index me g calls Hn Hall Hme).
    reflexivity.
  - apply Forall_forall. intros [c i] Hci.
    apply CalculateMore.non_literal_children_elem in Hci
      as (j & Hj & _ & _). simpl.
    rewrite Forall_forall in Hall. apply Hall.
    by eapply list_elem_of_lookup_2.
Qed.

(** The call [sum x 3] when [x] has finished with 5: the sum function sees
    the two leading nulls, which it skips. *)
Lemma Simple_call_finishes_in_one_calculation_witness :
  let x := Call 1 "x" [] in
  let me := Call 0 "sum" [x; Literal 2 None (Samples.num 3)] in
  let g := [fresh_state; mkNodeEvalState (Samples.num 5) true None;
            mkNodeEvalState (Samples.num 3) true None] in
  eval_calculate Samples.binary node_id Samples.sample_to_s
    Samples.sample_write_report
    (Simple_as_base_eval 0 2 Samples.sum_numbers node_id) me
    (mkCalcFrame g (eval_initialize (Base_eval_initialize []) me g) 0) =
  (mkCalcFrame
     [mkNodeEvalState (Samples.num 8) true None;
      mkNodeEvalState (Samples.num 5) true None;
      mkNodeEvalState (Samples.num 3) true None]
     (mkCallState [] [[VNull; VNull; Samples.num 5; Samples.num 3]]) 1,
   inr tt).
Proof.
  apply (Simple_call_finishes_in_one_calculation Samples.binary node_id
           Samples.sample_to_s Samples.sample_write_report
           Samples.sum_numbers
           (Call 0 "sum" [Call 1 "x" []; Literal 2 None (Samples.num 3)])
           [fresh_state; mkNodeEvalState (Samples.num 5) true None;
            mkNodeEvalState (Samples.num 3) true None] []).
  - reflexivity.
  - repeat constructor.
  - reflexivity.
  - reflexivity.
Defined.

(** X7.  [Constant]: evaluating an unfinished node without children
    finishes it with the constant, whatever the graph state, calling
    [eval_simple] once with an empty argument vector; on a node with
    children the arity assertion fails and nothing changes. *)
Theorem Constant_eval_finishes_with_its_value
    (m_value : Value) (index : Node -> nat) (me : Node)
    (g : GraphEvalState) (calls : list value_vec_t) :
  is_finished (ges_at g (index me)) = false ->
  Constant_eval m_value index me (g, calls) =
    match children me with
    | [] =>
        ((ges_set g (index me)
            (mkNodeEvalState m_value true
               (local_values (ges_at g (index me)))),
          calls ++ [[]]), inr tt)
    | _ :: _ =>
        ((g, calls),
         inl (assertion_failed "n == num_dynamic_args() + num_static_args()"))
    end.
Proof.
  intros Hme. unfold Constant_eval.
  destruct (children me) as [|c cs] eqn:Hc.
  - rewrite (Simple_eval_run 0 0 _ index me g calls); rewrite ?Hc; auto.
  - unfold Simple_eval. rewrite Hc. reflexivity.
Qed.

Lemma Constant_eval_finishes_with_its_value_witness :
  Constant_eval (Samples.num 5) node_id (Call 0 "five" [])
    ([fresh_state], []) =
  (([mkNodeEvalState (Samples.num 5) true None], [[]]), inr tt).
Proof.
  apply (Constant_eval_finishes_with_its_value (Samples.num 5) node_id
           (Call 0 "five" []) [fresh_state] []).
  reflexivity.
Defined.

(** X8.  [Primary::eval] on a node without children fails its assertion;
    on a node whose last child is [prim] it looks at the children between
    the static arguments and [prim] only: if one of them is unfinished it
    returns without effect and without calling [eval_primary]; if not,
    [eval_primary] gets their values, without leading nulls, and the state
    of [prim] as it is, finished or not, also when [prim] is at a static
    position. *)
Theorem Primary_eval_hands_over_the_last_child
    {X : Type} (num_static_args : nat) (index : Node -> nat)
    (eval_primary : value_vec_t -> NodeEvalState -> M (NodeEvalState * X) unit)
    (me : Node) (g : GraphEvalState) (x : X) :
  Primary_eval num_static_args index eval_primary me (g, x) =
    match reverse (children me) with
    | [] => ((g, x), inl (assertion_failed "primary_state"))
    | prim :: rfront =>
        let secondary := drop num_static_args (reverse rfront) in
        if forallb (fun c => ges_is_finished g (index c)) secondary then
          match eval_primary (map (fun c => ges_value g (index c)) secondary)
                  (ges_at g (index prim)) (ges_at g (index me), x) with
          | ((my_state', x'), r) => ((ges_set g (index me) my_state', x'), r)
          end
        else ((g, x), inr tt)
    end.
Proof.
  destruct (reverse (children me)) as [|prim rfront] eqn:Hr.
  - apply (f_equal reverse) in Hr. rewrite reverse_involutive in Hr.
    unfold Primary_eval. rewrite Hr. reflexivity.
  - apply (f_equal reverse) in Hr. rewrite reverse_involutive in Hr.
    rewrite reverse_cons in Hr.
    apply (SimpleFacts.Primary_eval_spec num_static_args index eval_primary
             me (reverse rfront) prim g x Hr).
Qed.

End ArgumentsMore.

(** ** Call: validation after transformation *)

Module PostTransformFacts.
Import Eff Functional CallImpl CallRest Observe ObserveRest.

Lemma literal_arguments_app cs1 :
  forall cs2 i,
    literal_arguments (cs1 ++ cs2) i =
    literal_arguments cs1 i ++ literal_arguments cs2 (i + length cs1).
Proof.
  induction cs1 as [|c cs1 IH]; intros cs2 i; simpl.
  - by rewrite Nat.add_0_r.
  - rewrite IH, <- app_assoc. do 3 f_equal. lia.
Qed.

Section PostTransform.
Variable base : Base.
Variable nth_child_is_literal : Node -> nat -> bool * Remarks.
Variable me : Node.

Lemma validate_static_children_spec n cs :
  forall i fr,
    i + length cs = n ->
    (forall j c, cs !! j = Some c ->
                 fst (nth_child_is_literal me (i + j)) = is_literal c) ->
    let m := num_static_args base - i in
    exists fr',
      validate_static_children base nth_child_is_literal me n cs i fr =
        (fr', drop m cs, i + length (take m cs)) /\
      validated fr' = validated fr ++ literal_arguments (take m cs) i.
Proof.
  induction cs as [|c cs IH]; intros i fr Hn Hnth m.
  - exists fr. simpl. rewrite drop_nil, take_nil. simpl.
    rewrite Nat.add_0_r, app_nil_r. auto.
  - simpl in Hn. simpl. case_bool_decide as Hi.
    + assert (m = Datatypes.S (num_static_args base - Datatypes.S i)) as Hm
        by (subst m; lia).
      rewrite Hm. simpl.
      pose proof (Hnth 0 c eq_refl) as H0. rewrite Nat.add_0_r in H0.
      destruct (nth_child_is_literal me i) as [lit said]. simpl in H0.
      subst lit.
      set (fr1 := if is_literal c then _ else _).
      destruct (IH (Datatypes.S i) fr1) as (fr' & Hrun & Hval).
      * lia.
      * intros j d Hj. replace (Datatypes.S i + j) with (i + Datatypes.S j)
          by lia. by apply Hnth.
      * exists fr'. split.
        -- rewrite Hrun. f_equal. lia.
        -- rewrite Hval. subst fr1.
           destruct (is_literal c); simpl; [|reflexivity].
           by rewrite <- app_assoc.
    + assert (m = 0) as -> by (subst m; lia).
      exists fr. simpl. rewrite Nat.add_0_r, app_nil_r. auto.
Qed.

End PostTransform.

(** X9.  [Call::post_transform], given a [nth_child_is_literal] that tells
    the truth, invokes [validate_argument] on every literal child with its
    position and value, in order, and on nothing else, whatever the number
    of children; on a node with the right number of children these are the
    invocations of [pre_transform]. *)
Theorem post_transform_validates_literal_children
    (base : Base) (parent_pre_transform parent_post_transform : Node -> Remarks)
    (n_children_message : nat -> nat -> string)
    (nth_child_is_literal : Node -> nat -> bool * Remarks)
    (me : Node) (fr : PreFrame) :
  (forall i c, children me !! i = Some c ->
               fst (nth_child_is_literal me i) = is_literal c) ->
  let after :=
    post_transform base parent_post_transform nth_child_is_literal me fr in
  validated after = validated fr ++ literal_arguments (children me) 0 /\
  (length (children me) = num_static_args base + num_dynamic_args base ->
   validated (pre_transform base parent_pre_transform n_children_message
                me fr) = validated after).
Proof.
  intros Hnth after.
  assert (Hafter :
    validated after = validated fr ++ literal_arguments (children me) 0).
  { subst after. unfold post_transform.
    set (fr0 := mkPreFrame _ _).
    destruct (validate_static_children_spec base nth_child_is_literal me
                (length (children me)) (children me) 0 fr0 eq_refl Hnth)
      as (fr' & Hrun & Hval).
    simpl in Hrun. rewrite Nat.sub_0_r in *. rewrite Hrun.
    rewrite PreTransformFacts.validate_literal_children_spec. simpl.
    rewrite Hval. subst fr0. simpl. rewrite <- app_assoc. f_equal.
    symmetry.
    rewrite <- (take_drop (num_static_args base) (children me)) at 1.
    by rewrite literal_arguments_app. }
  split; [exact Hafter|]. intros Hn. rewrite Hafter.
  unfold pre_transform, n_children. simpl.
  rewrite bool_decide_true by exact Hn. simpl.
  rewrite PreTransformFacts.validate_literal_children_spec. reflexivity.
Qed.

Lemma post_transform_validates_literal_children_witness :
  let helper := fun (me : Node) (i : nat) =>
    match children me !! i with
    | Some c => (is_literal c, if is_literal c then [] else [(true, "literal")])
    | None => (false, [(true, "missing")])
    end in
  let me := Call 0 "sum" [Literal 1 None (Samples.num 3); Call 2 "x" [];
                          Literal 3 None (Samples.num 4)] in
  validated
    (post_transform (mkBase 1 2 (fun _ _ => [])) (fun _ => []) helper me
       (mkPreFrame [] [])) =
  [] ++ [(0, Samples.num 3); (2, Samples.num 4)].
Proof.
  apply (post_transform_validates_literal_children
           (mkBase 1 2 (fun _ _ => [])) (fun _ => []) (fun _ => [])
           (fun _ _ => "")
           (fun (me : Node) (i : nat) =>
              match children me !! i with
              | Some c =>
                  (is_literal c, if is_literal c then [] else [(true, "literal")])
              | None => (false, [(true, "missing")])
              end)
           (Call 0 "sum" [Literal 1 None (Samples.num 3); Call 2 "x" [];
                          Literal 3 None (Samples.num 4)])
           (mkPreFrame [] [])).
  intros i c Hi. rewrite Hi. reflexivity.
Defined.

End PostTransformFacts.

(** ** Call: what folding does to the graph and to the indices *)

Module TransformMore.
Import Eff Functional CallImpl CallRest Observe ObserveRest.

Lemma assign_indices_cons d cs i (st : IndexStore) :
  assign_indices (d :: cs) i st =
    assign_indices cs (Datatypes.S i) (set_index d i st).
Proof.
  unfold assign_indices. simpl. rewrite Nat.add_0_r. f_equal.
  apply imap_ext. intros j x _. simpl. f_equal. lia.
Qed.

Lemma index_set_index_eq d c i (st : IndexStore) :
  node_id d = node_id c -> index (set_index d i st) c = i.
Proof.
  intros Hid. unfold index, set_index, IndexStore in *. rewrite Hid.
  by rewrite lookup_insert_eq.
Qed.

Lemma index_set_index_ne d c i (st : IndexStore) :
  node_id d <> node_id c -> index (set_index d i st) c = index st c.
Proof.
  intros Hid. unfold index, set_index, IndexStore in *.
  by rewrite lookup_insert_ne.
Qed.

Lemma assign_indices_other cs :
  forall i st c,
    node_id c ∉ map node_id cs ->
    index (assign_indices cs i st) c = index st c.
Proof.
  induction cs as [|d cs IH]; intros i st c Hc; [reflexivity|].
  rewrite assign_indices_cons. simpl in Hc.
  apply not_elem_of_cons in Hc as [Hd Hc].
  rewrite IH by exact Hc. apply index_set_index_ne. congruence.
Qed.

Lemma assign_indices_range cs :
  forall i st c,
    node_id c ∈ map node_id cs ->
    i <= index (assign_indices cs i st) c < i + length cs.
Proof.
  induction cs as [|d cs IH]; intros i st c Hc.
  - by apply elem_of_nil in Hc.
  - rewrite assign_indices_cons. simpl.
    destruct (decide (node_id c ∈ map node_id cs)) as [Hin|Hout].
    + specialize (IH (Datatypes.S i) (set_index d i st) c Hin). lia.
    + rewrite assign_indices_other by exact Hout.
      simpl in Hc. apply elem_of_cons in Hc as [Hd|Hc]; [|done].
      rewrite index_set_index_eq by congruence. lia.
Qed.

(** The last assignment stands: a child that does not occur again after
    position [j] keeps the index it is given there. *)
Lemma assign_indices_position cs :
  forall i st j c,
    cs !! j = Some c ->
    node_id c ∉ map node_id (drop (Datatypes.S j) cs) ->
    index (assign_indices cs i st) c = i + j.
Proof.
  induction cs as [|d cs IH]; intros i st j c Hj Hlast.
  - by rewrite lookup_nil in Hj.
  - rewrite assign_indices_cons.
    destruct j as [|j]; simpl in Hj.
    + injection Hj as ->. simpl in Hlast. rewrite drop_0 in Hlast.
      rewrite assign_indices_other by exact Hlast.
      rewrite index_set_index_eq by reflexivity. lia.
    + simpl in Hlast. rewrite (IH (Datatypes.S i) _ j c Hj Hlast). lia.
Qed.

(** X10.  The two index loops of [Call::transform]: afterwards every child
    has an index from 1 to K, so within the evaluation state of size K+1;
    the node has index 0 unless it is among its children; every child has
    one plus the position of its last occurrence among the children, so a
    child that occurs once has its position plus one, whatever the other
    children are; and the index of no other node has changed. *)
Theorem transform_indices_are_within_bounds
    {MergeGraph : Type} (me : Node) (w : World (MergeGraph:=MergeGraph)) :
  let cs := children me in
  let result := bind (do_set_index me 0) (fun _ => index_children cs 1) w in
  let idx := indices (fst result) in
  snd result = inr (Datatypes.S (length cs)) /\
  (forall c, c ∈ cs -> 1 <= index idx c <= length cs) /\
  (node_id me ∉ map node_id cs -> index idx me = 0) /\
  (forall j c,
     cs !! j = Some c ->
     node_id c ∉ map node_id (drop (Datatypes.S j) cs) ->
     index idx c = Datatypes.S j) /\
  (forall n, node_id n <> node_id me -> node_id n ∉ map node_id cs ->
             index idx n = index (indices w) n).
Proof.
  intros cs result idx. subst idx result.
  unfold bind, do_set_index, bind, tell, modify. simpl.
  rewrite TransformFacts.index_children_spec. simpl.
  split; [reflexivity|]. split; [|split; [|split]].
  - intros c Hc.
    assert (node_id c ∈ map node_id cs) as Hid
      by (apply list_elem_of_fmap; eauto).
    pose proof (assign_indices_range cs 1 (set_index me 0 (indices w)) c Hid).
    lia.
  - intros Hme. rewrite assign_indices_other by exact Hme.
    by apply index_set_index_eq.
  - intros j c Hj Hlast.
    by rewrite (assign_indices_position cs 1 _ j c Hj Hlast).
  - intros n Hn Hcs. rewrite assign_indices_other by exact Hcs.
    apply index_set_index_ne. congruence.
Qed.

Section Transform.
Variable base : Base.
Context {MergeGraph : Type}.
Variable mg_replace : Node -> Node -> MergeGraph -> MergeGraph.
Variable ges_initialize :
  IndexStore -> Node -> EvalContext -> GraphEvalState -> GraphEvalState.
Variable ges_eval :
  IndexStore -> Node -> EvalContext -> GraphEvalState -> exn + GraphEvalState.
Variable base_prepare : nat -> value_vec_t -> Reporter -> exn + Reporter.

Lemma transform_graph me (w : World (MergeGraph:=MergeGraph)) :
  let result :=
    transform base mg_replace ges_initialize ges_eval base_prepare
      Base_transform me w in
  match snd result with
  | inr true =>
      forallb is_literal (children me) = true /\
      exists a pool v,
        merge_graph (fst result) =
          mg_replace me (Literal a (Some pool) v) (merge_graph w)
  | inr false => merge_graph (fst result) = merge_graph w
  | inl _ => merge_graph (fst result) = merge_graph w
  end.
Proof.
  intros result. subst result.
  destruct (transform _ _ _ _ _ _ me w) as [w' r] eqn:Hrun. simpl.
  unfold transform in Hrun.
  destruct (forallb is_literal (children me)) eqn:Hlit; simpl in Hrun;
    [|by inversion Hrun].
  unfold bind at 1, do_set_index, bind at 1, tell, modify in Hrun.
  simpl in Hrun.
  unfold bind at 1 in Hrun.
  rewrite TransformFacts.index_children_spec in Hrun. simpl in Hrun.
  unfold bind at 1, tell, modify in Hrun. simpl in Hrun.
  unfold bind at 1 in Hrun.
  set (w1 := mkWorld _ _ _ _ _) in Hrun.
  destruct (TransformFacts.initialize_children_spec mg_replace ges_initialize
              Base_transform (children me) ∅
              (ges_new (Datatypes.S (length (children me)))) w1 Hlit)
    as (ds & _ & _ & _ & _ & Hinit).
  rewrite Hinit in Hrun. clear Hinit. subst w1. simpl in Hrun.
  unfold bind at 1, allocate in Hrun. simpl in Hrun.
  unfold bind at 1, prepare_call in Hrun.
  case_bool_decide; [by inversion Hrun|].
  unfold bind at 1, tell, modify in Hrun. simpl in Hrun.
  destruct (base_prepare _ _ _) as [e|r']; [by inversion Hrun|].
  unfold bind at 1, tell, modify in Hrun. simpl in Hrun.
  unfold bind at 1, gets in Hrun. simpl in Hrun.
  unfold bind at 1, tell, modify in Hrun. simpl in Hrun.
  destruct (ges_eval _ me _ _) as [e|ges2]; [by inversion Hrun|].
  destruct (is_finished (ges_at ges2 0)).
  - unfold bind at 1, allocate in Hrun. simpl in Hrun.
    unfold bind, do_replace, bind, tell, modify, ret in Hrun. simpl in Hrun.
    inversion Hrun; subst. simpl. split; [reflexivity|]. eauto.
  - by inversion Hrun.
Qed.

End Transform.

(** X11.  [Call::transform] of a function that keeps the default
    [Base::transform]: the result is true only for a node all of whose
    children are literal, and then the merge graph is the old one with the
    node replaced by a literal that owns a pool; when the result is false,
    or [transform] throws, the merge graph is as it was. *)
Theorem transform_replaces_only_when_true
    {MergeGraph : Type} (base : Base)
    (mg_replace : Node -> Node -> MergeGraph -> MergeGraph)
    (ges_initialize :
       IndexStore -> Node -> EvalContext -> GraphEvalState -> GraphEvalState)
    (ges_eval :
       IndexStore -> Node -> EvalContext -> GraphEvalState
       -> exn + GraphEvalState)
    (base_prepare : nat -> value_vec_t -> Reporter -> exn + Reporter)
    (me : Node) (w : World (MergeGraph:=MergeGraph)) :
  let result :=
    transform base mg_replace ges_initialize ges_eval base_prepare
      Base_transform me w in
  match snd result with
  | inr true =>
      forallb is_literal (children me) = true /\
      exists a pool v,
        merge_graph (fst result) =
          mg_replace me (Literal a (Some pool) v) (merge_graph w)
  | inr false => merge_graph (fst result) = merge_graph w
  | inl _ => merge_graph (fst result) = merge_graph w
  end.
Proof. apply transform_graph. Qed.

End TransformMore.

(** ** Streams that are consumed to the end *)

Module Exhaustive.
Import Eff Functional Observe ObserveRest StateFacts Cursor Streaming.

(** A combinator that keeps running through all of [L]: [W k] holds of what
    the hooks see after [k] elements, [W' k] once [ready] has run; it is
    finished by [finish()] when the primary argument is. *)
Section Exhaustive.
Context {S : Type} {Hooks : EachHooks S}.
Variable args : value_vec_t.
Variable nm : string.
Variable L : list Value.
Variables W W' : nat -> HookFrame S -> Prop.
Hypothesis W_running :
  forall k hf, W k hf -> is_finished (h_my_state hf) = false.
Hypothesis W'_W : forall k hf, W' k hf -> W k hf.
Hypothesis ready_W : forall k l hf,
  W k hf -> exists hf', ready args (VList nm l) hf = (hf', inr tt) /\ W' k hf'.
Hypothesis ready_closed : forall l hf0,
  W' (length L) hf0 ->
  let closed :=
    mkHookFrame (finished_as (h_my_state hf0)) (h_substate hf0)
                (h_calls hf0) in
  ready args (VList nm l) closed = (closed, inr tt).
Hypothesis each_W : forall k l v hf,
  L !! k = Some v -> W' k hf ->
  exists hf', eval_each args (VList nm l) v hf = (hf', inr tt) /\
              W' (Datatypes.S k) hf'.

Lemma waiting_weaken k (f : EachFrame S) : waiting W' k f -> waiting W k f.
Proof. intros (Hw & Hc & Hs). split; [by apply W'_W|]. auto. Qed.

Lemma finish_closes (f : EachFrame S) :
  W' (length L) (hook_view f) ->
  exists f', on_my_state finish f = (f', inr tt) /\
             my_state f' = finished_as (my_state f) /\
             closed_after W' L f'.
Proof.
  intros Hw. pose proof (W_running _ _ (W'_W _ _ Hw)) as Hrun.
  simpl in Hrun.
  unfold on_my_state. rewrite (finish_running _ Hrun).
  eexists. split; [reflexivity|]. split; [reflexivity|].
  exists (hook_view f). split; [exact Hw|]. reflexivity.
Qed.

Lemma exhaustive_step l l' p (f : EachFrame S) :
  waiting W (length l) f ->
  l `prefix_of` l' -> l' `prefix_of` L ->
  value p = VList nm l' ->
  (is_finished p = true -> l' = L) ->
  exists f',
    eval_primary args p f = (f', inr tt) /\
    if is_finished p then closed_after W' L f'
    else waiting W' (length l') f'.
Proof.
  intros (Hw & Hc & Hsome) Hll' Hl'L Hv Hclosed.
  pose proof (prefix_length _ _ Hll') as Hlen'.
  unfold eval_primary. rewrite Hv. cbn [is_null is_list negb as_list].
  destruct (ready_W _ l' _ Hw) as (hf & Hr & Hw1).
  destruct (call_ready_view _ _ _ _ _ Hr) as (f1 & Hcr & Hv1 & Hi1 & Hl1).
  unfold bind at 1. rewrite Hcr. rewrite <- Hv1 in Hw1. clear Hr Hv1 hf Hcr.
  assert (Hrun1 : is_finished (my_state f1) = false)
    by exact (W_running _ _ (W'_W _ _ Hw1)).
  assert (Hc1 : consumed (each_state f1) = length l)
    by (unfold consumed in *; by rewrite Hi1, Hl1).
  rewrite <- Hi1, <- Hl1 in Hsome. clear Hw Hc Hi1 Hl1 f.
  destruct l' as [|v l'].
  { (* an empty list *)
    simpl in Hlen'. assert (length l = 0) as Hl0 by lia. rewrite Hl0 in *.
    unfold bind, gets. rewrite Hrun1.
    destruct (is_finished p) eqn:Hp; simpl.
    - specialize (Hclosed eq_refl).
      assert (HL : 0 = length L) by (by rewrite <- Hclosed).
      rewrite HL in Hw1.
      destruct (finish_closes f1 Hw1) as (f2 & Hfin & _ & Hcl).
      exists f2. auto.
    - exists f1. split; [reflexivity|]. split; [exact Hw1|]. auto. }
  unfold bind at 1, gets at 1. rewrite Hrun1.
  unfold bind at 1. rewrite first_position_run.
  assert (exists f2,
    (if initialized (each_state f1) then
       match last_subvalue (each_state f1) with
       | Some i => (f1, inr (Datatypes.S i))
       | None =>
           (f1, inl (undefined_behaviour "increment of a singular iterator"))
       end
     else
       (mkEachFrame (my_state f1)
          (mkEachState true (last_subvalue (each_state f1))
                       (subsubstate (each_state f1)))
          (calls f1) (trace f1), inr 0)) = (f2, inr (length l)) /\
    W' (length l) (hook_view f2) /\ initialized (each_state f2) = true /\
    (length l <> 0 -> consumed (each_state f2) = length l))
    as (f2 & -> & Hw2 & Hi2 & Hc2).
  { unfold consumed in Hc1.
    destruct (initialized (each_state f1)) eqn:Hi.
    - destruct (Hsome eq_refl) as [i Hi']. rewrite Hi' in *.
      exists f1. rewrite <- Hc1 in *. unfold consumed. rewrite Hi, Hi'. auto.
    - eexists. rewrite <- Hc1 in *. split; [reflexivity|].
      split; [exact Hw1|]. split; [reflexivity|]. intros []. reflexivity. }
  clear Hc1 Hsome Hrun1 Hw1 f1.
  set (k := length l) in *.
  set (L' := v :: l') in *.
  assert (HL' : length L' = Datatypes.S (length l')) by reflexivity.
  assert (Hseg : drop k L' `prefix_of` drop k L).
  { destruct Hl'L as [t ->]. rewrite drop_app. apply prefix_app_r.
    reflexivity. }
  destruct (each_loop_waiting args nm L W W' W_running W'_W each_W
              L' _ k f2 Hw2 Hseg Hi2)
    as (f3 & Hloop & Hw3 & Hi3 & Hl3).
  unfold bind at 1. rewrite Hloop.
  rewrite length_drop in Hw3, Hl3.
  replace (k + (length L' - k)) with (length L') in * by lia.
  assert (Hwait : waiting W' (length L') f3).
  { split; [exact Hw3|]. split; [|intros _].
    + unfold consumed. rewrite Hi3, Hl3.
      destruct (drop k L') eqn:Hd.
      * apply (f_equal length) in Hd. rewrite length_drop in Hd.
        simpl in Hd. assert (k <> 0) by lia.
        specialize (Hc2 ltac:(assumption)). unfold consumed in Hc2.
        rewrite Hi2 in Hc2. rewrite Hc2. lia.
      * apply (f_equal length) in Hd. rewrite length_drop in Hd.
        simpl in Hd. lia.
    + rewrite Hl3. destruct (drop k L') eqn:Hd; [|eauto].
      apply (f_equal length) in Hd. rewrite length_drop in Hd.
      simpl in Hd. assert (k <> 0) by lia.
      specialize (Hc2 ltac:(assumption)). unfold consumed in Hc2.
      rewrite Hi2 in Hc2.
      destruct (last_subvalue (each_state f2)); [eauto|lia]. }
  destruct (is_finished p) eqn:Hp.
  - specialize (Hclosed eq_refl). rewrite Hclosed in Hw3.
    destruct (finish_closes f3 Hw3) as (f4 & Hfin & _ & Hcl).
    unfold finish_unless_finished, bind, gets.
    pose proof (W_running _ _ (W'_W _ _ Hw3)) as Hrun3. simpl in Hrun3.
    rewrite Hrun3. simpl. exists f4. auto.
  - exists f3. auto.
Qed.

Lemma closed_after_view (f f' : EachFrame S) :
  hook_view f' = hook_view f -> closed_after W' L f -> closed_after W' L f'.
Proof. intros Hv (hf0 & Hw & Hf). exists hf0. by rewrite Hv. Qed.

Lemma closed_after_finished (f : EachFrame S) :
  closed_after W' L f -> is_finished (my_state f) = true.
Proof.
  intros (hf0 & _ & Hf).
  change (is_finished (h_my_state (hook_view f)) = true). by rewrite Hf.
Qed.

(** Once closed, an invocation on a list only runs [ready], which does
    nothing. *)
Lemma closed_step l' p (f : EachFrame S) :
  closed_after W' L f -> value p = VList nm l' ->
  exists f',
    eval_primary args p f = (f', inr tt) /\ hook_view f' = hook_view f.
Proof.
  intros Hcl Hv. pose proof (closed_after_finished f Hcl) as Hfin.
  unfold eval_primary. rewrite Hv.
  cbn [is_null is_list negb as_list].
  assert (Hready : ready args (VList nm l') (hook_view f)
                   = (hook_view f, inr tt)).
  { destruct Hcl as (hf0 & Hw & ->). by apply ready_closed. }
  destruct (call_ready_view args (VList nm l') f _ _ Hready)
    as (f1 & Hcr & Hv1 & _).
  unfold bind at 1. rewrite Hcr.
  assert (is_finished (my_state f1) = true) as Hfin1.
  { change (is_finished (h_my_state (hook_view f1)) = true). by rewrite Hv1. }
  exists f1. split; [|exact Hv1].
  destruct l'; unfold bind, gets; rewrite Hfin1; [|reflexivity].
  by rewrite andb_false_r.
Qed.

Lemma closed_seq ps :
  forall l (f : EachFrame S),
    closed_after W' L f -> stream_from nm l ps ->
    exists f',
      eval_primary_seq args ps f = (f', inr tt) /\
      hook_view f' = hook_view f.
Proof.
  induction ps as [|p ps IH]; intros l f Hcl Hs; [by exists f|].
  simpl in Hs. destruct Hs as (l' & Hv & _ & Hs).
  destruct (closed_step l' p f Hcl Hv) as (f1 & Hstep & Hview).
  destruct (IH l' f1 (closed_after_view f f1 Hview Hcl) Hs)
    as (f' & Hrun & Hview').
  exists f'. split; [|congruence]. simpl. unfold bind. by rewrite Hstep.
Qed.

Lemma exhaustive_seq ps :
  forall l (f : EachFrame S),
    ps <> [] ->
    stream_from nm l ps ->
    closed_is_final L ps ->
    final_list l ps = L ->
    waiting W (length l) f ->
    exists f',
      eval_primary_seq args ps f = (f', inr tt) /\
      if existsb is_finished ps then closed_after W' L f'
      else waiting W' (length L) f'.
Proof.
  induction ps as [|p ps IH]; intros l f Hne Hs Hcl Hfin Hw; [done|].
  simpl in Hs. destruct Hs as (l' & Hv & Hll' & Hs).
  simpl in Hfin. rewrite Hv in Hfin. simpl in Hfin.
  apply Forall_cons in Hcl as [Hp Hcl]. rewrite Hv in Hp. simpl in Hp.
  pose proof (stream_from_final nm ps l' Hs) as Hl'L. rewrite Hfin in Hl'L.
  destruct (exhaustive_step l l' p f Hw Hll' Hl'L Hv Hp)
    as (f1 & Hstep & Hres).
  simpl. unfold bind. rewrite Hstep.
  destruct ps as [|q ps].
  - simpl in Hfin. subst l'. exists f1. split; [reflexivity|].
    simpl. by rewrite orb_false_r.
  - destruct (is_finished p) eqn:Hfp; simpl.
    + destruct (closed_seq (q :: ps) l' f1 Hres Hs)
        as (f' & Hrun & Hview).
      exists f'. split; [exact Hrun|]. by apply (closed_after_view f1).
    + apply (IH l' f1); auto using waiting_weaken.
Qed.

End Exhaustive.
End Exhaustive.

(** ** Map, Filter and Selector over a whole list *)

Module MapFacts.
Import Eff Functional Observe ObserveRest StateFacts Cursor Streaming.

Section Map.
Context {S : Type}.
Variable eval_map : value_vec_t -> S -> Value -> Value * S.
Variable args : value_vec_t.
Variable nm : string.
Variable L : list Value.
Variable sub0 : S.

Lemma mapped_by_app (f : S -> Value -> Value * S) l1 :
  forall sub l2,
    mapped_by f sub (l1 ++ l2) =
      (fst (mapped_by f sub l1) ++
         fst (mapped_by f (snd (mapped_by f sub l1)) l2),
       snd (mapped_by f (snd (mapped_by f sub l1)) l2)).
Proof.
  induction l1 as [|v l1 IH]; intros sub l2; simpl.
  - by destruct (mapped_by f sub l2).
  - destruct (f sub v) as [r sub']. rewrite IH.
    by destruct (mapped_by f sub' l1) as [rs sub''].
Qed.

Lemma mapped_by_length (f : S -> Value -> Value * S) l :
  forall sub, length (fst (mapped_by f sub l)) = length l.
Proof.
  induction l as [|v l IH]; intros sub; simpl; [reflexivity|].
  destruct (f sub v) as [r sub']. specialize (IH sub').
  destruct (mapped_by f sub' l). simpl in *. by rewrite IH.
Qed.

Local Abbreviation map_waiting :=
  (ObserveRest.map_waiting (eval_map args) nm L sub0).

Lemma map_ready_waiting k l hf :
  map_waiting false k hf ->
  exists hf',
    Map_ready args (VList nm l) hf = (hf', inr tt) /\ map_waiting true k hf'.
Proof.
  intros (out & Hf & Hc & [Hm|(_ & -> & Hm)]).
  - exists hf. split.
    + unfold Map_ready, hook_on_my_state. simpl. rewrite Hm. simpl.
      destruct hf; simpl in *; by subst.
    + exists out. auto.
  - simpl in Hf. injection Hf as <- Hsub.
    exists (mkHookFrame (collecting nm []) (h_substate hf) (h_calls hf)).
    split.
    + unfold Map_ready, hook_on_my_state. simpl. rewrite Hm. reflexivity.
    + exists []. simpl. rewrite <- Hsub. auto.
Qed.

Lemma map_ready_closed l (hf0 : HookFrame S) :
  map_waiting true (length L) hf0 ->
  let closed :=
    mkHookFrame (finished_as (h_my_state hf0)) (h_substate hf0)
                (h_calls hf0) in
  Map_ready args (VList nm l) closed = (closed, inr tt).
Proof.
  intros (out & _ & _ & [Hm|(? & _)]); [|discriminate].
  unfold Map_ready, hook_on_my_state, setup_local_list. simpl.
  by rewrite Hm.
Qed.

Lemma map_each_waiting k l v hf :
  L !! k = Some v -> map_waiting true k hf ->
  exists hf',
    Map_eval_each eval_map args (VList nm l) v hf = (hf', inr tt) /\
    map_waiting true (Datatypes.S k) hf'.
Proof.
  intros Hk (out & Hf & Hc & [Hm|(? & _)]); [|discriminate].
  destruct (eval_map args (h_substate hf) v) as [r sub'] eqn:Hs.
  exists (mkHookFrame (collecting nm (out ++ [r])) sub' (h_calls hf ++ [v])).
  split.
  - unfold Map_eval_each, bind, call_user, hook_on_my_state. simpl.
    rewrite Hs. simpl. by rewrite Hm.
  - exists (out ++ [r]). simpl.
    rewrite (take_S_r L k v Hk). split; [|split; [by rewrite Hc|by left]].
    rewrite mapped_by_app, Hf. simpl. by rewrite Hs.
Qed.

Lemma map_stream ps :
  ps <> [] ->
  stream_from nm [] ps ->
  closed_is_final L ps ->
  final_list [] ps = L ->
  exists f',
    eval_primary_seq (Hooks:=Map eval_map) args ps (initial_frame sub0)
      = (f', inr tt) /\
    if existsb is_finished ps
    then closed_after (map_waiting true) L f'
    else waiting (map_waiting true) (length L) f'.
Proof.
  intros Hne Hs Hcl Hfin.
  apply (Exhaustive.exhaustive_seq (Hooks:=Map eval_map) args nm L
           (map_waiting false) (map_waiting true)) with (l := []); auto.
  - intros k hf (out & _ & _ & [->|(_ & _ & ->)]); reflexivity.
  - intros k hf (out & ? & ? & [?|(? & _)]); [|discriminate].
    exists out. auto.
  - intros k l hf. apply map_ready_waiting.
  - apply map_ready_closed.
  - apply map_each_waiting.
  - split; [|split; [reflexivity|discriminate]].
    exists []. simpl. split; [reflexivity|]. split; [reflexivity|].
    right. auto.
Qed.

End Map.

(** X12.  A Map node evaluated one or more times over a growing list
    primary that ends as [L]: no invocation throws, [eval_map] has been
    invoked on each element of [L] once and in order with the substate
    passed along, the node's value is the list, under the primary's name,
    of what [eval_map] returned, and the node is finished exactly when the
    primary argument was finished in one of the invocations. *)
Theorem Map_maps_the_whole_list {S : Type}
    (eval_map : value_vec_t -> S -> Value -> Value * S)
    (args : value_vec_t) (nm : string) (L : list Value) (sub0 : S)
    (ps : list NodeEvalState) :
  ps <> [] ->
  stream_from nm [] ps ->
  closed_is_final L ps ->
  final_list [] ps = L ->
  exists f',
    eval_primary_seq (Hooks:=Map eval_map) args ps (initial_frame sub0)
      = (f', inr tt) /\
    calls f' = L /\
    value (my_state f') = VList nm (fst (mapped_by (eval_map args) sub0 L)) /\
    subsubstate (each_state f') = snd (mapped_by (eval_map args) sub0 L) /\
    is_finished (my_state f') = existsb is_finished ps.
Proof.
  intros Hne Hs Hcl Hfin.
  destruct (map_stream eval_map args nm L sub0 ps Hne Hs Hcl Hfin)
    as (f' & Hrun & Hres).
  exists f'. split; [exact Hrun|].
  destruct (existsb is_finished ps).
  - destruct Hres as (hf0 & (out & Hm & Hc & [Hst|(? & _)]) & Hview);
      [|discriminate].
    rewrite firstn_all in Hm, Hc. rewrite Hm.
    unfold hook_view in Hview. injection Hview as Hmy Hsub Hcalls.
    rewrite Hmy, Hsub, Hcalls, Hst. simpl. auto.
  - destruct Hres as ((out & Hm & Hc & [Hst|(? & _)]) & _);
      [|discriminate].
    rewrite firstn_all in Hm, Hc. rewrite Hm. simpl in *.
    rewrite Hst. simpl. auto.
Qed.

Lemma Map_maps_the_whole_list_witness :
  exists f',
    eval_primary_seq (Hooks:=Map Samples.double) []
      [Samples.primary [1%Z] false; Samples.primary [1%Z; 2%Z] true]
      (initial_frame tt) = (f', inr tt) /\
    calls f' = [Samples.num 1; Samples.num 2] /\
    value (my_state f') =
      VList "p" (fst (mapped_by (Samples.double []) tt
                        [Samples.num 1; Samples.num 2])) /\
    subsubstate (each_state f') =
      snd (mapped_by (Samples.double []) tt
             [Samples.num 1; Samples.num 2]) /\
    is_finished (my_state f') = true.
Proof.
  apply (Map_maps_the_whole_list Samples.double [] "p"
           [Samples.num 1; Samples.num 2] tt
           [Samples.primary [1%Z] false; Samples.primary [1%Z; 2%Z] true]).
  - discriminate.
  - simpl. eexists. split; [reflexivity|]. split; [by exists [Samples.num 1]|].
    eexists. split; [reflexivity|]. split; [by exists [Samples.num 2]|done].
  - repeat constructor; simpl; congruence.
  - reflexivity.
Defined.

End MapFacts.

Module FilterMore.
Import Eff Functional Observe ObserveRest StateFacts Cursor Streaming.

Lemma Filter_ready_closed {S : Type}
    (flt : S -> Value -> (bool * bool) * S) (args : value_vec_t)
    (nm : string) (L : list Value) (sub0 : S) (l : list Value)
    (hf0 : HookFrame S) :
  flt_waiting flt nm L sub0 true (length L) hf0 ->
  let closed :=
    mkHookFrame (finished_as (h_my_state hf0)) (h_substate hf0)
                (h_calls hf0) in
  Filter_ready args (VList nm l) closed = (closed, inr tt).
Proof.
  intros (out & _ & _ & [Hm|(? & _)]); [|discriminate].
  unfold Filter_ready, hook_on_my_state, setup_local_list. simpl.
  by rewrite Hm.
Qed.

(** X13.  A Filter node evaluated one or more times over a growing list
    primary that ends as [L], [eval_filter] asking for an early finish at
    no element of [L]: no invocation throws, [eval_filter] has been invoked
    on each element of [L] once and in order, the node's value is the list,
    under the primary's name, of the elements that passed, in their order,
    and the node is finished exactly when the primary argument was finished
    in one of the invocations. *)
Theorem Filter_keeps_the_passing_elements {S : Type}
    (eval_filter : value_vec_t -> S -> Value -> (bool * bool) * S)
    (args : value_vec_t) (nm : string) (L : list Value) (sub0 sub1 : S)
    (passed : list Value) (ps : list NodeEvalState) :
  filtered_by (eval_filter args) sub0 L = Some (passed, sub1) ->
  ps <> [] ->
  stream_from nm [] ps ->
  closed_is_final L ps ->
  final_list [] ps = L ->
  exists f',
    eval_primary_seq (Hooks:=Filter eval_filter) args ps (initial_frame sub0)
      = (f', inr tt) /\
    calls f' = L /\
    value (my_state f') = VList nm passed /\
    subsubstate (each_state f') = sub1 /\
    is_finished (my_state f') = existsb is_finished ps.
Proof.
  intros Hflt Hne Hs Hcl Hfin.
  destruct (Exhaustive.exhaustive_seq (Hooks:=Filter eval_filter) args nm L
              (flt_waiting (eval_filter args) nm L sub0 false)
              (flt_waiting (eval_filter args) nm L sub0 true))
    with (l := @nil Value) (ps := ps) (f := initial_frame sub0)
    as (f' & Hrun & Hres); auto.
  - intros k hf (out & _ & _ & [->|(_ & _ & ->)]); reflexivity.
  - intros k hf (out & ? & ? & [?|(? & _)]); [|discriminate].
    exists out. auto.
  - intros k l hf. apply FilterFacts.flt_ready_waiting.
  - intros l hf0. apply Filter_ready_closed.
  - apply (FilterFacts.flt_each_waiting eval_filter args nm L sub0 sub1
             passed Hflt).
  - split; [|split; [reflexivity|discriminate]].
    exists []. simpl. split; [reflexivity|]. split; [reflexivity|].
    right. auto.
  - exists f'. split; [exact Hrun|].
    destruct (existsb is_finished ps).
    + destruct Hres as (hf0 & (out & Hm & Hc & [Hst|(? & _)]) & Hview);
        [|discriminate].
      rewrite firstn_all in Hm, Hc. rewrite Hflt in Hm.
      injection Hm as <- ->.
      unfold hook_view in Hview. injection Hview as Hmy Hsub Hcalls.
      rewrite Hmy, Hsub, Hcalls, Hst. simpl. auto.
    + destruct Hres as ((out & Hm & Hc & [Hst|(? & _)]) & _);
        [|discriminate].
      rewrite firstn_all in Hm, Hc. rewrite Hflt in Hm.
      injection Hm as <- ->. simpl in *. rewrite Hst. simpl. auto.
Qed.

Lemma Filter_keeps_the_passing_elements_witness :
  exists f',
    eval_primary_seq (Hooks:=Filter Samples.is_even) []
      [Samples.primary [1%Z; 2%Z] false;
       Samples.primary [1%Z; 2%Z; 4%Z] true]
      (initial_frame tt) = (f', inr tt) /\
    calls f' = [Samples.num 1; Samples.num 2; Samples.num 4] /\
    value (my_state f') = VList "p" [Samples.num 2; Samples.num 4] /\
    subsubstate (each_state f') = tt /\
    is_finished (my_state f') = true.
Proof.
  apply (Filter_keeps_the_passing_elements Samples.is_even [] "p"
           [Samples.num 1; Samples.num 2; Samples.num 4] tt tt
           [Samples.num 2; Samples.num 4]
           [Samples.primary [1%Z; 2%Z] false;
            Samples.primary [1%Z; 2%Z; 4%Z] true]).
  - reflexivity.
  - discriminate.
  - simpl. eexists. split; [reflexivity|].
    split; [by exists [Samples.num 1; Samples.num 2]|].
    eexists. split; [reflexivity|]. split; [by exists [Samples.num 4]|done].
  - repeat constructor; simpl; congruence.
  - reflexivity.
Defined.

End FilterMore.

Module SelectorMore.
Import Eff Functional Observe ObserveRest StateFacts Cursor Streaming.

Lemma sel_idle_each {S : Type}
    (eval_selector : value_vec_t -> S -> Value -> bool * S)
    (args : value_vec_t) (nm : string) (L : list Value) (sub0 sub1 : S) :
  rejected_by (eval_selector args) sub0 L = Some sub1 ->
  forall k l v hf,
    L !! k = Some v -> sel_idle (eval_selector args) L sub0 k hf ->
    exists hf',
      Selector_eval_each eval_selector args (VList nm l) v hf
        = (hf', inr tt) /\
      sel_idle (eval_selector args) L sub0 (Datatypes.S k) hf'.
Proof.
  intros Hall k l v hf Hk (Hst & Hcalls & Hrej).
  rewrite <- (take_drop_middle L k v Hk),
    SelectorFacts.rejected_by_app, Hrej in Hall.
  simpl in Hall.
  destruct (eval_selector args (h_substate hf) v) as [pass sub'] eqn:Hs.
  destruct pass; [discriminate|].
  exists (mkHookFrame (h_my_state hf) sub' (h_calls hf ++ [v])). split.
  - unfold Selector_eval_each, bind, call_user. by rewrite Hs.
  - split; [exact Hst|]. simpl. rewrite (take_S_r L k v Hk).
    split; [by rewrite Hcalls|].
    rewrite SelectorFacts.rejected_by_app, Hrej. simpl. by rewrite Hs.
Qed.

(** X14.  A Selector node evaluated one or more times over a growing list
    primary that ends as [L], no element of which [eval_selector] selects:
    no invocation throws, [eval_selector] has been invoked on each element
    of [L] once and in order, the node has no value, and it is finished
    exactly when the primary argument was finished in one of the
    invocations. *)
Theorem Selector_without_match_finishes_null {S : Type}
    (eval_selector : value_vec_t -> S -> Value -> bool * S)
    (args : value_vec_t) (nm : string) (L : list Value) (sub0 sub1 : S)
    (ps : list NodeEvalState) :
  rejected_by (eval_selector args) sub0 L = Some sub1 ->
  ps <> [] ->
  stream_from nm [] ps ->
  closed_is_final L ps ->
  final_list [] ps = L ->
  exists f',
    eval_primary_seq (Hooks:=Selector eval_selector) args ps
      (initial_frame sub0) = (f', inr tt) /\
    calls f' = L /\
    value (my_state f') = VNull /\
    subsubstate (each_state f') = sub1 /\
    is_finished (my_state f') = existsb is_finished ps.
Proof.
  intros Hrej Hne Hs Hcl Hfin.
  destruct (Exhaustive.exhaustive_seq (Hooks:=Selector eval_selector)
              args nm L
              (sel_idle (eval_selector args) L sub0)
              (sel_idle (eval_selector args) L sub0))
    with (l := @nil Value) (ps := ps) (f := initial_frame sub0)
    as (f' & Hrun & Hres); auto.
  - by intros k hf (-> & _).
  - intros k l hf Hw. by exists hf.
  - apply (sel_idle_each eval_selector args nm L sub0 sub1 Hrej).
  - split; [|split; [reflexivity|discriminate]]. by split.
  - exists f'. split; [exact Hrun|].
    destruct (existsb is_finished ps).
    + destruct Hres as (hf0 & (Hst & Hc & Hm) & Hview).
      rewrite firstn_all in Hm, Hc. rewrite Hrej in Hm. injection Hm as ->.
      unfold hook_view in Hview. injection Hview as Hmy Hsub Hcalls.
      rewrite Hmy, Hsub, Hcalls, Hst. simpl. auto.
    + destruct Hres as ((Hst & Hc & Hm) & _).
      rewrite firstn_all in Hm, Hc. rewrite Hrej in Hm. injection Hm as ->.
      simpl in *. rewrite Hst. simpl. auto.
Qed.

Lemma Selector_without_match_finishes_null_witness :
  exists f',
    eval_primary_seq (Hooks:=Selector Samples.greater_than_4) []
      [Samples.primary [1%Z] false; Samples.primary [1%Z; 3%Z] true]
      (initial_frame tt) = (f', inr tt) /\
    calls f' = [Samples.num 1; Samples.num 3] /\
    value (my_state f') = VNull /\
    subsubstate (each_state f') = tt /\
    is_finished (my_state f') = true.
Proof.
  apply (Selector_without_match_finishes_null Samples.greater_than_4 [] "p"
           [Samples.num 1; Samples.num 3] tt tt
           [Samples.primary [1%Z] false; Samples.primary [1%Z; 3%Z] true]).
  - reflexivity.
  - discriminate.
  - simpl. eexists. split; [reflexivity|]. split; [by exists [Samples.num 1]|].
    eexists. split; [reflexivity|]. split; [by exists [Samples.num 3]|done].
  - repeat constructor; simpl; congruence.
  - reflexivity.
Defined.

End SelectorMore.

(** ** What every Each combinator does with a finished or null primary *)

Module EachMore.
Import Eff Functional Observe ObserveRest StateFacts.

Section AnyHooks.
Context {S : Type} {Hooks : EachHooks S}.
Variable args : value_vec_t.

Lemma each_loop_returned pv rest :
  forall pos (f f' : EachFrame S),
    each_loop args pv rest pos f = (f', inr true) ->
    is_finished (my_state f') = true.
Proof.
  induction rest as [|sv rest IH]; intros pos f f' Hrun; [discriminate|].
  simpl in Hrun. unfold bind at 1 in Hrun.
  destruct (call_eval_each args pv sv f) as [f1 [e|[]]]; [discriminate|].
  unfold bind at 1, gets at 1 in Hrun.
  destruct (is_finished (my_state f1)) eqn:Hfin.
  - by inversion Hrun; subst.
  - unfold bind at 1, set_last_subvalue, modify in Hrun.
    by apply IH in Hrun.
Qed.

Lemma finish_unless_finished_returned (f f' : EachFrame S) :
  finish_unless_finished f = (f', inr tt) ->
  is_finished (my_state f') = true.
Proof.
  unfold finish_unless_finished, bind, gets, on_my_state, finish.
  destruct (is_finished (my_state f)) eqn:Hfin; simpl.
  - by inversion 1; subst.
  - rewrite Hfin. by inversion 1; subst.
Qed.

Lemma eval_primary_on_finished p (f f' : EachFrame S) :
  is_finished p = true ->
  eval_primary args p f = (f', inr tt) ->
  is_finished (my_state f') = true.
Proof.
  intros Hp Hrun. unfold eval_primary in Hrun. rewrite Hp in Hrun.
  destruct (is_null (value p)).
  { unfold on_my_state, finish_value, finish in Hrun.
    destruct (is_finished (my_state f)); [discriminate|].
    by inversion Hrun; subst. }
  destruct (is_list (value p)); cbn [negb] in Hrun.
  2: { unfold bind at 1 in Hrun.
       destruct (call_ready args (value p) f) as [f1 [e|[]]]; [discriminate|].
       unfold bind at 1 in Hrun.
       destruct (call_eval_each args (value p) (value p) f1)
         as [f2 [e|[]]]; [discriminate|].
       by apply finish_unless_finished_returned in Hrun. }
  unfold bind at 1 in Hrun.
  destruct (call_ready args (value p) f) as [f1 [e|[]]]; [discriminate|].
  destruct (as_list (value p)) as [|v l].
  - unfold bind, gets, on_my_state, finish in Hrun.
    destruct (is_finished (my_state f1)) eqn:Hfin; simpl in Hrun.
    + by inversion Hrun; subst.
    + rewrite Hfin in Hrun. by inversion Hrun; subst.
  - unfold bind at 1, gets at 1 in Hrun.
    destruct (is_finished (my_state f1)) eqn:Hfin.
    { by inversion Hrun; subst. }
    unfold bind at 1 in Hrun.
    destruct (first_position f1) as [f2 [e|start]]; [discriminate|].
    unfold bind at 1 in Hrun.
    destruct (each_loop args (value p) (drop start (v :: l)) start f2)
      as [f3 [e|[]]] eqn:Hloop; [discriminate| |].
    + apply each_loop_returned in Hloop. by inversion Hrun; subst.
    + by apply finish_unless_finished_returned in Hrun.
Qed.

Lemma eval_primary_null_running p (f : EachFrame S) :
  value p = VNull -> is_finished p = false ->
  eval_primary args p f = (f, inr tt).
Proof. intros Hv Hp. unfold eval_primary. by rewrite Hv, Hp. Qed.

End AnyHooks.

(** X15.  Whatever the hooks do: an invocation on a finished primary
    argument that returns leaves the node finished. *)
Theorem finished_primary_finishes_the_node {S : Type} (Hooks : EachHooks S)
    (secondary_args : value_vec_t) (primary_arg : NodeEvalState)
    (f f' : EachFrame S) :
  is_finished primary_arg = true ->
  eval_primary secondary_args primary_arg f = (f', inr tt) ->
  is_finished (my_state f') = true.
Proof. apply eval_primary_on_finished. Qed.

Lemma finished_primary_finishes_the_node_witness :
  is_finished
    (my_state
       (fst (eval_primary (Hooks:=Filter Samples.is_even) []
               (Samples.primary [1%Z; 3%Z] true) (initial_frame tt)))) = true.
Proof.
  apply (finished_primary_finishes_the_node (Filter Samples.is_even) []
           (Samples.primary [1%Z; 3%Z] true) (initial_frame tt)).
  - reflexivity.
  - vm_compute. reflexivity.
Defined.

(** X16.  Whatever the hooks are: while the primary argument has no value
    and is unfinished the invocations leave everything as it is, and when
    it then finishes without a value, the node is finished without a value,
    neither [ready] nor [eval_each] having been called. *)
Theorem null_primary_finishes_without_hooks {S : Type} (Hooks : EachHooks S)
    (secondary_args : value_vec_t) (ps : list NodeEvalState)
    (p : NodeEvalState) (f : EachFrame S) :
  Forall (fun q => value q = VNull /\ is_finished q = false) ps ->
  value p = VNull -> is_finished p = true ->
  is_finished (my_state f) = false ->
  eval_primary_seq secondary_args ps f = (f, inr tt) /\
  eval_primary_seq secondary_args (ps ++ [p]) f =
    (mkEachFrame (mkNodeEvalState VNull true (local_values (my_state f)))
       (each_state f) (calls f) (trace f), inr tt).
Proof.
  intros Hps Hv Hp Hf.
  induction Hps as [|q ps [Hqv Hqf] _ [IH1 IH2]]; simpl.
  - split; [reflexivity|]. unfold bind, eval_primary.
    rewrite Hv, Hp. simpl. unfold on_my_state, finish_value, finish.
    by rewrite Hf.
  - unfold bind. rewrite (eval_primary_null_running _ q f Hqv Hqf).
    split; [exact IH1|exact IH2].
Qed.

Lemma null_primary_finishes_without_hooks_witness :
  eval_primary_seq (Hooks:=Map Samples.double) []
    [null_running; null_running] (initial_frame tt)
    = (initial_frame tt, inr tt) /\
  eval_primary_seq (Hooks:=Map Samples.double) []
    ([null_running; null_running] ++ [null_finished]) (initial_frame tt)
    = (mkEachFrame (mkNodeEvalState VNull true None)
         (eval_initialize tt) [] [], inr tt).
Proof.
  apply (null_primary_finishes_without_hooks (Map Samples.double) []
           [null_running; null_running] null_finished (initial_frame tt)).
  - repeat constructor.
  - reflexivity.
  - reflexivity.
  - reflexivity.
Defined.

End EachMore.

(** ** A primary argument that is a single value *)

Module ScalarFacts.
Import Eff Functional Observe ObserveRest StateFacts.

Ltac run_scalar f Hn Hl Hf :=
  destruct f as [[v fin lv] [ini last sub] cs tr]; simpl in Hf; subst fin;
  unfold eval_primary; rewrite Hn, Hl;
  cbv [call_ready call_eval_each log modify call_hook finish_unless_finished
       on_my_state bind gets ret ready eval_each
       Map Map_ready Map_eval_each Filter Filter_ready Filter_eval_each
       Selector Each_ready Selector_eval_each
       hook_on_my_state call_user finish_value finish
       my_state each_state calls trace h_my_state h_substate h_calls
       initialized last_subvalue subsubstate negb];
  rewrite ?Hl; cbv beta iota delta [negb]; rewrite <- ?app_assoc; simpl.

(** X17.  A Map node invoked on a primary value that is neither null nor a
    list, the node being unfinished: [eval_map] is called once, on the
    value, and the node is finished with what it returns, whether the
    primary argument is finished or not. *)
Theorem Map_of_a_scalar {S : Type}
    (eval_map : value_vec_t -> S -> Value -> Value * S)
    (args : value_vec_t) (p : NodeEvalState) (f : EachFrame S) :
  is_null (value p) = false -> is_list (value p) = false ->
  is_finished (my_state f) = false ->
  let pv := value p in
  let r := eval_map args (subsubstate (each_state f)) pv in
  eval_primary (Hooks:=Map eval_map) args p f =
    (mkEachFrame
       (mkNodeEvalState (fst r) true (local_values (my_state f)))
       (mkEachState (initialized (each_state f))
          (last_subvalue (each_state f)) (snd r))
       (calls f ++ [pv]) (trace f ++ [EvReady pv; EvEach pv pv]),
     inr tt).
Proof.
  intros Hn Hl Hf pv r. subst pv r. run_scalar f Hn Hl Hf.
  by destruct (eval_map args sub (value p)) as [r sub'].
Qed.

Lemma Map_of_a_scalar_witness :
  eval_primary (Hooks:=Map Samples.double) []
    (mkNodeEvalState (Samples.num 21) false None) (initial_frame tt) =
    (mkEachFrame (mkNodeEvalState (Samples.num 42) true None)
       (mkEachState false None tt) [Samples.num 21]
       [EvReady (Samples.num 21); EvEach (Samples.num 21) (Samples.num 21)],
     inr tt).
Proof.
  apply (Map_of_a_scalar Samples.double []
           (mkNodeEvalState (Samples.num 21) false None) (initial_frame tt));
    reflexivity.
Defined.

(** X18.  A Filter node invoked on a primary value that is neither null
    nor a list, the node being unfinished: [eval_filter] is called once, on
    the value, and the node is finished, with the value if it passes and
    with the value it had (none, for a fresh node) if it does not; the
    early-finish flag is not looked at. *)
Theorem Filter_of_a_scalar {S : Type}
    (eval_filter : value_vec_t -> S -> Value -> (bool * bool) * S)
    (args : value_vec_t) (p : NodeEvalState) (f : EachFrame S) :
  is_null (value p) = false -> is_list (value p) = false ->
  is_finished (my_state f) = false ->
  let pv := value p in
  let r := eval_filter args (subsubstate (each_state f)) pv in
  eval_primary (Hooks:=Filter eval_filter) args p f =
    (mkEachFrame
       (mkNodeEvalState (if fst (fst r) then pv else value (my_state f))
          true (local_values (my_state f)))
       (mkEachState (initialized (each_state f))
          (last_subvalue (each_state f)) (snd r))
       (calls f ++ [pv]) (trace f ++ [EvReady pv; EvEach pv pv]),
     inr tt).
Proof.
  intros Hn Hl Hf pv r. subst pv r. run_scalar f Hn Hl Hf.
  by destruct (eval_filter args sub (value p)) as [[[] early] sub'].
Qed.

Lemma Filter_of_a_scalar_witness :
  eval_primary (Hooks:=Filter Samples.even_until_above_4) []
    (mkNodeEvalState (Samples.num 7) false None) (initial_frame tt) =
    (mkEachFrame (mkNodeEvalState VNull true None)
       (mkEachState false None tt) [Samples.num 7]
       [EvReady (Samples.num 7); EvEach (Samples.num 7) (Samples.num 7)],
     inr tt).
Proof.
  apply (Filter_of_a_scalar Samples.even_until_above_4 []
           (mkNodeEvalState (Samples.num 7) false None) (initial_frame tt));
    reflexivity.
Defined.

(** X19.  A Selector node invoked on a primary value that is neither null
    nor a list, the node being unfinished: [eval_selector] is called once,
    on the value, and the node is finished, with the value if it is
    selected, and else by [Each::eval_primary] with the value it had. *)
Theorem Selector_of_a_scalar {S : Type}
    (eval_selector : value_vec_t -> S -> Value -> bool * S)
    (args : value_vec_t) (p : NodeEvalState) (f : EachFrame S) :
  is_null (value p) = false -> is_list (value p) = false ->
  is_finished (my_state f) = false ->
  let pv := value p in
  let r := eval_selector args (subsubstate (each_state f)) pv in
  eval_primary (Hooks:=Selector eval_selector) args p f =
    (mkEachFrame
       (mkNodeEvalState (if fst r then pv else value (my_state f))
          true (local_values (my_state f)))
       (mkEachState (initialized (each_state f))
          (last_subvalue (each_state f)) (snd r))
       (calls f ++ [pv]) (trace f ++ [EvReady pv; EvEach pv pv]),
     inr tt).
Proof.
  intros Hn Hl Hf pv r. subst pv r. run_scalar f Hn Hl Hf.
  by destruct (eval_selector args sub (value p)) as [[] sub'].
Qed.

Lemma Selector_of_a_scalar_witness :
  eval_primary (Hooks:=Selector Samples.greater_than_4) []
    (mkNodeEvalState (Samples.num 7) true None) (initial_frame tt) =
    (mkEachFrame (mkNodeEvalState (Samples.num 7) true None)
       (mkEachState false None tt) [Samples.num 7]
       [EvReady (Samples.num 7); EvEach (Samples.num 7) (Samples.num 7)],
     inr tt).
Proof.
  apply (Selector_of_a_scalar Samples.greater_than_4 []
           (mkNodeEvalState (Samples.num 7) true None) (initial_frame tt));
    reflexivity.
Defined.

End ScalarFacts.
